(** * Sampling core of the infinite asymmetric-Gaussian mixture model
      with feature selection ([utils.py])

    The numerical code is embedded over the real numbers: NumPy's
    [float64] and mpmath's [mpf] values are read as elements of [R],
    [np.sqrt], [np.exp], [np.log], [np.power] and [np.pi] as [sqrt],
    [exp], [ln], [Rpower] and [PI]; where a property turns on the
    underflow of [np.exp] to [0.0], the density is given a second time
    with that underflow.  NumPy arrays are a shape together
    with an indexing function; an index outside the shape is Python's
    [IndexError] and is modelled by [None].  All randomness comes from
    one shared source, modelled as a tape of realised draws that the
    sampling routines consume call by call. *)

From Stdlib Require Import Reals Lra Lia List Arith Bool.
Import ListNotations.
Open Scope R_scope.

(** ** NumPy arrays *)

Record vector := mkvec { vlen : nat; vdat : nat -> R }.
Record mat := mkmat { mrows : nat; mcols : nat; mdat : nat -> nat -> R }.
Record ten := mkten { td0 : nat; td1 : nat; td2 : nat;
                      tdat : nat -> nat -> nat -> R }.

(** [v[i]] *)
Definition vget (v : vector) (i : nat) : option R :=
  if (i <? vlen v)%nat then Some (vdat v i) else None.

(** [m[i, j]] *)
Definition mget (m : mat) (i j : nat) : option R :=
  if ((i <? mrows m) && (j <? mcols m))%nat then Some (mdat m i j) else None.

(** [m[i]], the row view *)
Definition mrow (m : mat) (i : nat) : option vector :=
  if (i <? mrows m)%nat then Some (mkvec (mcols m) (mdat m i)) else None.

(** [m[:, k]], the column view *)
Definition mcol (m : mat) (k : nat) : option vector :=
  if (k <? mcols m)%nat then Some (mkvec (mrows m) (fun i => mdat m i k))
  else None.

(** [t[i, j, k]] *)
Definition tget (t : ten) (i j k : nat) : option R :=
  if ((i <? td0 t) && (j <? td1 t) && (k <? td2 t))%nat
  then Some (tdat t i j k) else None.

(** [np.zeros(n)], [np.ones(n)], [np.zeros((n, m))], [np.zeros((n, m, d))] *)
Definition vzeros (n : nat) : vector := mkvec n (fun _ => 0).
Definition vones (n : nat) : vector := mkvec n (fun _ => 1).
Definition mzeros (n m : nat) : mat := mkmat n m (fun _ _ => 0).
Definition tzeros (n m d : nat) : ten := mkten n m d (fun _ _ _ => 0).

(** [v[i] = x] *)
Definition vset (v : vector) (i : nat) (x : R) : option vector :=
  if (i <? vlen v)%nat
  then Some (mkvec (vlen v) (fun i' => if (i' =? i)%nat then x else vdat v i'))
  else None.

(** [m[i] = x] with a scalar [x]: NumPy broadcasts the scalar over the
    whole row [i]. *)
Definition mset_row (m : mat) (i : nat) (x : R) : option mat :=
  if (i <? mrows m)%nat
  then Some (mkmat (mrows m) (mcols m)
               (fun i' j' => if (i' =? i)%nat then x else mdat m i' j'))
  else None.

(** [t[i, j, k] = x] *)
Definition tset (t : ten) (i j k : nat) (x : R) : option ten :=
  if ((i <? td0 t) && (j <? td1 t) && (k <? td2 t))%nat
  then Some (mkten (td0 t) (td1 t) (td2 t)
               (fun i' j' k' =>
                  if ((i' =? i) && (j' =? j) && (k' =? k))%nat then x
                  else tdat t i' j' k'))
  else None.

(** Elementwise operations on arrays of one shape (the shape of the left
    operand is kept, as for NumPy's in-place [*=] and [+=]). *)
Definition vmap (f : R -> R) (v : vector) : vector :=
  mkvec (vlen v) (fun i => f (vdat v i)).
Definition vzip (f : R -> R -> R) (a b : vector) : option vector :=
  if (vlen a =? vlen b)%nat
  then Some (mkvec (vlen a) (fun i => f (vdat a i) (vdat b i)))
  else None.

(** ** Fallible code: the option monad *)

Definition obind {A B} (m : option A) (k : A -> option B) : option B :=
  match m with Some a => k a | None => None end.

Notation "x <-? m ;; k" := (obind m (fun x => k))
  (at level 61, m at next level, right associativity).

(** [for i in range(n): s = body(i, s)] *)
Fixpoint ofor_from (start count : nat) {S : Type}
    (body : nat -> S -> option S) (s : S) : option S :=
  match count with
  | O => Some s
  | Datatypes.S c => s' <-? body start s ;; ofor_from (Datatypes.S start) c body s'
  end.

Definition ofor {S : Type} (n : nat) (body : nat -> S -> option S) (s : S)
  : option S := ofor_from 0 n body s.

(** ** The asymmetric Gaussian density *)

(** [AGD_pdf(x_k, mu, s_l, s_r)] *)
Definition AGD_pdf (x_k mu s_l s_r : R) : R :=
  if Rlt_dec x_k mu then
    sqrt (2 / PI) / (Rpower s_l (-0.5) + Rpower s_r (-0.5))
    * exp (- 0.5 * s_l * (x_k - mu) ^ 2)
  else
    sqrt (2 / PI) / (Rpower s_l (-0.5) + Rpower s_r (-0.5))
    * exp (- 0.5 * s_r * (x_k - mu) ^ 2).

(** The density as the specification words it: choose the precision by
    the side of the split point, then evaluate one formula. *)
Definition AGD_branch (s x mu s_l s_r : R) : R :=
  sqrt (2 / PI) / (Rpower s_l (-0.5) + Rpower s_r (-0.5))
  * exp (- 0.5 * s * (x - mu) ^ 2).

Definition AGD_spec (x mu s_l s_r : R) : R :=
  AGD_branch (if Rlt_dec x mu then s_l else s_r) x mu s_l s_r.

(** *** Underflow of the exponential *)




(** ** The shared random source *)

(** The distributions the code draws from. *)
Inductive dist : Type :=
| Normal (loc scale : R)
| Gamma (a theta : R)
| Uniform (low high : R)
| RandInt (low high : nat)
| MVNormal (mean cov : vector)
| BetaD (a b : vector).

(** A realisation of the process-wide random generator: the [n]-th call,
    asking for distribution [d], returns an array whose component [c] is
    [src n d c].  Scalar draws read component 0. *)
Definition source := nat -> dist -> nat -> R.

(** Code that draws: it reads the source, advances the call counter and may
    fail with a Python exception. *)
Definition Rand (A : Type) : Type := source -> nat -> option (A * nat).

Definition ret {A} (a : A) : Rand A := fun _ n => Some (a, n).

Definition bind {A B} (m : Rand A) (k : A -> Rand B) : Rand B :=
  fun src n => match m src n with
               | Some (a, n') => k a src n'
               | None => None
               end.

Definition lift {A} (o : option A) : Rand A :=
  fun _ n => match o with Some a => Some (a, n) | None => None end.

Notation "x <- m ;; k" := (bind m (fun x => k))
  (at level 61, m at next level, right associativity).

(** One call returning an array of [size] variates, and one call returning
    a scalar. *)
Definition rvs (d : dist) (size : nat) : Rand vector :=
  fun src n => Some (mkvec size (src n d), S n).

Definition rvs_scalar (d : dist) : Rand R :=
  fun src n => Some (src n d 0%nat, S n).

(** [for i in range(n): s = body(i, s)] for code that draws *)
Fixpoint rfor_from (start count : nat) {S : Type}
    (body : nat -> S -> Rand S) (s : S) : Rand S :=
  match count with
  | O => ret s
  | Datatypes.S c => s' <- body start s ;; rfor_from (Datatypes.S start) c body s'
  end.

Definition rfor {S : Type} (n : nat) (body : nat -> S -> Rand S) (s : S)
  : Rand S := rfor_from 0 n body s.

(** [np.array([f(k) for k in range(n)])] for an [f] that draws *)
Fixpoint rcomp_from (start count : nat) (f : nat -> Rand R) : Rand (list R) :=
  match count with
  | O => ret []
  | Datatypes.S c =>
      a <- f start ;; l <- rcomp_from (Datatypes.S start) c f ;; ret (a :: l)
  end.

Definition rcomp (n : nat) (f : nat -> Rand R) : Rand vector :=
  l <- rcomp_from 0 n f ;; ret (mkvec (length l) (fun i => nth i l 0)).

(** *** The draw wrappers of the module *)

(** [draw_gamma(a, theta, size=1)] *)
Definition draw_gamma (a theta : R) : Rand vector := rvs (Gamma a theta) 1.

(** [draw_normal(loc, scale, size=1)] *)
Definition draw_normal (loc scale : R) : Rand vector := rvs (Normal loc scale) 1.

(** What [multivariate_normal.rvs] hands back: SciPy squeezes its output,
    so a draw of dimension 1 (with [size=1]) is a scalar, which cannot be
    indexed, and a draw of any other dimension is a one-dimensional
    array. *)
Inductive ndval : Type :=
| NdScalar (x : R)
| NdVector (v : vector).

(** [a[k]] on such a value; indexing a scalar raises. *)
Definition nd_index (a : ndval) (k : nat) : option R :=
  match a with
  | NdScalar _ => None
  | NdVector v => vget v k
  end.

(** [draw_MVNormal(mean, cov, size=1)] *)
Definition draw_MVNormal (mean cov : vector) : Rand ndval :=
  fun src n =>
    Some (if (vlen mean =? 1)%nat
          then NdScalar (src n (MVNormal mean cov) 0%nat)
          else NdVector (mkvec (vlen mean) (src n (MVNormal mean cov))),
          S n).

(** [draw_Beta_dist(delta_a, delta_b)]: one variate per shape parameter *)
Definition draw_Beta_dist (delta_a delta_b : vector) : Rand vector :=
  rvs (BetaD delta_a delta_b) (vlen delta_a).

(** [norm.rvs(loc, scale, size)] *)
Definition norm_rvs (loc scale : R) (size : nat) : Rand vector :=
  rvs (Normal loc scale) size.

(** [np.random.uniform(low, high)] and [np.random.uniform(low, high, size)] *)
Definition uniform (low high : R) : Rand R := rvs_scalar (Uniform low high).
Definition uniform_arr (low high : R) (size : nat) : Rand vector :=
  rvs (Uniform low high) size.

(** [np.random.randint(low, high)]; NumPy raises when [low >= high]. *)
Definition randint (low high : nat) : Rand R :=
  if (low <? high)%nat then rvs_scalar (RandInt low high) else lift None.

(** ** Densities with feature selection *)

(** [Asymmetric_Gassian_Distribution_pdf]: the two-branch mixture for every
    observation of one feature. *)
Definition Asymmetric_Gassian_Distribution_pdf
    (x_k : vector) (mu_jk s_ljk s_rjk mu_jk_irr s_ljk_irr s_rjk_irr rho : R)
  : option vector :=
  let y_k := vzeros (vlen x_k) in
  ofor (vlen x_k) (fun i y_k =>
    xik <-? vget x_k i ;;
    y0 <-? vget y_k i ;;
    y_k <-? vset y_k i
      (if Rlt_dec xik mu_jk then
         y0 + rho * sqrt (2 / PI) / (Rpower s_ljk (-0.5) + Rpower s_rjk (-0.5))
              * exp (- 0.5 * s_ljk * (xik - mu_jk) ^ 2)
       else
         y0 + rho * sqrt (2 / PI) / (Rpower s_ljk (-0.5) + Rpower s_rjk (-0.5))
              * exp (- 0.5 * s_rjk * (xik - mu_jk) ^ 2)) ;;
    y1 <-? vget y_k i ;;
    vset y_k i
      (if Rlt_dec xik mu_jk_irr then
         y1 + (1 - rho) * sqrt (2 / PI)
              / (Rpower s_ljk_irr (-0.5) + Rpower s_rjk_irr (-0.5))
              * exp (- 0.5 * s_ljk_irr * (xik - mu_jk_irr) ^ 2)
       else
         y1 + (1 - rho) * sqrt (2 / PI)
              / (Rpower s_ljk_irr (-0.5) + Rpower s_rjk_irr (-0.5))
              * exp (- 0.5 * s_rjk_irr * (xik - mu_jk_irr) ^ 2))) y_k.

(** [AGD_pdf_feature_selction] *)
Definition AGD_pdf_feature_selction (x : vector) (j D : nat)
    (rho mu s_l s_r mu_irr s_l_irr s_r_irr : mat) : option R :=
  ofor D (fun k y =>
    rho_jk <-? mget rho j k ;;
    x_k <-? vget x k ;;
    mu_jk <-? mget mu j k ;;
    s_ljk <-? mget s_l j k ;;
    s_rjk <-? mget s_r j k ;;
    mu_jk_irr <-? mget mu_irr j k ;;
    s_ljk_irr <-? mget s_l_irr j k ;;
    s_rjk_irr <-? mget s_r_irr j k ;;
    Some (y * (rho_jk * AGD_pdf x_k mu_jk s_ljk s_rjk
               + (1 - rho_jk) * AGD_pdf x_k mu_jk_irr s_ljk_irr s_rjk_irr))) 1.

(** ** Metropolis-Hastings samplers *)

(** [compare_mu_jk] *)
Definition compare_mu_jk (mu_jk previous_mu_jk s_ljk s_rjk : R)
    (r lam : vector) (z : ten) (j k : nat) (X : mat) : Rand R :=
  compared_log_likelihood <-
    lift (ofor (mrows X) (fun i acc =>
            x_i <-? mrow X i ;;
            z_ijk <-? tget z i j k ;;
            x_ik <-? vget x_i k ;;
            Some (acc + z_ijk * (ln (AGD_pdf x_ik mu_jk s_ljk s_rjk)
                                 - ln (AGD_pdf x_ik previous_mu_jk s_ljk s_rjk)))) 0) ;;
  let likelihood_ratio := exp compared_log_likelihood in
  lam_k <- lift (vget lam k) ;;
  r_k <- lift (vget r k) ;;
  d1 <- draw_normal lam_k (1 / r_k) ;;
  p1 <- lift (vget d1 0) ;;
  lam_k' <- lift (vget lam k) ;;
  r_k' <- lift (vget r k) ;;
  d2 <- draw_normal lam_k' (1 / r_k') ;;
  p2 <- lift (vget d2 0) ;;
  let prior := p1 / p2 in
  ret (likelihood_ratio * prior).

(** [compare_s_ljk] *)
Definition compare_s_ljk (s_ljk previous_s_ljk mu_jk s_rjk : R)
    (beta w : vector) (z : ten) (j k : nat) (X : mat) : Rand R :=
  compared_log_likelihood <-
    lift (ofor (mrows X) (fun i acc =>
            x_i <-? mrow X i ;;
            z_ijk <-? tget z i j k ;;
            x_ik <-? vget x_i k ;;
            Some (acc + z_ijk * (ln (AGD_pdf x_ik mu_jk s_ljk s_rjk)
                                 - ln (AGD_pdf x_ik mu_jk previous_s_ljk s_rjk)))) 0) ;;
  let likelihood_ratio := exp compared_log_likelihood in
  beta_k <- lift (vget beta k) ;;
  w_k <- lift (vget w k) ;;
  d1 <- draw_gamma (beta_k / 2) (2 / (beta_k * w_k)) ;;
  p1 <- lift (vget d1 0) ;;
  beta_k' <- lift (vget beta k) ;;
  w_k' <- lift (vget w k) ;;
  d2 <- draw_gamma (beta_k' / 2) (2 / (beta_k' * w_k')) ;;
  p2 <- lift (vget d2 0) ;;
  let prior := p1 / p2 in
  ret (likelihood_ratio * prior).

(** [compare_s_rjk] *)
Definition compare_s_rjk (s_rjk previous_s_rjk mu_jk s_ljk : R)
    (beta w : vector) (z : ten) (j k : nat) (X : mat) : Rand R :=
  compared_log_likelihood <-
    lift (ofor (mrows X) (fun i acc =>
            x_i <-? mrow X i ;;
            z_ijk <-? tget z i j k ;;
            x_ik <-? vget x_i k ;;
            Some (acc + z_ijk * (ln (AGD_pdf x_ik mu_jk s_ljk s_rjk)
                                 - ln (AGD_pdf x_ik mu_jk s_ljk previous_s_rjk)))) 0) ;;
  let likelihood_ratio := exp compared_log_likelihood in
  beta_k <- lift (vget beta k) ;;
  w_k <- lift (vget w k) ;;
  d1 <- draw_gamma (beta_k / 2) (2 / (beta_k * w_k)) ;;
  p1 <- lift (vget d1 0) ;;
  beta_k' <- lift (vget beta k) ;;
  w_k' <- lift (vget w k) ;;
  d2 <- draw_gamma (beta_k' / 2) (2 / (beta_k' * w_k')) ;;
  p2 <- lift (vget d2 0) ;;
  let prior := p1 / p2 in
  ret (likelihood_ratio * prior).

Section Special.

(** [scipy.special.gammaln], the logarithm of the Gamma function, is a
    library function outside the module. *)
Variable gammaln : R -> R.

(** [compare_delta_a] *)
Definition compare_delta_a (delta_a previous_delta_a delta_b : R)
    (rho : mat) (k M : nat) : Rand R :=
  let compared_log_likelihood :=
    INR M * (gammaln (delta_a + delta_b) - gammaln delta_a
             - gammaln (previous_delta_a + delta_b)
             + gammaln previous_delta_a) in
  compared_log_likelihood <-
    lift (ofor M (fun j acc =>
            rho_jk <-? mget rho j k ;;
            Some (acc + (delta_a - previous_delta_a) * ln rho_jk))
          compared_log_likelihood) ;;
  let likelihood_ratio := exp compared_log_likelihood in
  d1 <- draw_gamma 2 0.5 ;;
  p1 <- lift (vget d1 0) ;;
  d2 <- draw_gamma 2 0.5 ;;
  p2 <- lift (vget d2 0) ;;
  let prior := p1 / p2 in
  ret (likelihood_ratio * prior).

(** [compare_delta_b] *)
Definition compare_delta_b (delta_b previous_delta_b delta_a : R)
    (rho : mat) (k M : nat) : Rand R :=
  let compared_log_likelihood :=
    INR M * (gammaln (delta_a + delta_b) - gammaln delta_b
             - gammaln (delta_a + previous_delta_b)
             + gammaln previous_delta_b) in
  compared_log_likelihood <-
    lift (ofor M (fun j acc =>
            rho_jk <-? mget rho j k ;;
            Some (acc + (delta_b - previous_delta_b) * ln (1 - rho_jk)))
          compared_log_likelihood) ;;
  let likelihood_ratio := exp compared_log_likelihood in
  d1 <- draw_gamma 2 0.5 ;;
  p1 <- lift (vget d1 0) ;;
  d2 <- draw_gamma 2 0.5 ;;
  p2 <- lift (vget d2 0) ;;
  let prior := p1 / p2 in
  ret (likelihood_ratio * prior).

End Special.

(** Python's [min([a, b])]: the first of the smallest elements. *)
Definition py_min2 (a b : R) : R := if Rlt_dec b a then b else a.

(** [l[-1]] on a Python list *)
Definition py_last (l : list R) : option R :=
  match l with [] => None | _ :: _ => Some (last l 0) end.

(** The acceptance probability
    [alpha = min([1., compare_mu_jk(candidate, x, ...)])] *)
Definition alpha_mu_jk (candidate x : R) (s_ljk s_rjk : R) (r lam : vector)
    (z : ten) (j k : nat) (X : mat)
  : Rand R :=
  ratio <- compare_mu_jk candidate x s_ljk s_rjk r lam z j k X ;;
  ret (py_min2 1 ratio).

(** The body of the loop of [MH_Sampling_posterior_mu_jk] on the state
    [(x, vec)] *)
Definition MH_body_mu_jk (s_ljk s_rjk : R) (r lam : vector) (z : ten)
    (j k : nat) (X : mat)
    (st : R * list R) : Rand (R * list R) :=
  let '(x, vec) := st in
  c <- norm_rvs x 0.75 1 ;;
  candidate <- lift (vget c 0) ;;
  alpha <- alpha_mu_jk candidate x s_ljk s_rjk r lam z j k X ;;
  u <- uniform 0 1 ;;
  if Rlt_dec u alpha then
    let x := candidate in ret (x, vec ++ [x])
  else ret (x, vec).

(** [MH_Sampling_posterior_mu_jk] *)
Definition MH_Sampling_posterior_mu_jk (mu_jk s_ljk s_rjk : R)
    (r lam : vector) (z : ten) (j k : nat) (X : mat)
  : Rand R :=
  let n := 750%nat in
  let x := mu_jk in
  let vec := [] ++ [x] in
  st <- rfor n (fun _ => MH_body_mu_jk s_ljk s_rjk r lam z j k X) (x, vec) ;;
  lift (py_last (snd st)).

(** The acceptance probability
    [alpha = min([1., compare_s_ljk(candidate, x, ...)])] *)
Definition alpha_sljk (candidate x : R) (mu_jk s_rjk : R) (beta w : vector)
    (z : ten) (j k : nat) (X : mat)
  : Rand R :=
  ratio <- compare_s_ljk candidate x mu_jk s_rjk beta w z j k X ;;
  ret (py_min2 1 ratio).

(** The body of the loop of [MH_Sampling_posterior_sljk] on the state
    [(x, vec)] *)
Definition MH_body_sljk (mu_jk s_rjk : R) (beta w : vector) (z : ten)
    (j k : nat) (X : mat)
    (st : R * list R) : Rand (R * list R) :=
  let '(x, vec) := st in
  c <- norm_rvs x 0.75 1 ;;
  candidate <- lift (vget c 0) ;;
  let candidate := if Rle_dec candidate 0 then Rabs candidate else candidate in
  alpha <- alpha_sljk candidate x mu_jk s_rjk beta w z j k X ;;
  u <- uniform 0 1 ;;
  if Rlt_dec u alpha then
    let x := candidate in ret (x, vec ++ [x])
  else ret (x, vec).

(** [MH_Sampling_posterior_sljk] *)
Definition MH_Sampling_posterior_sljk (mu_jk s_ljk s_rjk : R)
    (beta w : vector) (z : ten) (j k : nat) (X : mat)
  : Rand R :=
  let n := 750%nat in
  let x := s_ljk in
  let vec := [] ++ [x] in
  st <- rfor n (fun _ => MH_body_sljk mu_jk s_rjk beta w z j k X) (x, vec) ;;
  lift (py_last (snd st)).

(** The acceptance probability
    [alpha = min([1., compare_s_rjk(candidate, x, ...)])] *)
Definition alpha_srjk (candidate x : R) (mu_jk s_ljk : R) (beta w : vector)
    (z : ten) (j k : nat) (X : mat)
  : Rand R :=
  ratio <- compare_s_rjk candidate x mu_jk s_ljk beta w z j k X ;;
  ret (py_min2 1 ratio).

(** The body of the loop of [MH_Sampling_posterior_srjk] on the state
    [(x, vec)] *)
Definition MH_body_srjk (mu_jk s_ljk : R) (beta w : vector) (z : ten)
    (j k : nat) (X : mat)
    (st : R * list R) : Rand (R * list R) :=
  let '(x, vec) := st in
  c <- norm_rvs x 0.75 1 ;;
  candidate <- lift (vget c 0) ;;
  if Rle_dec candidate 0 then ret (x, vec) else
  (alpha <- alpha_srjk candidate x mu_jk s_ljk beta w z j k X ;;
   u <- uniform 0 1 ;;
   if Rlt_dec u alpha then
     let x := candidate in ret (x, vec ++ [x])
   else ret (x, vec)).

(** [MH_Sampling_posterior_srjk] *)
Definition MH_Sampling_posterior_srjk (mu_jk s_ljk s_rjk : R)
    (beta w : vector) (z : ten) (j k : nat) (X : mat)
  : Rand R :=
  let n := 750%nat in
  let x := s_rjk in
  let vec := [] ++ [x] in
  st <- rfor n (fun _ => MH_body_srjk mu_jk s_ljk beta w z j k X) (x, vec) ;;
  lift (py_last (snd st)).

Section SpecialSamplers.

Variable gammaln : R -> R.

(** The acceptance probability
    [alpha = min([1., compare_delta_a(candidate, x, ...)])] *)
Definition alpha_delta_a (candidate x : R) (delta_b : R) (rho : mat)
    (k M : nat)
  : Rand R :=
  ratio <- compare_delta_a gammaln candidate x delta_b rho k M ;;
  ret (py_min2 1 ratio).

(** The body of the loop of [MH_Sampling_posterior_delta_a] on the state
    [(x, vec)] *)
Definition MH_body_delta_a (delta_b : R) (rho : mat) (k M : nat)
    (st : R * list R) : Rand (R * list R) :=
  let '(x, vec) := st in
  c <- norm_rvs x 0.75 1 ;;
  candidate <- lift (vget c 0) ;;
  if Rle_dec candidate 0 then ret (x, vec) else
  (alpha <- alpha_delta_a candidate x delta_b rho k M ;;
   u <- uniform 0 1 ;;
   if Rlt_dec u alpha then
     let x := candidate in ret (x, vec ++ [x])
   else ret (x, vec)).

(** [MH_Sampling_posterior_delta_a] *)
Definition MH_Sampling_posterior_delta_a (delta_a delta_b : R) (rho : mat)
    (k M : nat)
  : Rand R :=
  let n := 750%nat in
  let x := delta_a in
  let vec := [] ++ [x] in
  st <- rfor n (fun _ => MH_body_delta_a delta_b rho k M) (x, vec) ;;
  lift (py_last (snd st)).

(** The acceptance probability
    [alpha = min([1., compare_delta_b(candidate, x, ...)])] *)
Definition alpha_delta_b (candidate x : R) (delta_a : R) (rho : mat)
    (k M : nat)
  : Rand R :=
  ratio <- compare_delta_b gammaln candidate x delta_a rho k M ;;
  ret (py_min2 1 ratio).

(** The body of the loop of [MH_Sampling_posterior_delta_b] on the state
    [(x, vec)] *)
Definition MH_body_delta_b (delta_a : R) (rho : mat) (k M : nat)
    (st : R * list R) : Rand (R * list R) :=
  let '(x, vec) := st in
  c <- norm_rvs x 0.75 1 ;;
  candidate <- lift (vget c 0) ;;
  if Rle_dec candidate 0 then ret (x, vec) else
  (alpha <- alpha_delta_b candidate x delta_a rho k M ;;
   u <- uniform 0 1 ;;
   if Rlt_dec u alpha then
     let x := candidate in ret (x, vec ++ [x])
   else ret (x, vec)).

(** [MH_Sampling_posterior_delta_b] *)
Definition MH_Sampling_posterior_delta_b (delta_a delta_b : R) (rho : mat)
    (k M : nat)
  : Rand R :=
  let n := 750%nat in
  let x := delta_b in
  let vec := [] ++ [x] in
  st <- rfor n (fun _ => MH_body_delta_b delta_a rho k M) (x, vec) ;;
  lift (py_last (snd st)).

End SpecialSamplers.

(** ** Monte Carlo integral approximation *)

(** The body of the loop of [integral_approx] on the accumulator [temp]:
    one draw of all parameters from their priors and the product over the
    features of the batch mixture density. *)
Definition integral_approx_body (X : mat)
    (lam r beta_l beta_r w_l w_r delta_a delta_b : vector) (temp : vector)
  : Rand vector :=
  let D := mcols X in
  mu <- draw_MVNormal lam (vmap (fun x => 1 / x) r) ;;
  s_l <- rcomp D (fun k =>
           b <- lift (vget beta_l k) ;; w <- lift (vget w_l k) ;;
           g <- draw_gamma (b / 2) (2 / (b * w)) ;; lift (vget g 0)) ;;
  s_r <- rcomp D (fun k =>
           b <- lift (vget beta_r k) ;; w <- lift (vget w_r k) ;;
           g <- draw_gamma (b / 2) (2 / (b * w)) ;; lift (vget g 0)) ;;
  mu_irr <- draw_MVNormal lam (vmap (fun x => 1 / x) r) ;;
  s_l_irr <- rcomp D (fun k =>
           b <- lift (vget beta_l k) ;; w <- lift (vget w_l k) ;;
           g <- draw_gamma (b / 2) (2 / (b * w)) ;; lift (vget g 0)) ;;
  s_r_irr <- rcomp D (fun k =>
           b <- lift (vget beta_r k) ;; w <- lift (vget w_r k) ;;
           g <- draw_gamma (b / 2) (2 / (b * w)) ;; lift (vget g 0)) ;;
  rho <- draw_Beta_dist delta_a delta_b ;;
  let ini := vones (mrows X) in
  ini <- lift (ofor D (fun k ini =>
           x_k <-? mcol X k ;;
           mu_k <-? nd_index mu k ;;
           s_lk <-? vget s_l k ;;
           s_rk <-? vget s_r k ;;
           mu_irr_k <-? nd_index mu_irr k ;;
           s_l_irr_k <-? vget s_l_irr k ;;
           s_r_irr_k <-? vget s_r_irr k ;;
           rho_k <-? vget rho k ;;
           temp_para <-? Asymmetric_Gassian_Distribution_pdf
                           x_k mu_k s_lk s_rk mu_irr_k s_l_irr_k s_r_irr_k
                           rho_k ;;
           vzip Rmult ini temp_para) ini) ;;
  lift (vzip Rplus temp ini).

(** [integral_approx]; the [while i < size] loop with its counter [i]
    stepping by one is the counted loop over [range(size)]. *)
Definition integral_approx (X : mat)
    (lam r beta_l beta_r w_l w_r delta_a delta_b : vector) (size : nat)
  : Rand vector :=
  let temp := vzeros (mrows X) in
  temp <- rfor size
            (fun _ => integral_approx_body X lam r beta_l beta_r w_l w_r
                        delta_a delta_b) temp ;;
  ret (vmap (fun t => t / INR size) temp).

(** ** Latent indicators *)

(** [np.cumsum] *)
Fixpoint cumsum_at (f : nat -> R) (i : nat) : R :=
  match i with
  | O => f O
  | S i' => cumsum_at f i' + f i
  end.

Definition cumsum (v : vector) : vector :=
  mkvec (vlen v) (cumsum_at (vdat v)).

(** [v[-1]] on an array *)
Definition vlast (v : vector) : option R :=
  if (vlen v =? 0)%nat then None else Some (vdat v (vlen v - 1)).

(** [next(i for i, v in enumerate(r) if v)]: the first index carrying
    [True], [None] for [StopIteration]. *)
Fixpoint first_true_from (r : nat -> bool) (start count : nat) : option nat :=
  match count with
  | O => None
  | S c => if r start then Some start else first_true_from r (S start) c
  end.

(** [draw_indicator] *)
Definition draw_indicator (pvec : mat) : Rand vector :=
  let res := vzeros (mcols pvec) in
  rfor (mcols pvec) (fun j res =>
    col <- lift (mcol pvec j) ;;
    let c := cumsum col in
    c_last <- lift (vlast c) ;;
    R_ <- uniform_arr 0 c_last 1 ;;
    R0 <- lift (vget R_ 0) ;;
    let r := fun i => if Rgt_dec (vdat c i - R0) 0 then true else false in
    match first_true_from r 0 (vlen c) with
    | Some i => lift (vset res j (INR i))
    | None =>
        t <- randint 0 (mrows pvec) ;;
        lift (vset res j t)
    end) res.

(** [draw_posterior_z] *)
Definition draw_posterior_z (X : mat) (pi : vector)
    (rho mu s_l s_r mu_irr s_l_irr s_r_irr : mat) (N M D : nat) : option ten :=
  let Z_ij_posteriors := mzeros N M in
  let posterior_z := tzeros N M D in
  Z_ij_posteriors <-?
    ofor N (fun i Z_ij_posteriors =>
      ofor M (fun j Z_ij_posteriors =>
        pi_j <-? vget pi j ;;
        x_i <-? mrow X i ;;
        a <-? AGD_pdf_feature_selction x_i j D rho mu s_l s_r
                mu_irr s_l_irr s_r_irr ;;
        mset_row Z_ij_posteriors i (pi_j * a)) Z_ij_posteriors)
      Z_ij_posteriors ;;
  ofor N (fun i posterior_z =>
    ofor M (fun j posterior_z =>
      ofor D (fun k posterior_z =>
        rho_jk <-? mget rho j k ;;
        x_ik <-? mget X i k ;;
        mu_jk <-? mget mu j k ;;
        s_ljk <-? mget s_l j k ;;
        s_rjk <-? mget s_r j k ;;
        z_ij <-? mget Z_ij_posteriors i j ;;
        tset posterior_z i j k
          (rho_jk * AGD_pdf x_ik mu_jk s_ljk s_rjk * z_ij)) posterior_z)
      posterior_z) posterior_z.

(** ** Specification-level notions *)

(** Finite sums and products over [0 .. n-1]. *)
Fixpoint sum_upto (n : nat) (f : nat -> R) : R :=
  match n with
  | O => 0
  | S n' => sum_upto n' f + f n'
  end.

Fixpoint prod_upto (n : nat) (f : nat -> R) : R :=
  match n with
  | O => 1
  | S n' => prod_upto n' f * f n'
  end.

(** The invalid-candidate policies of the specification's table. *)
Inductive policy : Type :=
| Unconstrained
| ReflectNonPositive
| SkipNonPositive.

(** What a policy makes of a proposal: the candidate that goes on to the
    acceptance test, or [None] when the iteration is skipped. *)
Definition effective_candidate (pol : policy) (c : R) : option R :=
  match pol with
  | Unconstrained => Some c
  | ReflectNonPositive => Some (if Rle_dec c 0 then Rabs c else c)
  | SkipNonPositive => if Rle_dec c 0 then None else Some c
  end.

(** One iteration of the specification's state machine, from the current
    value [x] with the source at call [n]: it proposes
    [Normal(x, 0.75)], applies the policy, and either moves to an accepted
    candidate ([Some c]) or keeps [x] ([None]). *)
Inductive mh_iter (pol : policy) (cmp : R -> R -> Rand R) (src : source)
    (x : R) (n : nat) : option R -> nat -> Prop :=
| iter_skip :
    effective_candidate pol (src n (Normal x 0.75) 0%nat) = None ->
    mh_iter pol cmp src x n None (S n)
| iter_accept c ratio n1 :
    effective_candidate pol (src n (Normal x 0.75) 0%nat) = Some c ->
    cmp c x src (S n) = Some (ratio, n1) ->
    src n1 (Uniform 0 1) 0%nat < Rmin 1 ratio ->
    mh_iter pol cmp src x n (Some c) (S n1)
| iter_reject c ratio n1 :
    effective_candidate pol (src n (Normal x 0.75) 0%nat) = Some c ->
    cmp c x src (S n) = Some (ratio, n1) ->
    ~ src n1 (Uniform 0 1) 0%nat < Rmin 1 ratio ->
    mh_iter pol cmp src x n None (S n1).

(** [mh_run pol cmp src t x n acc x' n']: [t] iterations from the value [x]
    at call [n] accept the candidates [acc], in this order, and end with
    the value [x'] at call [n']. *)
Inductive mh_run (pol : policy) (cmp : R -> R -> Rand R) (src : source)
  : nat -> R -> nat -> list R -> R -> nat -> Prop :=
| run_done x n : mh_run pol cmp src 0 x n [] x n
| run_keep t x n n1 acc x' n' :
    mh_iter pol cmp src x n None n1 ->
    mh_run pol cmp src t x n1 acc x' n' ->
    mh_run pol cmp src (S t) x n acc x' n'
| run_move t x n c n1 acc x' n' :
    mh_iter pol cmp src x n (Some c) n1 ->
    mh_run pol cmp src t c n1 acc x' n' ->
    mh_run pol cmp src (S t) x n (c :: acc) x' n'.

(** The one generic loop body the five samplers are instances of. *)
Definition mh_body (pol : policy) (cmp : R -> R -> Rand R)
    (st : R * list R) : Rand (R * list R) :=
  let '(x, vec) := st in
  fun src n =>
    match effective_candidate pol (src n (Normal x 0.75) 0%nat) with
    | None => Some ((x, vec), S n)
    | Some c =>
        match cmp c x src (S n) with
        | None => None
        | Some (ratio, n1) =>
            if Rlt_dec (src n1 (Uniform 0 1) 0%nat) (py_min2 1 ratio)
            then Some ((c, vec ++ [c]), S n1)
            else Some ((x, vec), S n1)
        end
    end.

(** The responsibility-weighted sum of log-density differences over the
    observations, for the densities [p_new] and [p_old] of feature [k]. *)
Definition log_ratio_sum (z : ten) (j k : nat) (X : mat)
    (p_new p_old : R -> R) : R :=
  sum_upto (mrows X)
    (fun i => tdat z i j k * (ln (p_new (mdat X i k)) - ln (p_old (mdat X i k)))).

(** The dataset has feature [k], and [z] has an entry [(i, j, k)] for each
    of its observations. *)
Definition data_in_shape (z : ten) (j k : nat) (X : mat) : Prop :=
  (k < mcols X)%nat /\ (mrows X <= td0 z)%nat /\ (j < td1 z)%nat
  /\ (k < td2 z)%nat.

(** [rho] has an entry [(j, k)] for each of the [M] components. *)
Definition rho_in_shape (rho : mat) (k M : nat) : Prop :=
  (M <= mrows rho)%nat /\ (k < mcols rho)%nat.

(** The quotient of the draws of two successive calls, [n] and [n + 1],
    both asking for the distribution [d]. *)
Definition prior_quotient (src : source) (n : nat) (d : dist) : R :=
  src n d 0%nat / src (S n) d 0%nat.

(** The priors the comparison functions draw from. *)
Definition prior_mu (lam r : vector) (k : nat) : dist :=
  Normal (vdat lam k) (1 / vdat r k).
Definition prior_s (beta w : vector) (k : nat) : dist :=
  Gamma (vdat beta k / 2) (2 / (vdat beta k * vdat w k)).
Definition prior_delta : dist := Gamma 2 0.5.

(** The logarithm of the ratio of [M] Beta densities at the values whose
    logarithms are [logs], when the shape [a_prev] is replaced by [a] and
    the other shape [b] is kept, as the specification writes it. *)
Definition beta_log_ratio (lgamma : R -> R) (M : nat) (a a_prev b : R)
    (logs : nat -> R) : R :=
  INR M * (lgamma (a + b) - lgamma a - lgamma (a_prev + b) + lgamma a_prev)
  + sum_upto M (fun j => (a - a_prev) * logs j).

(** A source whose Gamma variates lie in the support of the distribution. *)
Definition gamma_support (src : source) : Prop :=
  forall n a theta c, 0 < src n (Gamma a theta) c.

(** *** Small concrete inputs *)

(** One observation of one feature, one component. *)
Definition ex_X : mat := mkmat 1 1 (fun _ _ => 0).
Definition ex_z : ten := mkten 1 1 1 (fun _ _ _ => 1).
Definition ex_rho : mat := mkmat 1 1 (fun _ _ => / 2).
Definition ex_vec (x : R) : vector := mkvec 1 (fun _ => x).

(** The source whose draws are all [1]. *)
Definition src_ones : source := fun _ _ _ => 1.

(** A source whose first call returns [0] and whose next two calls return
    variates of opposite signs. *)
Definition src_opposite : source :=
  fun n _ _ => match n with O => 0 | S O => -1 | _ => 1 end.

(** What the specification asks of a sampler with loop body [body]: from
    the start value [x0] it makes exactly 750 iterations of the state
    machine, its trace is [x0] followed by the accepted candidates, and it
    returns the last element of the trace. *)
Definition mh_sampler_spec (pol : policy) (cmp : R -> R -> Rand R)
    (body : R * list R -> Rand (R * list R)) (sampler : Rand R)
    (x0 : R) (src : source) (n : nat) : Prop :=
  exists acc v n',
    mh_run pol cmp src 750 x0 n acc v n'
    /\ rfor 750 (fun _ => body) (x0, [x0]) src n = Some ((v, x0 :: acc), n')
    /\ sampler src n = Some (v, n')
    /\ v = last (x0 :: acc) x0
    /\ (acc = [] -> v = x0).

(** A comparison function that never raises on the source [src]. *)
Definition cmp_total (cmp : R -> R -> Rand R) (src : source) : Prop :=
  forall c x n, exists ratio n', cmp c x src n = Some (ratio, n').

(** A dataset without observations, and a source whose first Normal
    variate is exactly [0], whose later Normal variates are the location
    asked for, whose Gamma variates are [1] and whose uniform variates are
    [0]. *)
Definition ex_X0 : mat := mkmat 0 1 (fun _ _ => 0).
Definition ex_z0 : ten := mkten 0 1 1 (fun _ _ _ => 0).
Definition src_zero_proposal : source :=
  fun n d _ =>
    match d with
    | Normal loc _ => match n with O => 0 | S _ => loc end
    | Uniform _ _ => 0
    | _ => 1
    end.

(** No proposal of the run is exactly zero. *)
Definition proposals_nonzero (src : source) : Prop :=
  forall m y, src m (Normal y 0.75) 0%nat <> 0.

(** The two-branch mixture density of one feature value. *)
Definition mixture_density (x rho mu s_l s_r mu_irr s_l_irr s_r_irr : R) : R :=
  rho * AGD_pdf x mu s_l s_r + (1 - rho) * AGD_pdf x mu_irr s_l_irr s_r_irr.

(** The product over the features of the mixture densities of observation
    [i] under component [j]. *)
Definition feature_selection_density (X : mat) (i j D : nat)
    (rho mu s_l s_r mu_irr s_l_irr s_r_irr : mat) : R :=
  prod_upto D (fun k =>
    mixture_density (mdat X i k) (mdat rho j k) (mdat mu j k) (mdat s_l j k)
      (mdat s_r j k) (mdat mu_irr j k) (mdat s_l_irr j k) (mdat s_r_irr j k)).

(** The unnormalised cluster-membership weight of observation [i] for
    component [j]. *)
Definition cluster_weight (X : mat) (pi : vector)
    (rho mu s_l s_r mu_irr s_l_irr s_r_irr : mat) (D i j : nat) : R :=
  vdat pi j
  * feature_selection_density X i j D rho mu s_l s_r mu_irr s_l_irr s_r_irr.

(** A parameter matrix with an entry for each of [M] components and [D]
    features. *)
Definition params_in_shape (M D : nat) (m : mat) : Prop :=
  (M <= mrows m)%nat /\ (D <= mcols m)%nat.

(** One observation at the split point, two components of mixing
    weights 1 and 2, one feature that is relevant with probability 1. *)
Definition ex_pi2 : vector := mkvec 2 (fun j => match j with O => 1 | _ => 2 end).
Definition ex_const2 (x : R) : mat := mkmat 2 1 (fun _ _ => x).

(** The cluster weight of the single observation for component [j] in
    this example. *)
Definition ex_weight (j : nat) : R :=
  cluster_weight ex_X ex_pi2 (ex_const2 1) (ex_const2 0) (ex_const2 1)
    (ex_const2 1) (ex_const2 0) (ex_const2 1) (ex_const2 1) 1 0 j.

(** The cumulative weight of rows [0 .. i] of column [j], as a finite
    sum. *)
Definition partial_weight (pvec : mat) (j i : nat) : R :=
  sum_upto (S i) (fun t => mdat pvec t j).

(** What the specification asks of entry [j] of [draw_indicator], when the
    column is processed with the source at call [m]: with [c] the
    cumulative sums of the column and [R] a draw from
    [Uniform(0, c[last])], the entry is the first row index at which
    [c - R > 0]; when there is none, it is a draw from the uniform
    distribution over the row indices. *)
Definition indicator_entry (pvec : mat) (src : source) (j m : nat) (v : R)
  : Prop :=
  let c := partial_weight pvec j in
  let R_ := src m (Uniform 0 (c (mrows pvec - 1)%nat)) 0%nat in
  (exists i, (i < mrows pvec)%nat /\ c i - R_ > 0
             /\ (forall i', (i' < i)%nat -> ~ c i' - R_ > 0)
             /\ v = INR i)
  \/ ((forall i, (i < mrows pvec)%nat -> ~ c i - R_ > 0)
      /\ v = src (S m) (RandInt 0 (mrows pvec)) 0%nat).

(** The Monte Carlo sample of observation [i] that one iteration of
    [integral_approx] computes when it starts with the source at call [m]:
    the calls are, in order, one for [mu], [D] for [s_l], [D] for [s_r], one
    for [mu_irr], [D] for [s_l_irr], [D] for [s_r_irr] and one for [rho]. *)
Definition mc_sample (X : mat)
    (lam r beta_l beta_r w_l w_r delta_a delta_b : vector)
    (src : source) (m i : nat) : R :=
  let D := mcols X in
  let cov := vmap (fun x => 1 / x) r in
  let c1 := S m in
  let c2 := (c1 + D)%nat in
  let c3 := (c2 + D)%nat in
  let c4 := S c3 in
  let c5 := (c4 + D)%nat in
  let c6 := (c5 + D)%nat in
  prod_upto D (fun k =>
    mixture_density (mdat X i k)
      (src c6 (BetaD delta_a delta_b) k)
      (src m (MVNormal lam cov) k)
      (src (c1 + k)%nat (prior_s beta_l w_l k) 0%nat)
      (src (c2 + k)%nat (prior_s beta_r w_r k) 0%nat)
      (src c3 (MVNormal lam cov) k)
      (src (c4 + k)%nat (prior_s beta_l w_l k) 0%nat)
      (src (c5 + k)%nat (prior_s beta_r w_r k) 0%nat)).

(** The number of calls to the source made by one iteration. *)
Definition calls_per_sample (X : mat) : nat := (4 * mcols X + 3)%nat.

(** The prior hyperparameters cover the [D] features of the dataset, and
    the prior mean has at least two entries, so that the draws of [mu] and
    [mu_irr] are arrays. *)
Definition priors_in_shape (X : mat)
    (lam beta_l beta_r w_l w_r delta_a : vector) : Prop :=
  (2 <= vlen lam)%nat
  /\ (mcols X <= vlen lam)%nat
  /\ (mcols X <= vlen beta_l)%nat /\ (mcols X <= vlen beta_r)%nat
  /\ (mcols X <= vlen w_l)%nat /\ (mcols X <= vlen w_r)%nat
  /\ (mcols X <= vlen delta_a)%nat.

(** ** Log-densities handed to the adaptive rejection sampler *)

Section LogDensities.

(** [scipy.special.gammaln] and [scipy.special.psi] are library functions
    outside the module. *)
Variable gammaln psi : R -> R.

(** [log_p_alpha] *)
Definition log_p_alpha (alpha k N : R) : R :=
  (k - 1.5) * ln alpha - 0.5 / alpha + gammaln alpha - gammaln (N + alpha).

(** [log_p_alpha_prime] *)
Definition log_p_alpha_prime (alpha k N : R) : R :=
  (k - 1.5) / alpha + 0.5 / (alpha * alpha) + psi alpha - psi (alpha + N).

(** [log_p_beta] *)
Definition log_p_beta (beta M cumculative_sum_equation : R) : R :=
  -2 * M * gammaln (beta / 2)
  - 0.5 / beta
  + (beta * M - 1.5) * ln (beta / 2)
  + 0.5 * beta * cumculative_sum_equation.

(** [log_p_beta_prime] *)
Definition log_p_beta_prime (beta M cumculative_sum_equation : R) : R :=
  -2 * M * psi (0.5 * beta)
  + 0.5 / beta ^ 2
  + M * ln (0.5 * beta)
  + (2 * M * beta - 3) / beta
  + 0.5 * cumculative_sum_equation.

End LogDensities.

(** A comparison function that makes exactly two calls to the source. *)
Definition cmp_two_calls (cmp : R -> R -> Rand R) (src : source) : Prop :=
  forall c x n ratio n', cmp c x src n = Some (ratio, n') -> n' = S (S n).

(** Variates of [Uniform(low, high)] lie in [[low, high)], and are [low]
    when the interval is empty. *)
Definition uniform_support (src : source) : Prop :=
  forall m low high,
    low <= src m (Uniform low high) 0%nat
    /\ (low < high -> src m (Uniform low high) 0%nat < high)
    /\ (low = high -> src m (Uniform low high) 0%nat = low).

(** Variates of a Beta distribution lie in [[0, 1]]. *)
Definition beta_support (src : source) : Prop :=
  forall m a b c, 0 <= src m (BetaD a b) c <= 1.

(** A source that proposes 0 for every Normal variate, and one whose
    variates are all [-1]. *)
Definition src_negative : source := fun _ _ _ => -1.
Definition src_half : source :=
  fun _ d _ => match d with Uniform low _ => low | _ => / 2 end.

(** The body of the loop of [draw_indicator], for column [j] and the
    result array [res]. *)
Definition draw_indicator_body (pvec : mat) (j : nat) (res : vector)
  : Rand vector :=
  col <- lift (mcol pvec j) ;;
  let c := cumsum col in
  c_last <- lift (vlast c) ;;
  R_ <- uniform_arr 0 c_last 1 ;;
  R0 <- lift (vget R_ 0) ;;
  let r := fun i => if Rgt_dec (vdat c i - R0) 0 then true else false in
  match first_true_from r 0 (vlen c) with
  | Some i => lift (vset res j (INR i))
  | None =>
      t <- randint 0 (mrows pvec) ;;
      lift (vset res j t)
  end.

(** The cumulative sums of column [j] of a weight matrix. *)
Definition column_cumsum (pvec : mat) (j : nat) : nat -> R :=
  cumsum_at (fun i => mdat pvec i j).

(** A dataset of one observation and two features, and vectors of length
    two. *)
Definition ex_X2 : mat := mkmat 1 2 (fun _ _ => 0).
Definition ex_vec2 (x : R) : vector := mkvec 2 (fun _ => x).

(** *** Properties of the density *)

Lemma Rpower_neg_half (s : R) : 0 < s -> Rpower s (-0.5) = / sqrt s.
Proof.
  intros Hs.
  replace (-0.5) with (- / 2) by lra.
  rewrite Rpower_Ropp, Rpower_sqrt; auto.
Qed.

Lemma AGD_norm_pos (s_l s_r : R) :
  0 < sqrt (2 / PI) / (Rpower s_l (-0.5) + Rpower s_r (-0.5)).
Proof.
  apply Rdiv_lt_0_compat.
  - apply sqrt_lt_R0. apply Rdiv_lt_0_compat; [lra | apply PI_RGT_0].
  - unfold Rpower. generalize (exp_pos (-0.5 * ln s_l)) (exp_pos (-0.5 * ln s_r)).
    lra.
Qed.

Lemma AGD_branch_pos (s x mu s_l s_r : R) : 0 < AGD_branch s x mu s_l s_r.
Proof.
  unfold AGD_branch. apply Rmult_lt_0_compat; [apply AGD_norm_pos | apply exp_pos].
Qed.

Lemma AGD_pdf_spec (x mu s_l s_r : R) :
  AGD_pdf x mu s_l s_r = AGD_spec x mu s_l s_r.
Proof.
  unfold AGD_pdf, AGD_spec, AGD_branch. destruct (Rlt_dec x mu); reflexivity.
Qed.

Lemma AGD_pdf_pos (x mu s_l s_r : R) : 0 < AGD_pdf x mu s_l s_r.
Proof. rewrite AGD_pdf_spec. apply AGD_branch_pos. Qed.

Lemma AGD_branch_at_mu (s mu s_l s_r : R) :
  AGD_branch s mu mu s_l s_r
  = sqrt (2 / PI) / (Rpower s_l (-0.5) + Rpower s_r (-0.5)).
Proof.
  unfold AGD_branch.
  replace (- 0.5 * s * (mu - mu) ^ 2) with 0 by ring.
  rewrite exp_0. ring.
Qed.














(** ** Array lookups inside the shape *)

Lemma vget_in (v : vector) (i : nat) :
  (i < vlen v)%nat -> vget v i = Some (vdat v i).
Proof.
  intros H. unfold vget. apply Nat.ltb_lt in H. now rewrite H.
Qed.

Lemma mget_in (m : mat) (i j : nat) :
  (i < mrows m)%nat -> (j < mcols m)%nat -> mget m i j = Some (mdat m i j).
Proof.
  intros Hi Hj. unfold mget.
  apply Nat.ltb_lt in Hi. apply Nat.ltb_lt in Hj. now rewrite Hi, Hj.
Qed.

Lemma mrow_in (m : mat) (i : nat) :
  (i < mrows m)%nat -> mrow m i = Some (mkvec (mcols m) (mdat m i)).
Proof.
  intros H. unfold mrow. apply Nat.ltb_lt in H. now rewrite H.
Qed.

Lemma mcol_in (m : mat) (k : nat) :
  (k < mcols m)%nat ->
  mcol m k = Some (mkvec (mrows m) (fun i => mdat m i k)).
Proof.
  intros H. unfold mcol. apply Nat.ltb_lt in H. now rewrite H.
Qed.

Lemma tget_in (t : ten) (i j k : nat) :
  (i < td0 t)%nat -> (j < td1 t)%nat -> (k < td2 t)%nat ->
  tget t i j k = Some (tdat t i j k).
Proof.
  intros Hi Hj Hk. unfold tget.
  apply Nat.ltb_lt in Hi. apply Nat.ltb_lt in Hj. apply Nat.ltb_lt in Hk.
  now rewrite Hi, Hj, Hk.
Qed.

(** ** Loops *)

Lemma ofor_from_snoc {S : Type} (body : nat -> S -> option S)
    (count start : nat) (s : S) :
  ofor_from start (Datatypes.S count) body s
  = obind (ofor_from start count body s) (body (start + count)%nat).
Proof.
  revert start s. induction count as [| c IH]; intros start s.
  - simpl. rewrite Nat.add_0_r. destruct (body start s); reflexivity.
  - change (ofor_from start (Datatypes.S (Datatypes.S c)) body s)
      with (obind (body start s)
              (ofor_from (Datatypes.S start) (Datatypes.S c) body)).
    change (ofor_from start (Datatypes.S c) body s)
      with (obind (body start s) (ofor_from (Datatypes.S start) c body)).
    destruct (body start s) as [s1 |]; simpl; [| reflexivity].
    rewrite <- Nat.add_succ_comm. apply IH.
Qed.

Lemma ofor_snoc {S : Type} (body : nat -> S -> option S) (n : nat) (s : S) :
  ofor (Datatypes.S n) body s = obind (ofor n body s) (body n).
Proof. unfold ofor. now rewrite ofor_from_snoc. Qed.

(** A loop whose body succeeds and re-establishes an invariant indexed by
    the number of iterations done runs to completion. *)
Lemma ofor_invariant {S : Type} (P : nat -> S -> Prop)
    (body : nat -> S -> option S) (n : nat) (s : S) :
  P 0%nat s ->
  (forall i st, (i < n)%nat -> P i st ->
     exists st', body i st = Some st' /\ P (Datatypes.S i) st') ->
  exists st', ofor n body s = Some st' /\ P n st'.
Proof.
  intros H0 Hstep. induction n as [| n IH].
  - exists s. split; [reflexivity | exact H0].
  - destruct IH as [st [Hst HP]].
    + intros i st Hi. apply Hstep. lia.
    + destruct (Hstep n st (Nat.lt_succ_diag_r n) HP) as [st' [Hb HP']].
      exists st'. split; [| exact HP'].
      rewrite ofor_snoc, Hst. exact Hb.
Qed.

Lemma ofor_invariant_post {S : Type} (P : nat -> S -> Prop) (Q : S -> Prop)
    (body : nat -> S -> option S) (n : nat) (s : S) :
  P 0%nat s ->
  (forall i st, (i < n)%nat -> P i st ->
     exists st', body i st = Some st' /\ P (Datatypes.S i) st') ->
  (forall st, P n st -> Q st) ->
  exists st', ofor n body s = Some st' /\ Q st'.
Proof.
  intros H0 Hstep Hpost.
  destruct (ofor_invariant P body n s H0 Hstep) as [st [Hst HP]].
  exists st. split; [exact Hst | now apply Hpost].
Qed.

Lemma ofor_sum (body : nat -> R -> option R) (f : nat -> R) (n : nat) (a : R) :
  (forall i acc, (i < n)%nat -> body i acc = Some (acc + f i)) ->
  ofor n body a = Some (a + sum_upto n f).
Proof.
  intros Hb.
  destruct (ofor_invariant (fun i acc => acc = a + sum_upto i f) body n a)
    as [r [Hr Hv]].
  - simpl. ring.
  - intros i st Hi ->. exists (a + sum_upto i f + f i). split.
    + now apply Hb.
    + simpl. ring.
  - now rewrite Hr, Hv.
Qed.

Lemma ofor_prod (body : nat -> R -> option R) (f : nat -> R) (n : nat) (a : R) :
  (forall i acc, (i < n)%nat -> body i acc = Some (acc * f i)) ->
  ofor n body a = Some (a * prod_upto n f).
Proof.
  intros Hb.
  destruct (ofor_invariant (fun i acc => acc = a * prod_upto i f) body n a)
    as [r [Hr Hv]].
  - simpl. ring.
  - intros i st Hi ->. exists (a * prod_upto i f * f i). split.
    + now apply Hb.
    + simpl. ring.
  - now rewrite Hr, Hv.
Qed.

Lemma rfor_from_snoc {S : Type} (body : nat -> S -> Rand S)
    (count start : nat) (s : S) (src : source) (n : nat) :
  rfor_from start (Datatypes.S count) body s src n
  = bind (rfor_from start count body s) (body (start + count)%nat) src n.
Proof.
  revert start s n. induction count as [| c IH]; intros start s n.
  - simpl. unfold bind, ret. rewrite Nat.add_0_r.
    destruct (body start s src n) as [[s1 n1] |]; reflexivity.
  - change (rfor_from start (Datatypes.S (Datatypes.S c)) body s src n)
      with (bind (body start s)
              (rfor_from (Datatypes.S start) (Datatypes.S c) body) src n).
    change (rfor_from start (Datatypes.S c) body s)
      with (bind (body start s) (rfor_from (Datatypes.S start) c body)).
    unfold bind.
    destruct (body start s src n) as [[s1 n1] |]; [| reflexivity].
    rewrite <- Nat.add_succ_comm. rewrite IH. reflexivity.
Qed.

Lemma rfor_snoc {S : Type} (body : nat -> S -> Rand S) (t : nat) (s : S)
    (src : source) (n : nat) :
  rfor (Datatypes.S t) body s src n = bind (rfor t body s) (body t) src n.
Proof. unfold rfor. now rewrite rfor_from_snoc. Qed.

Lemma rfor_invariant {S : Type} (P : nat -> S -> nat -> Prop)
    (body : nat -> S -> Rand S) (t : nat) (s : S) (src : source) (n : nat) :
  P 0%nat s n ->
  (forall i st m, (i < t)%nat -> P i st m ->
     exists st' m', body i st src m = Some (st', m') /\ P (Datatypes.S i) st' m') ->
  exists st' n', rfor t body s src n = Some (st', n') /\ P t st' n'.
Proof.
  intros H0 Hstep. induction t as [| t IH].
  - exists s, n. split; [reflexivity | exact H0].
  - destruct IH as [st [m [Hst HP]]].
    + intros i st m Hi. apply Hstep. lia.
    + destruct (Hstep t st m (Nat.lt_succ_diag_r t) HP) as [st' [m' [Hb HP']]].
      exists st', m'. split; [| exact HP'].
      rewrite rfor_snoc. unfold bind. rewrite Hst. exact Hb.
Qed.

(** ** The comparison functions, evaluated *)

Lemma weighted_loop_eval (z : ten) (j k : nat) (X : mat) (p_new p_old : R -> R) :
  data_in_shape z j k X ->
  ofor (mrows X) (fun i acc =>
    x_i <-? mrow X i ;;
    z_ijk <-? tget z i j k ;;
    x_ik <-? vget x_i k ;;
    Some (acc + z_ijk * (ln (p_new x_ik) - ln (p_old x_ik)))) 0
  = Some (log_ratio_sum z j k X p_new p_old).
Proof.
  intros (Hk & Hz0 & Hz1 & Hz2).
  erewrite ofor_sum with
    (f := fun i => tdat z i j k * (ln (p_new (mdat X i k)) - ln (p_old (mdat X i k)))).
  - unfold log_ratio_sum. f_equal. ring.
  - intros i acc Hi.
    rewrite mrow_in by exact Hi. simpl.
    rewrite tget_in by (try assumption; lia). simpl.
    rewrite vget_in by exact Hk. reflexivity.
Qed.

Lemma compare_mu_jk_eval (mu_jk previous_mu_jk s_ljk s_rjk : R)
    (r lam : vector) (z : ten) (j k : nat) (X : mat) (src : source) (n : nat) :
  data_in_shape z j k X -> (k < vlen lam)%nat -> (k < vlen r)%nat ->
  compare_mu_jk mu_jk previous_mu_jk s_ljk s_rjk r lam z j k X src n
  = Some (exp (log_ratio_sum z j k X
                 (fun x => AGD_pdf x mu_jk s_ljk s_rjk)
                 (fun x => AGD_pdf x previous_mu_jk s_ljk s_rjk))
          * (src n (Normal (vdat lam k) (1 / vdat r k)) 0%nat
             / src (S n) (Normal (vdat lam k) (1 / vdat r k)) 0%nat),
          S (S n)).
Proof.
  intros HX Hlam Hr. unfold compare_mu_jk.
  rewrite (weighted_loop_eval z j k X
             (fun x => AGD_pdf x mu_jk s_ljk s_rjk)
             (fun x => AGD_pdf x previous_mu_jk s_ljk s_rjk) HX).
  rewrite (vget_in lam k Hlam), (vget_in r k Hr).
  reflexivity.
Qed.

Lemma compare_s_ljk_eval (s_ljk previous_s_ljk mu_jk s_rjk : R)
    (beta w : vector) (z : ten) (j k : nat) (X : mat) (src : source) (n : nat) :
  data_in_shape z j k X -> (k < vlen beta)%nat -> (k < vlen w)%nat ->
  compare_s_ljk s_ljk previous_s_ljk mu_jk s_rjk beta w z j k X src n
  = Some (exp (log_ratio_sum z j k X
                 (fun x => AGD_pdf x mu_jk s_ljk s_rjk)
                 (fun x => AGD_pdf x mu_jk previous_s_ljk s_rjk))
          * (src n (Gamma (vdat beta k / 2) (2 / (vdat beta k * vdat w k))) 0%nat
             / src (S n) (Gamma (vdat beta k / 2) (2 / (vdat beta k * vdat w k)))
                 0%nat),
          S (S n)).
Proof.
  intros HX Hb Hw. unfold compare_s_ljk.
  rewrite (weighted_loop_eval z j k X
             (fun x => AGD_pdf x mu_jk s_ljk s_rjk)
             (fun x => AGD_pdf x mu_jk previous_s_ljk s_rjk) HX).
  rewrite (vget_in beta k Hb), (vget_in w k Hw).
  reflexivity.
Qed.

Lemma compare_s_rjk_eval (s_rjk previous_s_rjk mu_jk s_ljk : R)
    (beta w : vector) (z : ten) (j k : nat) (X : mat) (src : source) (n : nat) :
  data_in_shape z j k X -> (k < vlen beta)%nat -> (k < vlen w)%nat ->
  compare_s_rjk s_rjk previous_s_rjk mu_jk s_ljk beta w z j k X src n
  = Some (exp (log_ratio_sum z j k X
                 (fun x => AGD_pdf x mu_jk s_ljk s_rjk)
                 (fun x => AGD_pdf x mu_jk s_ljk previous_s_rjk))
          * (src n (Gamma (vdat beta k / 2) (2 / (vdat beta k * vdat w k))) 0%nat
             / src (S n) (Gamma (vdat beta k / 2) (2 / (vdat beta k * vdat w k)))
                 0%nat),
          S (S n)).
Proof.
  intros HX Hb Hw. unfold compare_s_rjk.
  rewrite (weighted_loop_eval z j k X
             (fun x => AGD_pdf x mu_jk s_ljk s_rjk)
             (fun x => AGD_pdf x mu_jk s_ljk previous_s_rjk) HX).
  rewrite (vget_in beta k Hb), (vget_in w k Hw).
  reflexivity.
Qed.

Lemma compare_delta_a_eval (gammaln : R -> R)
    (delta_a previous_delta_a delta_b : R) (rho : mat) (k M : nat)
    (src : source) (n : nat) :
  rho_in_shape rho k M ->
  compare_delta_a gammaln delta_a previous_delta_a delta_b rho k M src n
  = Some (exp (INR M * (gammaln (delta_a + delta_b) - gammaln delta_a
                        - gammaln (previous_delta_a + delta_b)
                        + gammaln previous_delta_a)
               + sum_upto M (fun j =>
                   (delta_a - previous_delta_a) * ln (mdat rho j k)))
          * (src n (Gamma 2 0.5) 0%nat / src (S n) (Gamma 2 0.5) 0%nat),
          S (S n)).
Proof.
  intros [HM Hk]. unfold compare_delta_a.
  erewrite ofor_sum with
    (f := fun j => (delta_a - previous_delta_a) * ln (mdat rho j k)).
  - reflexivity.
  - intros i acc Hi. rewrite mget_in by (try assumption; lia). reflexivity.
Qed.

Lemma compare_delta_b_eval (gammaln : R -> R)
    (delta_b previous_delta_b delta_a : R) (rho : mat) (k M : nat)
    (src : source) (n : nat) :
  rho_in_shape rho k M ->
  compare_delta_b gammaln delta_b previous_delta_b delta_a rho k M src n
  = Some (exp (INR M * (gammaln (delta_a + delta_b) - gammaln delta_b
                        - gammaln (delta_a + previous_delta_b)
                        + gammaln previous_delta_b)
               + sum_upto M (fun j =>
                   (delta_b - previous_delta_b) * ln (1 - mdat rho j k)))
          * (src n (Gamma 2 0.5) 0%nat / src (S n) (Gamma 2 0.5) 0%nat),
          S (S n)).
Proof.
  intros [HM Hk]. unfold compare_delta_b.
  erewrite ofor_sum with
    (f := fun j => (delta_b - previous_delta_b) * ln (1 - mdat rho j k)).
  - reflexivity.
  - intros i acc Hi. rewrite mget_in by (try assumption; lia). reflexivity.
Qed.

(** C5.  The likelihood ratio of [compare_delta_a] is the exponential of
    [M * (lgamma(a + b) - lgamma(a) - lgamma(a_prev + b) + lgamma(a_prev))]
    plus the sum over the components of [(a - a_prev) * log(rho[j, k])], and
    [compare_delta_b] computes the same expression with the two shape
    parameters swapped and [log(1 - rho[j, k])]. *)
Theorem compare_delta_log_likelihood_ratio (gammaln : R -> R)
    (delta_a previous_delta_a delta_b previous_delta_b : R)
    (rho : mat) (k M : nat) (src : source) (n : nat) :
  rho_in_shape rho k M ->
  compare_delta_a gammaln delta_a previous_delta_a delta_b rho k M src n
  = Some (exp (beta_log_ratio gammaln M delta_a previous_delta_a delta_b
                 (fun j => ln (mdat rho j k)))
          * prior_quotient src n prior_delta, S (S n))
  /\ compare_delta_b gammaln delta_b previous_delta_b delta_a rho k M src n
     = Some (exp (beta_log_ratio gammaln M delta_b previous_delta_b delta_a
                    (fun j => ln (1 - mdat rho j k)))
             * prior_quotient src n prior_delta, S (S n)).
Proof.
  intros Hrho. split.
  - rewrite compare_delta_a_eval by exact Hrho. reflexivity.
  - rewrite compare_delta_b_eval by exact Hrho.
    unfold beta_log_ratio.
    rewrite (Rplus_comm delta_b delta_a), (Rplus_comm previous_delta_b delta_a).
    reflexivity.
Qed.

Lemma compare_delta_log_likelihood_ratio_witness :
  compare_delta_a (fun _ => 0) 2 1 1 (mkmat 1 1 (fun _ _ => / 2)) 0 1
    (fun _ _ _ => 1) 0%nat
  = Some (exp (beta_log_ratio (fun _ => 0) 1 2 1 1 (fun _ => ln (/ 2)))
          * prior_quotient (fun _ _ _ => 1) 0 prior_delta, 2%nat).
Proof.
  apply (compare_delta_log_likelihood_ratio (fun _ => 0) 2 1 1 1
           (mkmat 1 1 (fun _ _ => / 2)) 0 1 (fun _ _ _ => 1) 0%nat).
  unfold rho_in_shape. simpl. lia.
Defined.

(** C6.  In each of the five comparison functions the factor multiplying
    the likelihood ratio is the quotient of the draws of two successive
    calls to the source, both for the prior with the hyperparameters of the
    call: [Normal(lam[k], 1/r[k])] for [mu_jk],
    [Gamma(beta[k]/2, 2/(beta[k]*w[k]))] for [s_ljk] and [s_rjk], the fixed
    [Gamma(2, 0.5)] for [delta_a] and [delta_b].  The quotient involves
    neither the candidate nor the previous value. *)
Theorem prior_ratio_is_quotient_of_draws (gammaln : R -> R)
    (candidate previous : R) (mu_jk s_ljk s_rjk delta_a delta_b : R)
    (r lam beta w : vector) (z : ten) (j k : nat) (X : mat)
    (rho : mat) (M : nat) (src : source) (n : nat) :
  data_in_shape z j k X ->
  (k < vlen lam)%nat -> (k < vlen r)%nat ->
  (k < vlen beta)%nat -> (k < vlen w)%nat ->
  rho_in_shape rho k M ->
  compare_mu_jk candidate previous s_ljk s_rjk r lam z j k X src n
  = Some (exp (log_ratio_sum z j k X
                 (fun x => AGD_pdf x candidate s_ljk s_rjk)
                 (fun x => AGD_pdf x previous s_ljk s_rjk))
          * prior_quotient src n (prior_mu lam r k), S (S n))
  /\ compare_s_ljk candidate previous mu_jk s_rjk beta w z j k X src n
     = Some (exp (log_ratio_sum z j k X
                    (fun x => AGD_pdf x mu_jk candidate s_rjk)
                    (fun x => AGD_pdf x mu_jk previous s_rjk))
             * prior_quotient src n (prior_s beta w k), S (S n))
  /\ compare_s_rjk candidate previous mu_jk s_ljk beta w z j k X src n
     = Some (exp (log_ratio_sum z j k X
                    (fun x => AGD_pdf x mu_jk s_ljk candidate)
                    (fun x => AGD_pdf x mu_jk s_ljk previous))
             * prior_quotient src n (prior_s beta w k), S (S n))
  /\ compare_delta_a gammaln candidate previous delta_b rho k M src n
     = Some (exp (beta_log_ratio gammaln M candidate previous delta_b
                    (fun j => ln (mdat rho j k)))
             * prior_quotient src n prior_delta, S (S n))
  /\ compare_delta_b gammaln candidate previous delta_a rho k M src n
     = Some (exp (beta_log_ratio gammaln M candidate previous delta_a
                    (fun j => ln (1 - mdat rho j k)))
             * prior_quotient src n prior_delta, S (S n)).
Proof.
  intros HX Hlam Hr Hbeta Hw Hrho. repeat split.
  - now rewrite compare_mu_jk_eval.
  - now rewrite compare_s_ljk_eval.
  - now rewrite compare_s_rjk_eval.
  - now rewrite compare_delta_a_eval.
  - rewrite compare_delta_b_eval by exact Hrho.
    unfold beta_log_ratio.
    rewrite (Rplus_comm candidate delta_a), (Rplus_comm previous delta_a).
    reflexivity.
Qed.

Lemma prior_ratio_is_quotient_of_draws_witness :
  compare_mu_jk 1 0 1 1 (ex_vec 1) (ex_vec 0) ex_z 0 0 ex_X src_ones 0%nat
  = Some (exp (log_ratio_sum ex_z 0 0 ex_X
                 (fun x => AGD_pdf x 1 1 1) (fun x => AGD_pdf x 0 1 1))
          * prior_quotient src_ones 0 (prior_mu (ex_vec 0) (ex_vec 1) 0),
          2%nat).
Proof.
  apply (prior_ratio_is_quotient_of_draws (fun _ => 0) 1 0 0 1 1 1 1
           (ex_vec 1) (ex_vec 0) (ex_vec 2) (ex_vec 1) ex_z 0 0 ex_X
           ex_rho 1 src_ones 0%nat);
    unfold data_in_shape, rho_in_shape; simpl; lia.
Defined.

(** ** The acceptance probability *)

Lemma py_min2_Rmin (v : R) : py_min2 1 v = Rmin 1 v.
Proof.
  unfold py_min2, Rmin.
  destruct (Rlt_dec v 1), (Rle_dec 1 v); lra.
Qed.

Lemma py_min2_le_1 (v : R) : py_min2 1 v <= 1.
Proof. rewrite py_min2_Rmin. apply Rmin_l. Qed.

Lemma py_min2_nonneg (v : R) : 0 <= v -> 0 <= py_min2 1 v.
Proof. intros H. rewrite py_min2_Rmin. apply Rmin_glb; lra. Qed.

Lemma likelihood_times_nonneg (l q : R) : 0 <= q -> 0 <= exp l * q.
Proof. intros H. apply Rmult_le_pos; [left; apply exp_pos | exact H]. Qed.

Lemma gamma_quotient_nonneg (src : source) (n : nat) (a theta : R) :
  gamma_support src -> 0 <= prior_quotient src n (Gamma a theta).
Proof.
  intros Hg. unfold prior_quotient. left. apply Rdiv_lt_0_compat; apply Hg.
Qed.

(** The acceptance probability of a comparison that evaluates to the
    product of an exponential and a non-negative quotient lies in
    [[0, 1]]. *)
Lemma alpha_of_nonneg (cmp : Rand R) (l q : R) (src : source) (n n' : nat) :
  cmp src n = Some (exp l * q, n') -> 0 <= q ->
  exists a, (ratio <- cmp ;; ret (py_min2 1 ratio)) src n = Some (a, n')
            /\ 0 <= a <= 1.
Proof.
  intros Hc Hq. exists (py_min2 1 (exp l * q)). split.
  - unfold bind, ret. now rewrite Hc.
  - split; [apply py_min2_nonneg, likelihood_times_nonneg, Hq
           | apply py_min2_le_1].
Qed.

(** C2, as the code has it.  The acceptance probability
    [min(1, likelihood_ratio * prior_ratio)] never exceeds 1 in any of the
    five samplers.  With Gamma variates in their support it lies in
    [[0, 1]] for [s_ljk], [s_rjk], [delta_a] and [delta_b].  For [mu_jk] it
    lies in [[0, 1]] when the second Normal draw is not zero and the
    quotient of the two Normal draws is not negative; nothing keeps it from
    being negative otherwise. *)
Theorem acceptance_probability_range (gammaln : R -> R)
    (candidate x : R) (mu_jk s_ljk s_rjk delta_a delta_b : R)
    (r lam beta w : vector) (z : ten) (j k : nat) (X : mat)
    (rho : mat) (M : nat) (src : source) (n : nat) :
  data_in_shape z j k X ->
  (k < vlen lam)%nat -> (k < vlen r)%nat ->
  (k < vlen beta)%nat -> (k < vlen w)%nat ->
  rho_in_shape rho k M ->
  gamma_support src ->
  (exists a,
     alpha_mu_jk candidate x s_ljk s_rjk r lam z j k X src n
     = Some (a, S (S n))
     /\ a <= 1
     /\ (src (S n) (prior_mu lam r k) 0%nat <> 0 ->
         0 <= prior_quotient src n (prior_mu lam r k) -> 0 <= a <= 1))
  /\ (exists a,
        alpha_sljk candidate x mu_jk s_rjk beta w z j k X src n
        = Some (a, S (S n)) /\ 0 <= a <= 1)
  /\ (exists a,
        alpha_srjk candidate x mu_jk s_ljk beta w z j k X src n
        = Some (a, S (S n)) /\ 0 <= a <= 1)
  /\ (exists a,
        alpha_delta_a gammaln candidate x delta_b rho k M src n
        = Some (a, S (S n)) /\ 0 <= a <= 1)
  /\ (exists a,
        alpha_delta_b gammaln candidate x delta_a rho k M src n
        = Some (a, S (S n)) /\ 0 <= a <= 1).
Proof.
  intros HX Hlam Hr Hbeta Hw Hrho Hg.
  split; [| split; [| split; [| split]]].
  - eexists. split; [| split].
    + unfold alpha_mu_jk, bind, ret.
      rewrite compare_mu_jk_eval by assumption. reflexivity.
    + apply py_min2_le_1.
    + intros _ Hq. split; [| apply py_min2_le_1].
      apply py_min2_nonneg, likelihood_times_nonneg, Hq.
  - eapply alpha_of_nonneg.
    + apply compare_s_ljk_eval; assumption.
    + apply (gamma_quotient_nonneg src n _ _ Hg).
  - eapply alpha_of_nonneg.
    + apply compare_s_rjk_eval; assumption.
    + apply (gamma_quotient_nonneg src n _ _ Hg).
  - eapply alpha_of_nonneg.
    + apply compare_delta_a_eval; assumption.
    + apply (gamma_quotient_nonneg src n _ _ Hg).
  - eapply alpha_of_nonneg.
    + apply compare_delta_b_eval; assumption.
    + apply (gamma_quotient_nonneg src n _ _ Hg).
Qed.

Lemma acceptance_probability_range_witness :
  exists a,
    alpha_sljk 1 1 0 1 (ex_vec 2) (ex_vec 1) ex_z 0 0 ex_X src_ones 0%nat
    = Some (a, 2%nat) /\ 0 <= a <= 1.
Proof.
  apply (acceptance_probability_range (fun _ => 0) 1 1 0 1 1 1 1
           (ex_vec 1) (ex_vec 0) (ex_vec 2) (ex_vec 1) ex_z 0 0 ex_X
           ex_rho 1 src_ones 0%nat);
    unfold data_in_shape, rho_in_shape, gamma_support, src_ones;
    simpl; intros; lia || lra.
Defined.

(** C2, as stated, fails for [mu_jk]: in the first iteration of
    [MH_Sampling_posterior_mu_jk] started at 0, with a proposal equal to
    the current value and two Normal prior draws of opposite signs, the
    acceptance probability is negative. *)
Lemma acceptance_probability_negative :
  alpha_mu_jk (src_opposite 0%nat (Normal 0 0.75) 0%nat) 0 1 1
    (ex_vec 1) (ex_vec 0) ex_z 0 0 ex_X src_opposite 1%nat
  = Some (-1, 3%nat)
  /\ ~ (0 <= -1 <= 1).
Proof.
  split; [| lra].
  unfold alpha_mu_jk, bind, ret.
  rewrite compare_mu_jk_eval by (unfold data_in_shape; simpl; lia).
  assert (Hsum : log_ratio_sum ex_z 0 0 ex_X
                   (fun x0 => AGD_pdf x0 (src_opposite 0%nat (Normal 0 0.75) 0%nat) 1 1)
                   (fun x0 => AGD_pdf x0 0 1 1) = 0).
  { unfold log_ratio_sum. simpl. ring. }
  rewrite Hsum, exp_0. unfold src_opposite.
  replace (1 * (-1 / 1)) with (-1) by field.
  unfold py_min2. destruct (Rlt_dec (-1) 1); [reflexivity | lra].
Qed.

(** ** The five loop bodies are instances of the generic one *)

Lemma MH_body_mu_jk_generic (s_ljk s_rjk : R) (r lam : vector) (z : ten)
    (j k : nat) (X : mat) (st : R * list R) (src : source) (n : nat) :
  MH_body_mu_jk s_ljk s_rjk r lam z j k X st src n
  = mh_body Unconstrained
      (fun c x => compare_mu_jk c x s_ljk s_rjk r lam z j k X) st src n.
Proof.
  destruct st as [x vec].
  unfold MH_body_mu_jk, mh_body, alpha_mu_jk, bind, norm_rvs, rvs, lift,
    uniform, rvs_scalar, ret. simpl.
  destruct (compare_mu_jk _ _ _ _ _ _ _ _ _ _ src (S n)) as [[ratio n1] |];
    [| reflexivity].
  destruct (Rlt_dec _ _); reflexivity.
Qed.

Lemma MH_body_sljk_generic (mu_jk s_rjk : R) (beta w : vector) (z : ten)
    (j k : nat) (X : mat) (st : R * list R) (src : source) (n : nat) :
  MH_body_sljk mu_jk s_rjk beta w z j k X st src n
  = mh_body ReflectNonPositive
      (fun c x => compare_s_ljk c x mu_jk s_rjk beta w z j k X) st src n.
Proof.
  destruct st as [x vec].
  unfold MH_body_sljk, mh_body, alpha_sljk, bind, norm_rvs, rvs, lift,
    uniform, rvs_scalar, ret. simpl.
  destruct (compare_s_ljk _ _ _ _ _ _ _ _ _ _ src (S n)) as [[ratio n1] |];
    [| reflexivity].
  destruct (Rlt_dec _ _); reflexivity.
Qed.

Lemma MH_body_srjk_generic (mu_jk s_ljk : R) (beta w : vector) (z : ten)
    (j k : nat) (X : mat) (st : R * list R) (src : source) (n : nat) :
  MH_body_srjk mu_jk s_ljk beta w z j k X st src n
  = mh_body SkipNonPositive
      (fun c x => compare_s_rjk c x mu_jk s_ljk beta w z j k X) st src n.
Proof.
  destruct st as [x vec].
  unfold MH_body_srjk, mh_body, alpha_srjk, bind, norm_rvs, rvs, lift,
    uniform, rvs_scalar, ret. simpl.
  destruct (Rle_dec _ 0); [reflexivity |].
  destruct (compare_s_rjk _ _ _ _ _ _ _ _ _ _ src (S n)) as [[ratio n1] |];
    [| reflexivity].
  destruct (Rlt_dec _ _); reflexivity.
Qed.

Lemma MH_body_delta_a_generic (gammaln : R -> R) (delta_b : R) (rho : mat)
    (k M : nat) (st : R * list R) (src : source) (n : nat) :
  MH_body_delta_a gammaln delta_b rho k M st src n
  = mh_body SkipNonPositive
      (fun c x => compare_delta_a gammaln c x delta_b rho k M) st src n.
Proof.
  destruct st as [x vec].
  unfold MH_body_delta_a, mh_body, alpha_delta_a, bind, norm_rvs, rvs, lift,
    uniform, rvs_scalar, ret. simpl.
  destruct (Rle_dec _ 0); [reflexivity |].
  destruct (compare_delta_a _ _ _ _ _ _ _ src (S n)) as [[ratio n1] |];
    [| reflexivity].
  destruct (Rlt_dec _ _); reflexivity.
Qed.

Lemma MH_body_delta_b_generic (gammaln : R -> R) (delta_a : R) (rho : mat)
    (k M : nat) (st : R * list R) (src : source) (n : nat) :
  MH_body_delta_b gammaln delta_a rho k M st src n
  = mh_body SkipNonPositive
      (fun c x => compare_delta_b gammaln c x delta_a rho k M) st src n.
Proof.
  destruct st as [x vec].
  unfold MH_body_delta_b, mh_body, alpha_delta_b, bind, norm_rvs, rvs, lift,
    uniform, rvs_scalar, ret. simpl.
  destruct (Rle_dec _ 0); [reflexivity |].
  destruct (compare_delta_b _ _ _ _ _ _ _ src (S n)) as [[ratio n1] |];
    [| reflexivity].
  destruct (Rlt_dec _ _); reflexivity.
Qed.

Lemma rfor_from_ext {S : Type} (f g : nat -> S -> Rand S) (src : source) :
  (forall i s n, f i s src n = g i s src n) ->
  forall count start s n,
    rfor_from start count f s src n = rfor_from start count g s src n.
Proof.
  intros Hfg. induction count as [| c IH]; intros start s n.
  - reflexivity.
  - simpl. unfold bind. rewrite Hfg.
    destruct (g start s src n) as [[s1 n1] |]; [apply IH | reflexivity].
Qed.

(** ** The generic loop refines the state machine *)

Lemma mh_body_step (pol : policy) (cmp : R -> R -> Rand R) (src : source)
    (x : R) (vec : list R) (n : nat) :
  cmp_total cmp src ->
  (exists n', mh_body pol cmp (x, vec) src n = Some ((x, vec), n')
              /\ mh_iter pol cmp src x n None n')
  \/ (exists c n', mh_body pol cmp (x, vec) src n = Some ((c, vec ++ [c]), n')
                   /\ mh_iter pol cmp src x n (Some c) n').
Proof.
  intros Htot. unfold mh_body.
  destruct (effective_candidate pol (src n (Normal x 0.75) 0%nat))
    as [c |] eqn:Hc.
  - destruct (Htot c x (S n)) as [ratio [n1 Hcmp]]. rewrite Hcmp.
    rewrite py_min2_Rmin.
    destruct (Rlt_dec (src n1 (Uniform 0 1) 0%nat) (Rmin 1 ratio)) as [Hu | Hu].
    + right. exists c, (S n1). split; [reflexivity |].
      eapply iter_accept; eassumption.
    + left. exists (S n1). split; [reflexivity |].
      eapply iter_reject; eassumption.
  - left. exists (S n). split; [reflexivity |].
    apply iter_skip. exact Hc.
Qed.

Lemma rfor_from_S {S : Type} (body : nat -> S -> Rand S) (start c : nat)
    (s : S) (src : source) (n : nat) :
  rfor_from start (Datatypes.S c) body s src n
  = match body start s src n with
    | Some (s1, n1) => rfor_from (Datatypes.S start) c body s1 src n1
    | None => None
    end.
Proof. reflexivity. Qed.

Lemma mh_loop_run (pol : policy) (cmp : R -> R -> Rand R) (src : source) :
  cmp_total cmp src ->
  forall t start x vec n,
  exists acc x' n',
    rfor_from start t (fun _ => mh_body pol cmp) (x, vec) src n
    = Some ((x', vec ++ acc), n')
    /\ mh_run pol cmp src t x n acc x' n'.
Proof.
  intros Htot. induction t as [| t IH]; intros start x vec n.
  - exists [], x, n. split; [| constructor].
    simpl. unfold ret. now rewrite app_nil_r.
  - destruct (mh_body_step pol cmp src x vec n Htot)
      as [[n1 [Hb Hi]] | [c [n1 [Hb Hi]]]].
    + destruct (IH (S start) x vec n1) as [acc [x' [n' [Hl Hr]]]].
      exists acc, x', n'. split.
      * rewrite rfor_from_S, Hb. exact Hl.
      * eapply run_keep; eassumption.
    + destruct (IH (S start) c (vec ++ [c]) n1) as [acc [x' [n' [Hl Hr]]]].
      exists (c :: acc), x', n'. split.
      * rewrite rfor_from_S, Hb, Hl.
        now rewrite <- app_assoc.
      * eapply run_move; eassumption.
Qed.

Lemma last_cons_default (l : list R) (a d d' : R) :
  last (a :: l) d = last (a :: l) d'.
Proof.
  revert a. induction l as [| b l IH]; intros a; [reflexivity |].
  change (last (b :: l) d = last (b :: l) d'). apply IH.
Qed.

Lemma mh_run_last (pol : policy) (cmp : R -> R -> Rand R) (src : source)
    (t : nat) (x : R) (n : nat) (acc : list R) (x' : R) (n' : nat) :
  mh_run pol cmp src t x n acc x' n' -> x' = last (x :: acc) x.
Proof.
  induction 1 as [x n | t x n n1 acc x' n' Hi Hr IH
                  | t x n c n1 acc x' n' Hi Hr IH].
  - reflexivity.
  - exact IH.
  - rewrite IH. change (last (x :: c :: acc) x) with (last (c :: acc) x).
    apply last_cons_default.
Qed.

Lemma py_last_cons (a : R) (l : list R) (d : R) :
  py_last (a :: l) = Some (last (a :: l) d).
Proof. unfold py_last. f_equal. apply last_cons_default. Qed.

(** Every accepted candidate is what the policy made of some proposal. *)
Lemma mh_run_accepted (pol : policy) (cmp : R -> R -> Rand R) (src : source)
    (t : nat) (x : R) (n : nat) (acc : list R) (x' : R) (n' : nat) :
  mh_run pol cmp src t x n acc x' n' ->
  Forall (fun c => exists m y,
            effective_candidate pol (src m (Normal y 0.75) 0%nat) = Some c) acc.
Proof.
  induction 1 as [x n | t x n n1 acc x' n' Hi Hr IH
                  | t x n c n1 acc x' n' Hi Hr IH].
  - constructor.
  - exact IH.
  - constructor; [| exact IH].
    inversion Hi; subst. exists n, x. assumption.
Qed.

Lemma last_Forall (P : R -> Prop) (l : list R) (a : R) :
  P a -> Forall P l -> P (last (a :: l) a).
Proof.
  intros Ha Hl.
  assert (HF : Forall P (a :: l)) by (constructor; assumption).
  clear Hl. revert a Ha HF. induction l as [| b l IH]; intros a Ha HF.
  - exact Ha.
  - change (P (last (b :: l) a)). rewrite (last_cons_default l b a b).
    inversion HF as [| ? ? _ HF']; subst.
    apply IH; [now inversion HF' | exact HF'].
Qed.

(** The generic sampler: 750 iterations, then the last element of the
    trace. *)
Lemma mh_sampler_generic (pol : policy) (cmp : R -> R -> Rand R)
    (body : R * list R -> Rand (R * list R)) (sampler : Rand R)
    (x0 : R) (src : source) (n : nat) :
  cmp_total cmp src ->
  (forall st m, body st src m = mh_body pol cmp st src m) ->
  sampler src n
  = (st <- rfor 750 (fun _ => body) (x0, [] ++ [x0]) ;;
     lift (py_last (snd st))) src n ->
  mh_sampler_spec pol cmp body sampler x0 src n.
Proof.
  intros Htot Hbody Hs.
  destruct (mh_loop_run pol cmp src Htot 750 0%nat x0 [x0] n)
    as [acc [v [n' [Hl Hr]]]].
  assert (Hloop : rfor 750 (fun _ => body) (x0, [x0]) src n
                  = Some ((v, x0 :: acc), n')).
  { unfold rfor.
    rewrite (rfor_from_ext (fun _ => body) (fun _ => mh_body pol cmp) src)
      by (intros; apply Hbody).
    exact Hl. }
  pose proof (mh_run_last _ _ _ _ _ _ _ _ _ Hr) as Hlast.
  exists acc, v, n'. repeat split.
  - exact Hr.
  - exact Hloop.
  - rewrite Hs. unfold bind. change ([] ++ [x0]) with [x0].
    rewrite Hloop. unfold lift. simpl snd.
    rewrite (py_last_cons x0 acc x0), <- Hlast. reflexivity.
  - exact Hlast.
  - intros ->. exact Hlast.
Qed.

(** ** The comparison functions never raise inside the shapes *)

Lemma compare_mu_jk_total (s_ljk s_rjk : R) (r lam : vector) (z : ten)
    (j k : nat) (X : mat) (src : source) :
  data_in_shape z j k X -> (k < vlen lam)%nat -> (k < vlen r)%nat ->
  cmp_total (fun c x => compare_mu_jk c x s_ljk s_rjk r lam z j k X) src.
Proof.
  intros HX Hlam Hr c x n. eexists. eexists.
  apply compare_mu_jk_eval; assumption.
Qed.

Lemma compare_s_ljk_total (mu_jk s_rjk : R) (beta w : vector) (z : ten)
    (j k : nat) (X : mat) (src : source) :
  data_in_shape z j k X -> (k < vlen beta)%nat -> (k < vlen w)%nat ->
  cmp_total (fun c x => compare_s_ljk c x mu_jk s_rjk beta w z j k X) src.
Proof.
  intros HX Hb Hw c x n. eexists. eexists.
  apply compare_s_ljk_eval; assumption.
Qed.

Lemma compare_s_rjk_total (mu_jk s_ljk : R) (beta w : vector) (z : ten)
    (j k : nat) (X : mat) (src : source) :
  data_in_shape z j k X -> (k < vlen beta)%nat -> (k < vlen w)%nat ->
  cmp_total (fun c x => compare_s_rjk c x mu_jk s_ljk beta w z j k X) src.
Proof.
  intros HX Hb Hw c x n. eexists. eexists.
  apply compare_s_rjk_eval; assumption.
Qed.

Lemma compare_delta_a_total (gammaln : R -> R) (delta_b : R) (rho : mat)
    (k M : nat) (src : source) :
  rho_in_shape rho k M ->
  cmp_total (fun c x => compare_delta_a gammaln c x delta_b rho k M) src.
Proof.
  intros Hrho c x n. eexists. eexists.
  apply compare_delta_a_eval; assumption.
Qed.

Lemma compare_delta_b_total (gammaln : R -> R) (delta_a : R) (rho : mat)
    (k M : nat) (src : source) :
  rho_in_shape rho k M ->
  cmp_total (fun c x => compare_delta_b gammaln c x delta_a rho k M) src.
Proof.
  intros Hrho c x n. eexists. eexists.
  apply compare_delta_b_eval; assumption.
Qed.

(** ** The five samplers against the state machine *)

Lemma MH_mu_jk_spec (mu_jk s_ljk s_rjk : R) (r lam : vector) (z : ten)
    (j k : nat) (X : mat) (src : source) (n : nat) :
  data_in_shape z j k X -> (k < vlen lam)%nat -> (k < vlen r)%nat ->
  mh_sampler_spec Unconstrained
    (fun c x => compare_mu_jk c x s_ljk s_rjk r lam z j k X)
    (MH_body_mu_jk s_ljk s_rjk r lam z j k X)
    (MH_Sampling_posterior_mu_jk mu_jk s_ljk s_rjk r lam z j k X)
    mu_jk src n.
Proof.
  intros HX Hlam Hr. apply mh_sampler_generic.
  - apply compare_mu_jk_total; assumption.
  - intros st m. apply MH_body_mu_jk_generic.
  - reflexivity.
Qed.

Lemma MH_sljk_spec (mu_jk s_ljk s_rjk : R) (beta w : vector) (z : ten)
    (j k : nat) (X : mat) (src : source) (n : nat) :
  data_in_shape z j k X -> (k < vlen beta)%nat -> (k < vlen w)%nat ->
  mh_sampler_spec ReflectNonPositive
    (fun c x => compare_s_ljk c x mu_jk s_rjk beta w z j k X)
    (MH_body_sljk mu_jk s_rjk beta w z j k X)
    (MH_Sampling_posterior_sljk mu_jk s_ljk s_rjk beta w z j k X)
    s_ljk src n.
Proof.
  intros HX Hb Hw. apply mh_sampler_generic.
  - apply compare_s_ljk_total; assumption.
  - intros st m. apply MH_body_sljk_generic.
  - reflexivity.
Qed.

Lemma MH_srjk_spec (mu_jk s_ljk s_rjk : R) (beta w : vector) (z : ten)
    (j k : nat) (X : mat) (src : source) (n : nat) :
  data_in_shape z j k X -> (k < vlen beta)%nat -> (k < vlen w)%nat ->
  mh_sampler_spec SkipNonPositive
    (fun c x => compare_s_rjk c x mu_jk s_ljk beta w z j k X)
    (MH_body_srjk mu_jk s_ljk beta w z j k X)
    (MH_Sampling_posterior_srjk mu_jk s_ljk s_rjk beta w z j k X)
    s_rjk src n.
Proof.
  intros HX Hb Hw. apply mh_sampler_generic.
  - apply compare_s_rjk_total; assumption.
  - intros st m. apply MH_body_srjk_generic.
  - reflexivity.
Qed.

Lemma MH_delta_a_spec (gammaln : R -> R) (delta_a delta_b : R) (rho : mat)
    (k M : nat) (src : source) (n : nat) :
  rho_in_shape rho k M ->
  mh_sampler_spec SkipNonPositive
    (fun c x => compare_delta_a gammaln c x delta_b rho k M)
    (MH_body_delta_a gammaln delta_b rho k M)
    (MH_Sampling_posterior_delta_a gammaln delta_a delta_b rho k M)
    delta_a src n.
Proof.
  intros Hrho. apply mh_sampler_generic.
  - apply compare_delta_a_total; assumption.
  - intros st m. apply MH_body_delta_a_generic.
  - reflexivity.
Qed.

Lemma MH_delta_b_spec (gammaln : R -> R) (delta_a delta_b : R) (rho : mat)
    (k M : nat) (src : source) (n : nat) :
  rho_in_shape rho k M ->
  mh_sampler_spec SkipNonPositive
    (fun c x => compare_delta_b gammaln c x delta_a rho k M)
    (MH_body_delta_b gammaln delta_a rho k M)
    (MH_Sampling_posterior_delta_b gammaln delta_a delta_b rho k M)
    delta_b src n.
Proof.
  intros Hrho. apply mh_sampler_generic.
  - apply compare_delta_b_total; assumption.
  - intros st m. apply MH_body_delta_b_generic.
  - reflexivity.
Qed.

(** C4.  Each of the five samplers makes exactly 750 iterations of the
    state machine and returns; its trace is the start value followed by
    the accepted candidates only, and the value returned is the last
    element of that trace: the last accepted candidate, or the start value
    when nothing was accepted. *)
Theorem MH_samplers_fixed_budget_last_accepted (gammaln : R -> R)
    (mu_jk s_ljk s_rjk delta_a delta_b : R)
    (r lam beta w : vector) (z : ten) (j k : nat) (X : mat)
    (rho : mat) (M : nat) (src : source) (n : nat) :
  data_in_shape z j k X ->
  (k < vlen lam)%nat -> (k < vlen r)%nat ->
  (k < vlen beta)%nat -> (k < vlen w)%nat ->
  rho_in_shape rho k M ->
  mh_sampler_spec Unconstrained
    (fun c x => compare_mu_jk c x s_ljk s_rjk r lam z j k X)
    (MH_body_mu_jk s_ljk s_rjk r lam z j k X)
    (MH_Sampling_posterior_mu_jk mu_jk s_ljk s_rjk r lam z j k X)
    mu_jk src n
  /\ mh_sampler_spec ReflectNonPositive
       (fun c x => compare_s_ljk c x mu_jk s_rjk beta w z j k X)
       (MH_body_sljk mu_jk s_rjk beta w z j k X)
       (MH_Sampling_posterior_sljk mu_jk s_ljk s_rjk beta w z j k X)
       s_ljk src n
  /\ mh_sampler_spec SkipNonPositive
       (fun c x => compare_s_rjk c x mu_jk s_ljk beta w z j k X)
       (MH_body_srjk mu_jk s_ljk beta w z j k X)
       (MH_Sampling_posterior_srjk mu_jk s_ljk s_rjk beta w z j k X)
       s_rjk src n
  /\ mh_sampler_spec SkipNonPositive
       (fun c x => compare_delta_a gammaln c x delta_b rho k M)
       (MH_body_delta_a gammaln delta_b rho k M)
       (MH_Sampling_posterior_delta_a gammaln delta_a delta_b rho k M)
       delta_a src n
  /\ mh_sampler_spec SkipNonPositive
       (fun c x => compare_delta_b gammaln c x delta_a rho k M)
       (MH_body_delta_b gammaln delta_a rho k M)
       (MH_Sampling_posterior_delta_b gammaln delta_a delta_b rho k M)
       delta_b src n.
Proof.
  intros HX Hlam Hr Hb Hw Hrho. repeat split.
  - apply MH_mu_jk_spec; assumption.
  - apply MH_sljk_spec; assumption.
  - apply MH_srjk_spec; assumption.
  - apply MH_delta_a_spec; assumption.
  - apply MH_delta_b_spec; assumption.
Qed.

Lemma MH_samplers_fixed_budget_last_accepted_witness :
  mh_sampler_spec Unconstrained
    (fun c x => compare_mu_jk c x 1 1 (ex_vec 1) (ex_vec 0) ex_z 0 0 ex_X)
    (MH_body_mu_jk 1 1 (ex_vec 1) (ex_vec 0) ex_z 0 0 ex_X)
    (MH_Sampling_posterior_mu_jk 0 1 1 (ex_vec 1) (ex_vec 0) ex_z 0 0 ex_X)
    0 src_ones 0%nat.
Proof.
  apply (MH_samplers_fixed_budget_last_accepted (fun _ => 0) 0 1 1 1 1
           (ex_vec 1) (ex_vec 0) (ex_vec 2) (ex_vec 1) ex_z 0 0 ex_X
           ex_rho 1 src_ones 0%nat);
    unfold data_in_shape, rho_in_shape; simpl; lia.
Defined.

(** ** Domain of the value returned *)

Lemma skip_candidate_pos (c0 c : R) :
  effective_candidate SkipNonPositive c0 = Some c -> 0 < c.
Proof.
  unfold effective_candidate. destruct (Rle_dec c0 0); [discriminate |].
  intros [= <-]. lra.
Qed.

Lemma reflect_candidate_nonneg (c0 c : R) :
  effective_candidate ReflectNonPositive c0 = Some c ->
  0 <= c /\ (c0 <> 0 -> 0 < c).
Proof.
  unfold effective_candidate. intros [= <-].
  destruct (Rle_dec c0 0).
  - split; [apply Rabs_pos | intros H; now apply Rabs_pos_lt].
  - split; lra.
Qed.

(** A property of the start value that every accepted candidate has is a
    property of the value returned. *)
Lemma mh_sampler_returns (P : R -> Prop) (pol : policy)
    (cmp : R -> R -> Rand R) (body : R * list R -> Rand (R * list R))
    (sampler : Rand R) (x0 : R) (src : source) (n : nat) :
  mh_sampler_spec pol cmp body sampler x0 src n ->
  P x0 ->
  (forall m y c,
     effective_candidate pol (src m (Normal y 0.75) 0%nat) = Some c -> P c) ->
  exists v n', sampler src n = Some (v, n') /\ P v.
Proof.
  intros (acc & v & n' & Hrun & _ & Hs & Hlast & _) H0 Hc.
  exists v, n'. split; [exact Hs |].
  rewrite Hlast. apply last_Forall; [exact H0 |].
  eapply Forall_impl; [| exact (mh_run_accepted _ _ _ _ _ _ _ _ _ Hrun)].
  intros c (m & y & He). eapply Hc, He.
Qed.

(** X26.  What the samplers do with a candidate [<= 0]: nothing special
    for [mu_jk], reflection by [np.abs] for [s_ljk], skipping the iteration
    for [s_rjk], [delta_a] and [delta_b].  From a strictly positive start
    value, [s_rjk], [delta_a] and [delta_b] return a strictly positive
    value; [s_ljk] returns a non-negative value, which is strictly positive
    when no proposal is exactly zero. *)
Theorem MH_samplers_policy_and_domain (gammaln : R -> R)
    (mu_jk s_ljk s_rjk delta_a delta_b : R)
    (r lam beta w : vector) (z : ten) (j k : nat) (X : mat)
    (rho : mat) (M : nat) (src : source) (n : nat) :
  data_in_shape z j k X ->
  (k < vlen lam)%nat -> (k < vlen r)%nat ->
  (k < vlen beta)%nat -> (k < vlen w)%nat ->
  rho_in_shape rho k M ->
  0 < s_ljk -> 0 < s_rjk -> 0 < delta_a -> 0 < delta_b ->
  ((forall st m,
      MH_body_mu_jk s_ljk s_rjk r lam z j k X st src m
      = mh_body Unconstrained
          (fun c x => compare_mu_jk c x s_ljk s_rjk r lam z j k X) st src m)
   /\ (forall st m,
         MH_body_sljk mu_jk s_rjk beta w z j k X st src m
         = mh_body ReflectNonPositive
             (fun c x => compare_s_ljk c x mu_jk s_rjk beta w z j k X) st src m)
   /\ (forall st m,
         MH_body_srjk mu_jk s_ljk beta w z j k X st src m
         = mh_body SkipNonPositive
             (fun c x => compare_s_rjk c x mu_jk s_ljk beta w z j k X) st src m)
   /\ (forall st m,
         MH_body_delta_a gammaln delta_b rho k M st src m
         = mh_body SkipNonPositive
             (fun c x => compare_delta_a gammaln c x delta_b rho k M) st src m)
   /\ (forall st m,
         MH_body_delta_b gammaln delta_a rho k M st src m
         = mh_body SkipNonPositive
             (fun c x => compare_delta_b gammaln c x delta_a rho k M) st src m))
  /\ (exists v n',
        MH_Sampling_posterior_mu_jk mu_jk s_ljk s_rjk r lam z j k X src n
        = Some (v, n'))
  /\ (exists v n',
        MH_Sampling_posterior_sljk mu_jk s_ljk s_rjk beta w z j k X src n
        = Some (v, n')
        /\ 0 <= v /\ (proposals_nonzero src -> 0 < v))
  /\ (exists v n',
        MH_Sampling_posterior_srjk mu_jk s_ljk s_rjk beta w z j k X src n
        = Some (v, n') /\ 0 < v)
  /\ (exists v n',
        MH_Sampling_posterior_delta_a gammaln delta_a delta_b rho k M src n
        = Some (v, n') /\ 0 < v)
  /\ (exists v n',
        MH_Sampling_posterior_delta_b gammaln delta_a delta_b rho k M src n
        = Some (v, n') /\ 0 < v).
Proof.
  intros HX Hlam Hr Hb Hw Hrho Hsl Hsr Hda Hdb.
  split; [| split; [| split; [| split; [| split]]]].
  - repeat split; intros st m.
    + apply MH_body_mu_jk_generic.
    + apply MH_body_sljk_generic.
    + apply MH_body_srjk_generic.
    + apply MH_body_delta_a_generic.
    + apply MH_body_delta_b_generic.
  - destruct (mh_sampler_returns (fun _ => True) _ _ _ _ _ _ _
                (MH_mu_jk_spec mu_jk s_ljk s_rjk r lam z j k X src n HX Hlam Hr)
                I (fun _ _ _ _ => I))
      as (v & n' & Hs & _).
    now exists v, n'.
  - apply (mh_sampler_returns
             (fun v => 0 <= v /\ (proposals_nonzero src -> 0 < v)) _ _ _ _ _ _ _
             (MH_sljk_spec mu_jk s_ljk s_rjk beta w z j k X src n HX Hb Hw)).
    + split; lra.
    + intros m y c He. apply reflect_candidate_nonneg in He.
      destruct He as [H0 H1]. split; [exact H0 |].
      intros Hnz. apply H1, Hnz.
  - apply (mh_sampler_returns (fun v => 0 < v) _ _ _ _ _ _ _
             (MH_srjk_spec mu_jk s_ljk s_rjk beta w z j k X src n HX Hb Hw) Hsr).
    intros m y c He. eapply skip_candidate_pos, He.
  - apply (mh_sampler_returns (fun v => 0 < v) _ _ _ _ _ _ _
             (MH_delta_a_spec gammaln delta_a delta_b rho k M src n Hrho) Hda).
    intros m y c He. eapply skip_candidate_pos, He.
  - apply (mh_sampler_returns (fun v => 0 < v) _ _ _ _ _ _ _
             (MH_delta_b_spec gammaln delta_a delta_b rho k M src n Hrho) Hdb).
    intros m y c He. eapply skip_candidate_pos, He.
Qed.

Lemma MH_samplers_policy_and_domain_witness :
  exists v n',
    MH_Sampling_posterior_srjk 0 1 1 (ex_vec 2) (ex_vec 1) ex_z 0 0 ex_X
      src_ones 0%nat = Some (v, n') /\ 0 < v.
Proof.
  refine (proj1 (proj2 (proj2 (proj2
    (MH_samplers_policy_and_domain (fun _ => 0) 0 1 1 1 1
       (ex_vec 1) (ex_vec 0) (ex_vec 2) (ex_vec 1) ex_z 0 0 ex_X
       ex_rho 1 src_ones 0%nat _ _ _ _ _ _ _ _ _ _)))));
    unfold data_in_shape, rho_in_shape; simpl; lia || lra.
Defined.

(** *** A run of [MH_Sampling_posterior_sljk] that ends at zero *)

Lemma reflect_zero : (if Rle_dec 0 0 then Rabs 0 else 0) = 0.
Proof. destruct (Rle_dec 0 0); [apply Rabs_R0 | reflexivity]. Qed.

Lemma sljk_step_to_zero (x : R) (vec : list R) (m : nat) :
  src_zero_proposal m (Normal x 0.75) 0%nat = 0 ->
  MH_body_sljk 0 1 (ex_vec 2) (ex_vec 1) ex_z0 0 0 ex_X0 (x, vec)
    src_zero_proposal m
  = Some ((0, vec ++ [0]), S (S (S (S m)))).
Proof.
  intros Hprop. rewrite MH_body_sljk_generic. unfold mh_body.
  rewrite Hprop. unfold effective_candidate. rewrite reflect_zero.
  rewrite compare_s_ljk_eval by (unfold data_in_shape; simpl; lia).
  assert (Hsum : log_ratio_sum ex_z0 0 0 ex_X0
                   (fun x0 => AGD_pdf x0 0 0 1) (fun x0 => AGD_pdf x0 0 x 1) = 0)
    by reflexivity.
  rewrite Hsum, exp_0.
  change (src_zero_proposal (S (S (S m))) (Uniform 0 1) 0%nat) with 0.
  change (src_zero_proposal (S m) (Gamma (vdat (ex_vec 2) 0 / 2)
            (2 / (vdat (ex_vec 2) 0 * vdat (ex_vec 1) 0))) 0%nat) with 1.
  change (src_zero_proposal (S (S m)) (Gamma (vdat (ex_vec 2) 0 / 2)
            (2 / (vdat (ex_vec 2) 0 * vdat (ex_vec 1) 0))) 0%nat) with 1.
  replace (1 * (1 / 1)) with 1 by field.
  unfold py_min2. destruct (Rlt_dec 1 1); [lra |].
  destruct (Rlt_dec 0 1); [reflexivity | lra].
Qed.

(** C3.  [MH_Sampling_posterior_sljk] does not keep its result strictly
    positive: the guard [candidate <= 0] sends a proposal that is exactly
    0 to [np.abs], which leaves it at 0.  Started at 0.75, with no
    observation and a first proposal that is exactly 0, the reflected
    candidate 0 is accepted and the sampler returns 0. *)
Theorem MH_sljk_returns_zero :
  0 < 0.75
  /\ MH_Sampling_posterior_sljk 0 0.75 1 (ex_vec 2) (ex_vec 1) ex_z0 0 0 ex_X0
       src_zero_proposal 0%nat
     = Some (0, 3000%nat)
  /\ ~ 0 < 0.
Proof.
  split; [lra |]. split; [| lra].
  unfold MH_Sampling_posterior_sljk.
  destruct (rfor_invariant
              (fun i st m =>
                 m = (4 * i)%nat
                 /\ ((i = 0%nat /\ st = (0.75, [0.75]))
                     \/ ((0 < i)%nat /\ exists vec, st = (0, vec ++ [0]))))
              (fun _ => MH_body_sljk 0 1 (ex_vec 2) (ex_vec 1) ex_z0 0 0 ex_X0)
              750 (0.75, [0.75]) src_zero_proposal 0%nat)
    as (st & n' & Hloop & Hn & Hst).
  - split; [reflexivity | left; split; reflexivity].
  - intros i st m _ [Hm [[Hi ->] | [Hi [vec ->]]]].
    + subst i m. eexists. eexists. split.
      * apply sljk_step_to_zero. reflexivity.
      * split; [reflexivity |]. right. split; [lia |]. now exists [0.75].
    + eexists. eexists. split.
      * apply sljk_step_to_zero. subst m.
        destruct i as [| i]; [lia |]. reflexivity.
      * split; [lia |]. right. split; [lia |]. now exists (vec ++ [0]).
  - destruct Hst as [[Hi _] | [_ [vec ->]]]; [discriminate |].
    unfold bind. change ([] ++ [0.75]) with [0.75]. rewrite Hloop.
    unfold lift. simpl snd. subst n'.
    assert (Hl : py_last (vec ++ [0]) = Some 0).
    { unfold py_last. destruct (vec ++ [0]) eqn:E.
      - destruct vec; discriminate.
      - rewrite <- E. now rewrite last_last. }
    rewrite Hl. reflexivity.
Qed.

(** ** The posterior responsibility tensor *)

Lemma AGD_pdf_feature_selction_eval (X : mat) (i j D : nat)
    (rho mu s_l s_r mu_irr s_l_irr s_r_irr : mat) :
  (D <= mcols X)%nat ->
  (j < mrows rho)%nat -> (D <= mcols rho)%nat ->
  (j < mrows mu)%nat -> (D <= mcols mu)%nat ->
  (j < mrows s_l)%nat -> (D <= mcols s_l)%nat ->
  (j < mrows s_r)%nat -> (D <= mcols s_r)%nat ->
  (j < mrows mu_irr)%nat -> (D <= mcols mu_irr)%nat ->
  (j < mrows s_l_irr)%nat -> (D <= mcols s_l_irr)%nat ->
  (j < mrows s_r_irr)%nat -> (D <= mcols s_r_irr)%nat ->
  AGD_pdf_feature_selction (mkvec (mcols X) (mdat X i)) j D
    rho mu s_l s_r mu_irr s_l_irr s_r_irr
  = Some (feature_selection_density X i j D
            rho mu s_l s_r mu_irr s_l_irr s_r_irr).
Proof.
  intros. unfold AGD_pdf_feature_selction, feature_selection_density.
  erewrite ofor_prod with
    (f := fun k => mixture_density (mdat X i k) (mdat rho j k) (mdat mu j k)
                     (mdat s_l j k) (mdat s_r j k) (mdat mu_irr j k)
                     (mdat s_l_irr j k) (mdat s_r_irr j k)).
  - f_equal. ring.
  - intros k acc Hk.
    rewrite !mget_in by (try assumption; lia).
    rewrite vget_in by (simpl; lia).
    reflexivity.
Qed.

Lemma tset_in (t : ten) (i j k : nat) (x : R) :
  (i < td0 t)%nat -> (j < td1 t)%nat -> (k < td2 t)%nat ->
  tset t i j k x
  = Some (mkten (td0 t) (td1 t) (td2 t)
            (fun i' j' k' =>
               if ((i' =? i) && (j' =? j) && (k' =? k))%nat then x
               else tdat t i' j' k')).
Proof.
  intros Hi Hj Hk. unfold tset.
  apply Nat.ltb_lt in Hi. apply Nat.ltb_lt in Hj. apply Nat.ltb_lt in Hk.
  now rewrite Hi, Hj, Hk.
Qed.

Lemma mset_row_in (m : mat) (i : nat) (x : R) :
  (i < mrows m)%nat ->
  mset_row m i x
  = Some (mkmat (mrows m) (mcols m)
            (fun i' j' => if (i' =? i)%nat then x else mdat m i' j')).
Proof.
  intros Hi. unfold mset_row. apply Nat.ltb_lt in Hi. now rewrite Hi.
Qed.

(** Two nested loops that assign a scalar to the row [i] at every [(i, j)]
    leave in each row the value assigned for the last [j]. *)
Lemma row_fill (N M : nat) (val : nat -> nat -> R)
    (body : nat -> nat -> mat -> option mat) (Z0 : mat) :
  mrows Z0 = N -> mcols Z0 = M ->
  (forall i j Z, (i < N)%nat -> (j < M)%nat -> mrows Z = N ->
     body i j Z = mset_row Z i (val i j)) ->
  exists Z,
    ofor N (fun i Z => ofor M (fun j Z => body i j Z) Z) Z0 = Some Z
    /\ mrows Z = N /\ mcols Z = M
    /\ forall i j, (i < N)%nat -> (0 < M)%nat ->
         mdat Z i j = val i (M - 1)%nat.
Proof.
  intros HN HM Hbody.
  destruct (ofor_invariant
              (fun i Z => mrows Z = N /\ mcols Z = M
                          /\ forall i' j', (i' < i)%nat -> (0 < M)%nat ->
                               mdat Z i' j' = val i' (M - 1)%nat)
              (fun i Z => ofor M (fun j Z => body i j Z) Z) N Z0)
    as [Z [HZ HP]].
  - repeat split; try assumption. intros i' j' Hi'. lia.
  - intros i Z Hi (HrZ & HcZ & Hold).
    destruct (ofor_invariant
                (fun j Z' => mrows Z' = N /\ mcols Z' = M
                   /\ (forall i' j', (i' < i)%nat -> (0 < M)%nat ->
                         mdat Z' i' j' = val i' (M - 1)%nat)
                   /\ (forall j', (0 < j)%nat ->
                         mdat Z' i j' = val i (j - 1)%nat))
                (fun j Z' => body i j Z') M Z)
      as [Z' [HZ' HP']].
    + repeat split; try assumption. intros j' Hj. lia.
    + intros j Z' Hj (Hr' & Hc' & Hold' & Hrow).
      rewrite Hbody by assumption.
      rewrite mset_row_in by lia.
      eexists. split; [reflexivity |]. simpl.
      repeat split; try assumption.
      * intros i' j' Hi' HM0.
        destruct (Nat.eqb_spec i' i) as [-> | _]; [lia |].
        now apply Hold'.
      * intros j' _. rewrite Nat.eqb_refl. now rewrite Nat.sub_0_r.
    + exists Z'. split; [exact HZ' |].
      destruct HP' as (Hr' & Hc' & Hold' & Hrow).
      repeat split; try assumption.
      intros i' j' Hi' HM0.
      destruct (Nat.eq_dec i' i) as [-> | Hne].
      * now apply Hrow.
      * apply Hold'; [lia | exact HM0].
  - exists Z. split; [exact HZ |].
    destruct HP as (Hr & Hc & Hall). repeat split; assumption.
Qed.

(** Three nested loops that assign [val i j k] at every [(i, j, k)] fill
    the tensor with [val]. *)
Lemma tensor_fill (N M D : nat) (val : nat -> nat -> nat -> R)
    (body : nat -> nat -> nat -> ten -> option ten) (P0 : ten) :
  td0 P0 = N -> td1 P0 = M -> td2 P0 = D ->
  (forall i j k P, (i < N)%nat -> (j < M)%nat -> (k < D)%nat ->
     td0 P = N -> td1 P = M -> td2 P = D ->
     body i j k P = tset P i j k (val i j k)) ->
  exists P,
    ofor N (fun i P =>
      ofor M (fun j P => ofor D (fun k P => body i j k P) P) P) P0 = Some P
    /\ td0 P = N /\ td1 P = M /\ td2 P = D
    /\ forall i j k, (i < N)%nat -> (j < M)%nat -> (k < D)%nat ->
         tdat P i j k = val i j k.
Proof.
  intros H0 H1 H2 Hbody.
  set (shp := fun P : ten => td0 P = N /\ td1 P = M /\ td2 P = D).
  set (rows := fun (i : nat) (P : ten) =>
         forall i' j' k', (i' < i)%nat -> (j' < M)%nat -> (k' < D)%nat ->
           tdat P i' j' k' = val i' j' k').
  set (cols := fun (i j : nat) (P : ten) =>
         forall j' k', (j' < j)%nat -> (k' < D)%nat ->
           tdat P i j' k' = val i j' k').
  destruct (ofor_invariant (fun i P => shp P /\ rows i P)
              (fun i P =>
                 ofor M (fun j P => ofor D (fun k P => body i j k P) P) P)
              N P0) as [P [HP [Hs Hr]]].
  - split; [repeat split; assumption |]. intros i' j' k' Hi'. lia.
  - intros i P Hi [Hs Hr].
    destruct (ofor_invariant (fun j P => shp P /\ rows i P /\ cols i j P)
                (fun j P => ofor D (fun k P => body i j k P) P) M P)
      as [P1 [HP1 (Hs1 & Hr1 & Hc1)]].
    + repeat split; try apply Hs; try assumption. intros j' k' Hj'. lia.
    + intros j P1 Hj (Hs1 & Hr1 & Hc1).
      destruct (ofor_invariant
                  (fun k P => shp P /\ rows i P /\ cols i j P
                              /\ forall k', (k' < k)%nat ->
                                   tdat P i j k' = val i j k')
                  (fun k P => body i j k P) D P1)
        as [P2 [HP2 (Hs2 & Hr2 & Hc2 & Hk2)]].
      * repeat split; try apply Hs1; try assumption. intros k' Hk'. lia.
      * intros k P2 Hk (Hs2 & Hr2 & Hc2 & Hk2).
        destruct Hs2 as (Ha & Hb & Hc).
        rewrite Hbody by assumption.
        rewrite tset_in by lia.
        eexists. split; [reflexivity |]. simpl.
        split; [repeat split; assumption |]. split; [| split].
        -- intros i' j' k' Hi' Hj' Hk'. simpl.
           destruct (Nat.eqb_spec i' i) as [-> | _]; [lia |].
           now apply Hr2.
        -- intros j' k' Hj' Hk'. simpl. rewrite Nat.eqb_refl.
           destruct (Nat.eqb_spec j' j) as [-> | _]; [lia |].
           now apply Hc2.
        -- intros k' Hk'. simpl. rewrite !Nat.eqb_refl.
           destruct (Nat.eqb_spec k' k) as [-> | Hne]; [reflexivity |].
           apply Hk2. lia.
      * exists P2. split; [exact HP2 |].
        split; [exact Hs2 |]. split; [exact Hr2 |].
        intros j' k' Hj' Hk'.
        destruct (Nat.eq_dec j' j) as [-> | Hne].
        -- now apply Hk2.
        -- apply Hc2; [lia | exact Hk'].
    + exists P1. split; [exact HP1 |]. split; [exact Hs1 |].
      intros i' j' k' Hi' Hj' Hk'.
      destruct (Nat.eq_dec i' i) as [-> | Hne].
      * now apply Hc1.
      * apply Hr1; [lia | exact Hj' | exact Hk'].
  - exists P. split; [exact HP |].
    destruct Hs as (Ha & Hb & Hc). repeat split; assumption.
Qed.

(** What [draw_posterior_z] returns: at every [(i, j, k)] the relevant
    branch of component [j] times the cluster weight of the last
    component, [M - 1], which is what the row assignment
    [Z_ij_posteriors[i] = ...] leaves in every column of row [i]. *)
Lemma draw_posterior_z_entries (X : mat) (pi : vector)
    (rho mu s_l s_r mu_irr s_l_irr s_r_irr : mat) (N M D : nat) :
  (N <= mrows X)%nat -> (D <= mcols X)%nat -> (M <= vlen pi)%nat ->
  params_in_shape M D rho -> params_in_shape M D mu ->
  params_in_shape M D s_l -> params_in_shape M D s_r ->
  params_in_shape M D mu_irr -> params_in_shape M D s_l_irr ->
  params_in_shape M D s_r_irr ->
  exists T,
    draw_posterior_z X pi rho mu s_l s_r mu_irr s_l_irr s_r_irr N M D = Some T
    /\ td0 T = N /\ td1 T = M /\ td2 T = D
    /\ forall i j k, (i < N)%nat -> (j < M)%nat -> (k < D)%nat ->
         tget T i j k
         = Some (mdat rho j k
                 * AGD_pdf (mdat X i k) (mdat mu j k) (mdat s_l j k) (mdat s_r j k)
                 * cluster_weight X pi rho mu s_l s_r mu_irr s_l_irr s_r_irr
                     D i (M - 1)).
Proof.
  intros HN HD Hpi [Hr1 Hr2] [Hm1 Hm2] [Hl1 Hl2] [Hs1 Hs2] [Hmi1 Hmi2]
    [Hli1 Hli2] [Hsi1 Hsi2].
  unfold draw_posterior_z.
  destruct (row_fill N M
              (cluster_weight X pi rho mu s_l s_r mu_irr s_l_irr s_r_irr D)
              (fun i j Z =>
                 pi_j <-? vget pi j ;;
                 x_i <-? mrow X i ;;
                 a <-? AGD_pdf_feature_selction x_i j D rho mu s_l s_r
                         mu_irr s_l_irr s_r_irr ;;
                 mset_row Z i (pi_j * a))
              (mzeros N M) eq_refl eq_refl)
    as (Z & HZ & HZr & HZc & HZv).
  { intros i j Z Hi Hj HrZ.
    rewrite vget_in by lia. simpl.
    rewrite mrow_in by lia. simpl.
    rewrite AGD_pdf_feature_selction_eval by lia. reflexivity. }
  cbv beta in HZ. rewrite HZ. simpl obind.
  destruct (tensor_fill N M D
              (fun i j k =>
                 mdat rho j k
                 * AGD_pdf (mdat X i k) (mdat mu j k) (mdat s_l j k) (mdat s_r j k)
                 * cluster_weight X pi rho mu s_l s_r mu_irr s_l_irr s_r_irr
                     D i (M - 1))
              (fun i j k P =>
                 rho_jk <-? mget rho j k ;;
                 x_ik <-? mget X i k ;;
                 mu_jk <-? mget mu j k ;;
                 s_ljk <-? mget s_l j k ;;
                 s_rjk <-? mget s_r j k ;;
                 z_ij <-? mget Z i j ;;
                 tset P i j k (rho_jk * AGD_pdf x_ik mu_jk s_ljk s_rjk * z_ij))
              (tzeros N M D) eq_refl eq_refl eq_refl)
    as (T & HT & Ht0 & Ht1 & Ht2 & HTv).
  { intros i j k P Hi Hj Hk _ _ _.
    rewrite !mget_in by lia. simpl.
    rewrite HZv by lia. reflexivity. }
  cbv beta in HT. exists T. split; [exact HT |].
  repeat split; try assumption.
  intros i j k Hi Hj Hk.
  rewrite tget_in by lia. now rewrite HTv.
Qed.

Lemma ex_weight_0 : ex_weight 0 = AGD_pdf 0 0 1 1.
Proof.
  unfold ex_weight, cluster_weight, feature_selection_density,
    mixture_density. simpl. ring.
Qed.

Lemma ex_weight_1 : ex_weight 1 = 2 * AGD_pdf 0 0 1 1.
Proof.
  unfold ex_weight, cluster_weight, feature_selection_density,
    mixture_density. simpl. ring.
Qed.

(** C1 on a concrete input: with one observation, two components of
    mixing weights 1 and 2 and one feature, the entry [0, 0, 0] of the
    tensor carries the cluster weight of component 1, which differs from
    that of component 0. *)
Theorem draw_posterior_z_weight_of_last_component :
  exists T,
    draw_posterior_z ex_X ex_pi2 (ex_const2 1) (ex_const2 0) (ex_const2 1)
      (ex_const2 1) (ex_const2 0) (ex_const2 1) (ex_const2 1) 1 2 1 = Some T
    /\ tget T 0 0 0 = Some (1 * AGD_pdf 0 0 1 1 * ex_weight 1)
    /\ tget T 0 0 0 <> Some (1 * AGD_pdf 0 0 1 1 * ex_weight 0).
Proof.
  destruct (draw_posterior_z_entries ex_X ex_pi2 (ex_const2 1) (ex_const2 0)
              (ex_const2 1) (ex_const2 1) (ex_const2 0) (ex_const2 1)
              (ex_const2 1) 1 2 1)
    as (T & HT & _ & _ & _ & HTv);
    try (unfold params_in_shape; simpl; lia).
  exists T. split; [exact HT |].
  assert (H000 : tget T 0 0 0 = Some (1 * AGD_pdf 0 0 1 1 * ex_weight 1)).
  { rewrite (HTv 0%nat 0%nat 0%nat) by lia. reflexivity. }
  split; [exact H000 |].
  rewrite H000, ex_weight_0, ex_weight_1. intros [= H].
  pose proof (AGD_pdf_pos 0 0 1 1) as Hpos. nra.
Qed.

(** ** The categorical draw *)

Lemma first_true_from_spec (r : nat -> bool) (count start : nat) :
  match first_true_from r start count with
  | Some i => (start <= i < start + count)%nat /\ r i = true
              /\ forall i', (start <= i' < i)%nat -> r i' = false
  | None => forall i, (start <= i < start + count)%nat -> r i = false
  end.
Proof.
  revert start. induction count as [| c IH]; intros start; simpl.
  - intros i Hi. lia.
  - destruct (r start) eqn:Hr.
    + split; [lia |]. split; [exact Hr |]. intros i' Hi'. lia.
    + specialize (IH (S start)).
      destruct (first_true_from r (S start) c) as [i |].
      * destruct IH as (Hi & Hri & Hbefore).
        split; [lia |]. split; [exact Hri |].
        intros i' Hi'. destruct (Nat.eq_dec i' start) as [-> | Hne];
          [exact Hr | apply Hbefore; lia].
      * intros i Hi. destruct (Nat.eq_dec i start) as [-> | Hne];
          [exact Hr | apply IH; lia].
Qed.

Lemma vset_in (v : vector) (i : nat) (x : R) :
  (i < vlen v)%nat ->
  vset v i x
  = Some (mkvec (vlen v) (fun i' => if (i' =? i)%nat then x else vdat v i')).
Proof.
  intros H. unfold vset. apply Nat.ltb_lt in H. now rewrite H.
Qed.

(** One column of [draw_indicator]. *)
(** [np.cumsum] computes the partial sums. *)
Lemma cumsum_at_sum_upto (f : nat -> R) (i : nat) :
  cumsum_at f i = sum_upto (S i) f.
Proof.
  induction i as [| i IH].
  - simpl. lra.
  - change (cumsum_at f (S i)) with (cumsum_at f i + f (S i)).
    change (sum_upto (S (S i)) f) with (sum_upto (S i) f + f (S i)).
    now rewrite IH.
Qed.

Lemma cumsum_at_partial_weight (pvec : mat) (j i : nat) :
  cumsum_at (fun t => mdat pvec t j) i = partial_weight pvec j i.
Proof. apply cumsum_at_sum_upto. Qed.

Lemma draw_indicator_column (pvec : mat) (src : source) (j m : nat)
    (res : vector) :
  (0 < mrows pvec)%nat -> (j < mcols pvec)%nat -> vlen res = mcols pvec ->
  exists v m',
    (col <- lift (mcol pvec j) ;;
     let c := cumsum col in
     c_last <- lift (vlast c) ;;
     R_ <- uniform_arr 0 c_last 1 ;;
     R0 <- lift (vget R_ 0) ;;
     let r := fun i => if Rgt_dec (vdat c i - R0) 0 then true else false in
     match first_true_from r 0 (vlen c) with
     | Some i => lift (vset res j (INR i))
     | None =>
         t <- randint 0 (mrows pvec) ;;
         lift (vset res j t)
     end) src m
    = Some (mkvec (vlen res)
              (fun i' => if (i' =? j)%nat then v else vdat res i'), m')
    /\ (m < m')%nat
    /\ indicator_entry pvec src j m v.
Proof.
  intros HM Hj Hres.
  unfold bind, lift, uniform_arr, rvs, vlast, cumsum.
  rewrite mcol_in by exact Hj. simpl.
  destruct (Nat.eqb_spec (mrows pvec) 0) as [E | _]; [lia |].
  set (c := cumsum_at (fun i => mdat pvec i j)).
  set (R0 := src m (Uniform 0 (c (mrows pvec - 1)%nat)) 0%nat).
  set (r := fun i => if Rgt_dec (c i - R0) 0 then true else false).
  pose proof (first_true_from_spec r (mrows pvec) 0) as Hspec.
  destruct (first_true_from r 0 (mrows pvec)) as [i |].
  - destruct Hspec as (Hi & Hri & Hbefore).
    exists (INR i), (S m). split.
    + rewrite vset_in by lia. reflexivity.
    + split; [lia |]. left. exists i. unfold indicator_entry. cbv zeta.
      rewrite <- !cumsum_at_partial_weight. fold c R0. repeat split.
      * lia.
      * unfold r in Hri.
        destruct (Rgt_dec (c i - R0) 0); [assumption | discriminate].
      * intros i' Hi'. specialize (Hbefore i' (conj (Nat.le_0_l i') Hi')).
        unfold r in Hbefore. rewrite <- cumsum_at_partial_weight. fold c.
        destruct (Rgt_dec (c i' - R0) 0); [discriminate | assumption].
  - exists (src (S m) (RandInt 0 (mrows pvec)) 0%nat), (S (S m)). split.
    + unfold randint. apply Nat.ltb_lt in HM. rewrite HM.
      unfold rvs_scalar. rewrite vset_in by lia. reflexivity.
    + split; [lia |]. right. unfold indicator_entry. cbv zeta.
      rewrite <- !cumsum_at_partial_weight. fold c R0.
      split; [| reflexivity].
      intros i Hi. specialize (Hspec i (conj (Nat.le_0_l i) Hi)).
      unfold r in Hspec. rewrite <- cumsum_at_partial_weight. fold c.
      destruct (Rgt_dec (c i - R0) 0); [discriminate | assumption].
Qed.

(** C7.  For a weight matrix with at least one row, [draw_indicator]
    returns one entry per column; each entry is the first row index at
    which the cumulative sum of the column exceeds a draw from
    [Uniform(0, c[last])], and a uniform draw over the row indices, with no
    error raised, when there is no such index. *)
Theorem draw_indicator_first_index_or_uniform (pvec : mat) (src : source)
    (n : nat) :
  (0 < mrows pvec)%nat ->
  exists res n',
    draw_indicator pvec src n = Some (res, n')
    /\ vlen res = mcols pvec
    /\ forall j, (j < mcols pvec)%nat ->
         exists m, (n <= m < n')%nat
                   /\ indicator_entry pvec src j m (vdat res j).
Proof.
  intros HM. unfold draw_indicator.
  destruct (rfor_invariant
              (fun t res m =>
                 vlen res = mcols pvec /\ (n <= m)%nat
                 /\ forall j, (j < t)%nat ->
                      exists m0, (n <= m0 < m)%nat
                                 /\ indicator_entry pvec src j m0 (vdat res j))
              (fun j res =>
                 col <- lift (mcol pvec j) ;;
                 let c := cumsum col in
                 c_last <- lift (vlast c) ;;
                 R_ <- uniform_arr 0 c_last 1 ;;
                 R0 <- lift (vget R_ 0) ;;
                 let r := fun i => if Rgt_dec (vdat c i - R0) 0 then true
                                   else false in
                 match first_true_from r 0 (vlen c) with
                 | Some i => lift (vset res j (INR i))
                 | None =>
                     t <- randint 0 (mrows pvec) ;;
                     lift (vset res j t)
                 end)
              (mcols pvec) (vzeros (mcols pvec)) src n)
    as (res & n' & Hrun & Hlen & Hn & Hall).
  - repeat split; [lia |]. intros j Hj. lia.
  - intros t res m Ht (Hlen & Hm & Hold).
    destruct (draw_indicator_column pvec src t m res HM Ht Hlen)
      as (v & m' & Hb & Hmm & He).
    eexists. exists m'. split; [exact Hb |]. simpl.
    split; [exact Hlen |]. split; [lia |].
    intros j Hj. destruct (Nat.eqb_spec j t) as [-> | Hne].
    + exists m. split; [lia | exact He].
    + destruct (Hold j) as (m0 & Hm0 & He0); [lia |].
      exists m0. split; [lia | exact He0].
  - exists res, n'. split; [exact Hrun |]. split; [exact Hlen |].
    intros j Hj. destruct (Hall j Hj) as (m0 & Hm0 & He).
    exists m0. split; [lia | exact He].
Qed.

Lemma draw_indicator_first_index_or_uniform_witness :
  exists res n',
    draw_indicator ex_X src_ones 0%nat = Some (res, n')
    /\ vlen res = mcols ex_X
    /\ forall j, (j < mcols ex_X)%nat ->
         exists m, (0 <= m < n')%nat
                   /\ indicator_entry ex_X src_ones j m (vdat res j).
Proof.
  apply (draw_indicator_first_index_or_uniform ex_X src_ones 0%nat).
  simpl. lia.
Defined.

(** ** The Monte Carlo integral *)

Lemma Asymmetric_Gassian_Distribution_pdf_eval (x_k : vector)
    (mu_jk s_ljk s_rjk mu_jk_irr s_ljk_irr s_rjk_irr rho : R) :
  exists y_k,
    Asymmetric_Gassian_Distribution_pdf x_k mu_jk s_ljk s_rjk
      mu_jk_irr s_ljk_irr s_rjk_irr rho = Some y_k
    /\ vlen y_k = vlen x_k
    /\ forall i, (i < vlen x_k)%nat ->
         vdat y_k i
         = mixture_density (vdat x_k i) rho mu_jk s_ljk s_rjk
             mu_jk_irr s_ljk_irr s_rjk_irr.
Proof.
  unfold Asymmetric_Gassian_Distribution_pdf.
  apply (ofor_invariant_post
           (fun i y => vlen y = vlen x_k
              /\ (forall i', (i' < i)%nat ->
                    vdat y i'
                    = mixture_density (vdat x_k i') rho mu_jk s_ljk s_rjk
                        mu_jk_irr s_ljk_irr s_rjk_irr)
              /\ (forall i', (i <= i')%nat -> vdat y i' = 0))).
  - repeat split. intros i' Hi'. lia.
  - intros i y Hi (Hlen & Hdone & Hrest).
    rewrite (vget_in x_k i Hi). simpl obind.
    rewrite (vget_in y i) by lia. simpl obind.
    rewrite vset_in by lia. simpl obind.
    rewrite vget_in by (simpl; lia). simpl obind.
    rewrite vset_in by (simpl; lia).
    eexists. split; [reflexivity |]. cbn [vlen vdat].
    split; [exact Hlen |]. split.
    + intros i' Hi'. destruct (Nat.eqb_spec i' i) as [-> | Hne].
      * rewrite Nat.eqb_refl. rewrite (Hrest i) by lia.
        unfold mixture_density, AGD_pdf. simpl pow.
        destruct (Rlt_dec (vdat x_k i) mu_jk),
                 (Rlt_dec (vdat x_k i) mu_jk_irr);
          unfold Rdiv; ring.
      * apply Hdone. lia.
    + intros i' Hi'. destruct (Nat.eqb_spec i' i) as [-> | Hne]; [lia |].
      apply Hrest. lia.
  - intros y (Hlen & Hdone & _). split; assumption.
Qed.

Lemma prod_upto_ext (n : nat) (f g : nat -> R) :
  (forall k, (k < n)%nat -> f k = g k) -> prod_upto n f = prod_upto n g.
Proof.
  induction n as [| n IH]; intros H; [reflexivity |].
  simpl. rewrite IH by (intros k Hk; apply H; lia).
  now rewrite H by lia.
Qed.

Lemma sum_upto_ext (n : nat) (f g : nat -> R) :
  (forall k, (k < n)%nat -> f k = g k) -> sum_upto n f = sum_upto n g.
Proof.
  induction n as [| n IH]; intros H; [reflexivity |].
  simpl. rewrite IH by (intros k Hk; apply H; lia).
  now rewrite H by lia.
Qed.

Lemma bind_some {A B : Type} (m0 : Rand A) (k : A -> Rand B) (src : source)
    (n n' : nat) (a : A) :
  m0 src n = Some (a, n') -> bind m0 k src n = k a src n'.
Proof. intros H. unfold bind. now rewrite H. Qed.

Lemma lift_some {A : Type} (o : option A) (a : A) (src : source) (n : nat) :
  o = Some a -> lift o src n = Some (a, n).
Proof. intros ->. reflexivity. Qed.

Lemma rcomp_from_eval (f : nat -> Rand R) (g : nat -> nat -> R)
    (src : source) (count : nat) :
  forall start m,
    (forall k m', (start <= k < start + count)%nat ->
       f k src m' = Some (g k m', S m')) ->
    exists l,
      rcomp_from start count f src m = Some (l, (m + count)%nat)
      /\ length l = count
      /\ forall t, (t < count)%nat -> nth t l 0 = g (start + t)%nat (m + t)%nat.
Proof.
  induction count as [| c IH]; intros start m Hf.
  - exists []. split; [| split; [reflexivity | intros t Ht; lia]].
    simpl. unfold ret. now rewrite Nat.add_0_r.
  - destruct (IH (S start) (S m)) as (l & Hl & Hlen & Hnth).
    { intros k m' Hk. apply Hf. lia. }
    exists (g start m :: l). split; [| split].
    + simpl. erewrite bind_some by (apply Hf; lia).
      erewrite bind_some by exact Hl.
      unfold ret. f_equal. f_equal. lia.
    + simpl. now rewrite Hlen.
    + intros [| t] Ht.
      * simpl. now rewrite !Nat.add_0_r.
      * simpl. rewrite Hnth by lia. f_equal; lia.
Qed.

Lemma rcomp_eval (f : nat -> Rand R) (g : nat -> nat -> R) (src : source)
    (D m : nat) :
  (forall k m', (k < D)%nat -> f k src m' = Some (g k m', S m')) ->
  exists v,
    rcomp D f src m = Some (v, (m + D)%nat)
    /\ vlen v = D
    /\ forall k, (k < D)%nat -> vdat v k = g k (m + k)%nat.
Proof.
  intros Hf.
  destruct (rcomp_from_eval f g src D 0%nat m) as (l & Hl & Hlen & Hnth).
  { intros k m' Hk. apply Hf. lia. }
  eexists. split; [| split].
  - unfold rcomp. erewrite bind_some by exact Hl. reflexivity.
  - simpl. exact Hlen.
  - intros k Hk. simpl. now rewrite Hnth.
Qed.

(** The list comprehensions of the precision draws. *)
Lemma gamma_comp_eval (beta w : vector) (src : source) (D m : nat) :
  (D <= vlen beta)%nat -> (D <= vlen w)%nat ->
  exists v,
    rcomp D (fun k =>
      b <- lift (vget beta k) ;; w0 <- lift (vget w k) ;;
      g <- draw_gamma (b / 2) (2 / (b * w0)) ;; lift (vget g 0)) src m
    = Some (v, (m + D)%nat)
    /\ vlen v = D
    /\ forall k, (k < D)%nat ->
         vdat v k = src (m + k)%nat (prior_s beta w k) 0%nat.
Proof.
  intros Hb Hw.
  apply (rcomp_eval _ (fun k m' => src m' (prior_s beta w k) 0%nat)).
  intros k m' Hk.
  erewrite bind_some by (apply lift_some, vget_in; lia).
  erewrite bind_some by (apply lift_some, vget_in; lia).
  reflexivity.
Qed.

(** One iteration adds to every entry of the accumulator the Monte Carlo
    sample of that observation. *)
Lemma integral_approx_body_eval (X : mat)
    (lam r beta_l beta_r w_l w_r delta_a delta_b : vector) (temp : vector)
    (src : source) (m : nat) :
  priors_in_shape X lam beta_l beta_r w_l w_r delta_a ->
  vlen temp = mrows X ->
  exists temp',
    integral_approx_body X lam r beta_l beta_r w_l w_r delta_a delta_b temp src m
    = Some (temp', (m + calls_per_sample X)%nat)
    /\ vlen temp' = mrows X
    /\ forall i, (i < mrows X)%nat ->
         vdat temp' i
         = vdat temp i
           + mc_sample X lam r beta_l beta_r w_l w_r delta_a delta_b src m i.
Proof.
  intros (Hlam2 & Hlam & Hbl & Hbr & Hwl & Hwr & Hda) Htemp.
  assert (Hvec : forall m0,
            draw_MVNormal lam (vmap (fun x => 1 / x) r) src m0
            = Some (NdVector (mkvec (vlen lam)
                                (src m0 (MVNormal lam (vmap (fun x => 1 / x) r)))),
                    S m0)).
  { intros m0. unfold draw_MVNormal.
    destruct (Nat.eqb_spec (vlen lam) 1) as [E | _]; [lia | reflexivity]. }
  unfold integral_approx_body.
  set (D := mcols X) in *. set (cov := vmap (fun x => 1 / x) r) in *.
  erewrite bind_some by apply Hvec.
  destruct (gamma_comp_eval beta_l w_l src D (S m) Hbl Hwl)
    as (s_l & Hsl & Hsl_len & Hsl_v).
  erewrite bind_some by exact Hsl.
  destruct (gamma_comp_eval beta_r w_r src D (S m + D) Hbr Hwr)
    as (s_r & Hsr & Hsr_len & Hsr_v).
  erewrite bind_some by exact Hsr.
  erewrite bind_some by apply Hvec.
  destruct (gamma_comp_eval beta_l w_l src D (S (S m + D + D)) Hbl Hwl)
    as (s_l_irr & Hsli & Hsli_len & Hsli_v).
  erewrite bind_some by exact Hsli.
  destruct (gamma_comp_eval beta_r w_r src D (S (S m + D + D) + D) Hbr Hwr)
    as (s_r_irr & Hsri & Hsri_len & Hsri_v).
  erewrite bind_some by exact Hsri.
  erewrite bind_some by reflexivity.
  set (c6 := (S (S m + D + D) + D + D)%nat).
  set (mu := mkvec (vlen lam) (src m (MVNormal lam cov))).
  set (mu_irr := mkvec (vlen lam) (src (S m + D + D)%nat (MVNormal lam cov))).
  set (rho := mkvec (vlen delta_a) (src c6 (BetaD delta_a delta_b))).
  set (mix := fun i k =>
         mixture_density (mdat X i k) (vdat rho k) (vdat mu k) (vdat s_l k)
           (vdat s_r k) (vdat mu_irr k) (vdat s_l_irr k) (vdat s_r_irr k)).
  match goal with
  | |- context [lift (ofor D ?body ?s)] =>
      destruct (ofor_invariant
                  (fun k ini => vlen ini = mrows X
                     /\ forall i, (i < mrows X)%nat ->
                          vdat ini i = prod_upto k (mix i))
                  body D s) as (ini & Hini & Hini_len & Hini_v)
  end.
  - split; [reflexivity |]. intros i Hi. reflexivity.
  - intros k ini Hk (Hlen & Hval).
    rewrite mcol_in by exact Hk. cbn [obind].
    cbn [nd_index]. rewrite (vget_in mu k) by (simpl; lia). cbn [obind].
    rewrite (vget_in s_l k) by lia. cbn [obind].
    rewrite (vget_in s_r k) by lia. cbn [obind].
    cbn [nd_index]. rewrite (vget_in mu_irr k) by (simpl; lia). cbn [obind].
    rewrite (vget_in s_l_irr k) by lia. cbn [obind].
    rewrite (vget_in s_r_irr k) by lia. cbn [obind].
    rewrite (vget_in rho k) by (simpl; lia). cbn [obind].
    destruct (Asymmetric_Gassian_Distribution_pdf_eval
                (mkvec (mrows X) (fun i => mdat X i k))
                (vdat mu k) (vdat s_l k) (vdat s_r k) (vdat mu_irr k)
                (vdat s_l_irr k) (vdat s_r_irr k) (vdat rho k))
      as (y & Hy & Hy_len & Hy_v).
    rewrite Hy. cbn [obind]. unfold vzip.
    simpl in Hy_len. rewrite Hlen, Hy_len, Nat.eqb_refl.
    eexists. split; [reflexivity |]. cbn [vlen vdat].
    split; [reflexivity |]. intros i Hi.
    rewrite Hval by exact Hi. rewrite Hy_v by (simpl; exact Hi).
    reflexivity.
  - erewrite bind_some by (apply lift_some; exact Hini).
    unfold lift, vzip. rewrite Htemp, Hini_len, Nat.eqb_refl.
    eexists. split; [| split].
    + f_equal. f_equal. unfold calls_per_sample. fold D. lia.
    + reflexivity.
    + intros i Hi. cbn [vdat]. rewrite Hini_v by exact Hi.
      f_equal. unfold mc_sample. fold D. fold cov.
      apply prod_upto_ext. intros k Hk. unfold mix.
      rewrite Hsl_v, Hsr_v, Hsli_v, Hsri_v by exact Hk. reflexivity.
Qed.

Lemma integral_approx_eval (X : mat)
    (lam r beta_l beta_r w_l w_r delta_a delta_b : vector) (size : nat)
    (src : source) (n : nat) :
  priors_in_shape X lam beta_l beta_r w_l w_r delta_a ->
  exists res,
    integral_approx X lam r beta_l beta_r w_l w_r delta_a delta_b size src n
    = Some (res, (n + size * calls_per_sample X)%nat)
    /\ vlen res = mrows X
    /\ forall i, (i < mrows X)%nat ->
         vdat res i
         = sum_upto size (fun t =>
             mc_sample X lam r beta_l beta_r w_l w_r delta_a delta_b src
               (n + t * calls_per_sample X)%nat i)
           / INR size.
Proof.
  intros Hshape. unfold integral_approx.
  destruct (rfor_invariant
              (fun t temp m =>
                 m = (n + t * calls_per_sample X)%nat
                 /\ vlen temp = mrows X
                 /\ forall i, (i < mrows X)%nat ->
                      vdat temp i
                      = sum_upto t (fun t' =>
                          mc_sample X lam r beta_l beta_r w_l w_r delta_a
                            delta_b src (n + t' * calls_per_sample X)%nat i))
              (fun _ => integral_approx_body X lam r beta_l beta_r w_l w_r
                          delta_a delta_b)
              size (vzeros (mrows X)) src n)
    as (temp & n' & Hrun & Hn' & Hlen & Hval).
  - split; [lia |]. split; [reflexivity |]. intros i Hi. reflexivity.
  - intros t temp m Ht (Hm & Hlen & Hval).
    destruct (integral_approx_body_eval X lam r beta_l beta_r w_l w_r
                delta_a delta_b temp src m Hshape Hlen)
      as (temp' & Hb & Hlen' & Hval').
    exists temp', (m + calls_per_sample X)%nat. split; [exact Hb |].
    split; [lia |]. split; [exact Hlen' |].
    intros i Hi. rewrite Hval' by exact Hi. rewrite Hval by exact Hi.
    simpl. now rewrite Hm.
  - erewrite bind_some by exact Hrun.
    eexists. split; [| split].
    + unfold ret. now rewrite Hn'.
    + exact Hlen.
    + intros i Hi. cbn [vmap vdat]. now rewrite Hval.
Qed.

(** C8.  On a dataset with a single feature ([D = 1], one observation
    equal to 0, prior mean [lam] of length 1) and [size = 1],
    [integral_approx] does not return the mean of the Monte Carlo samples:
    the draw of [mu] is a scalar, not an array, and the index [mu[0]] in
    the loop over the features raises.  A draw for a prior mean of length
    2 is an array and can be indexed. *)
Theorem integral_approx_single_feature_raises :
  draw_MVNormal (ex_vec 0) (vmap (fun x => 1 / x) (ex_vec 1)) src_ones 0%nat
  = Some (NdScalar 1, 1%nat)
  /\ nd_index (NdScalar 1) 0 = None
  /\ integral_approx ex_X (ex_vec 0) (ex_vec 1) (ex_vec 2) (ex_vec 2)
       (ex_vec 1) (ex_vec 1) (ex_vec 1) (ex_vec 1) 1 src_ones 0%nat
     = None
  /\ (exists mu,
        draw_MVNormal (ex_vec2 0) (vmap (fun x => 1 / x) (ex_vec2 1))
          src_ones 0%nat
        = Some (mu, 1%nat)
        /\ nd_index mu 0 = Some 1).
Proof.
  split; [reflexivity |]. split; [reflexivity |]. split; [reflexivity |].
  eexists. split; reflexivity.
Qed.


(** * Further properties of the module *)

(** ** The shape of the asymmetric Gaussian density *)

(** X1.  With equal left and right precisions [s > 0] the density is the
    normal density of mean [mu] and precision [s]. *)
Theorem AGD_pdf_equal_precisions_is_normal (x mu s : R) :
  0 < s ->
  AGD_pdf x mu s s = sqrt (s / (2 * PI)) * exp (- (s * (x - mu) ^ 2) / 2).
Proof.
  intros Hs.
  assert (Hn : sqrt (2 / PI) / (Rpower s (-0.5) + Rpower s (-0.5))
               = sqrt (s / (2 * PI))).
  { rewrite Rpower_neg_half by exact Hs.
    pose proof (sqrt_lt_R0 s Hs) as Hss.
    pose proof PI_RGT_0 as Hpi.
    assert (H2 : 0 <= 2 / PI)
      by (apply Rlt_le, Rdiv_lt_0_compat; lra).
    symmetry. apply sqrt_lem_1.
    - apply Rlt_le, Rdiv_lt_0_compat; lra.
    - apply Rlt_le, Rdiv_lt_0_compat;
        [apply sqrt_lt_R0, Rdiv_lt_0_compat; lra |].
      assert (0 < / sqrt s) by (apply Rinv_0_lt_compat; exact Hss). lra.
    - replace (sqrt (2 / PI) / (/ sqrt s + / sqrt s))
        with (sqrt (2 / PI) * sqrt s / 2) by (field; lra).
      replace (sqrt (2 / PI) * sqrt s / 2 * (sqrt (2 / PI) * sqrt s / 2))
        with ((sqrt (2 / PI) * sqrt (2 / PI)) * (sqrt s * sqrt s) / 4)
        by field.
      rewrite (sqrt_sqrt (2 / PI) H2), (sqrt_sqrt s) by lra.
      field. lra. }
  unfold AGD_pdf. rewrite Hn.
  assert (He : - (s * (x - mu) ^ 2) / 2 = - 0.5 * s * (x - mu) ^ 2).
  { rewrite Rmult_assoc. generalize (s * (x - mu) ^ 2). intros t. lra. }
  rewrite He. destruct (Rlt_dec x mu); reflexivity.
Qed.

Lemma AGD_pdf_equal_precisions_is_normal_witness :
  AGD_pdf 1 0 4 4 = sqrt (4 / (2 * PI)) * exp (- (4 * (1 - 0) ^ 2) / 2).
Proof. apply (AGD_pdf_equal_precisions_is_normal 1 0 4). lra. Defined.

(** X2.  With non-negative precisions the density is largest at the split
    point, where its value is the normalising constant. *)
Theorem AGD_pdf_maximal_at_split (x mu s_l s_r : R) :
  0 <= s_l -> 0 <= s_r ->
  AGD_pdf x mu s_l s_r <= AGD_pdf mu mu s_l s_r
  /\ AGD_pdf mu mu s_l s_r
     = sqrt (2 / PI) / (Rpower s_l (-0.5) + Rpower s_r (-0.5)).
Proof.
  intros Hl Hr.
  assert (Hmu : AGD_pdf mu mu s_l s_r
                = sqrt (2 / PI) / (Rpower s_l (-0.5) + Rpower s_r (-0.5))).
  { rewrite AGD_pdf_spec. apply AGD_branch_at_mu. }
  split; [| exact Hmu].
  rewrite Hmu, AGD_pdf_spec. unfold AGD_spec, AGD_branch.
  pose proof (AGD_norm_pos s_l s_r) as Hn.
  rewrite <- (Rmult_1_r (sqrt (2 / PI) / (Rpower s_l (-0.5) + Rpower s_r (-0.5))))
    at 2.
  apply Rmult_le_compat_l; [lra |].
  rewrite <- exp_0.
  assert (Hsq : 0 <= (x - mu) ^ 2) by (apply pow2_ge_0).
  destruct (Rlt_dec x mu).
  - destruct (Req_dec (-0.5 * s_l * (x - mu) ^ 2) 0) as [-> | Hne]; [lra |].
    apply Rlt_le, exp_increasing. nra.
  - destruct (Req_dec (-0.5 * s_r * (x - mu) ^ 2) 0) as [-> | Hne]; [lra |].
    apply Rlt_le, exp_increasing. nra.
Qed.

Lemma AGD_pdf_maximal_at_split_witness :
  AGD_pdf 3 1 2 5 <= AGD_pdf 1 1 2 5.
Proof. apply (AGD_pdf_maximal_at_split 3 1 2 5); lra. Defined.

(** X3.  Mirroring the argument about the split point and exchanging the
    two precisions leaves the density unchanged. *)
Theorem AGD_pdf_mirror (d mu s_l s_r : R) :
  AGD_pdf (mu - d) mu s_l s_r = AGD_pdf (mu + d) mu s_r s_l.
Proof.
  unfold AGD_pdf.
  rewrite (Rplus_comm (Rpower s_r (-0.5)) (Rpower s_l (-0.5))).
  replace ((mu - d - mu) ^ 2) with (d ^ 2) by ring.
  replace ((mu + d - mu) ^ 2) with (d ^ 2) by ring.
  destruct (Rlt_dec (mu - d) mu) as [H1 | H1],
           (Rlt_dec (mu + d) mu) as [H2 | H2].
  - lra.
  - reflexivity.
  - reflexivity.
  - assert (d = 0) by lra. subst d.
    replace (0 ^ 2) with 0 by ring.
    now rewrite !Rmult_0_r.
Qed.

(** X4.  With non-negative precisions the density does not decrease
    towards the split point from the left and does not increase away from
    it to the right. *)
Theorem AGD_pdf_unimodal (x y mu s_l s_r : R) :
  0 <= s_l -> 0 <= s_r -> x <= y ->
  (y < mu -> AGD_pdf x mu s_l s_r <= AGD_pdf y mu s_l s_r)
  /\ (mu <= x -> AGD_pdf y mu s_l s_r <= AGD_pdf x mu s_l s_r).
Proof.
  intros Hl Hr Hxy.
  pose proof (AGD_norm_pos s_l s_r) as Hn.
  assert (Hexp : forall a b, a <= b -> exp a <= exp b).
  { intros a b [Hab | ->]; [apply Rlt_le, exp_increasing, Hab | lra]. }
  assert (Hneg : forall s a b, 0 <= s -> b <= a ->
                   - 0.5 * s * a <= - 0.5 * s * b).
  { intros s a b Hs Hab.
    pose proof (Rmult_le_pos s (a - b) Hs) as Hp. nra. }
  split; intros H; unfold AGD_pdf.
  - destruct (Rlt_dec x mu); [| lra]. destruct (Rlt_dec y mu); [| lra].
    apply Rmult_le_compat_l; [lra |]. apply Hexp, Hneg; [exact Hl |].
    simpl. nra.
  - destruct (Rlt_dec x mu); [lra |]. destruct (Rlt_dec y mu); [lra |].
    apply Rmult_le_compat_l; [lra |]. apply Hexp, Hneg; [exact Hr |].
    simpl. nra.
Qed.

Lemma AGD_pdf_unimodal_witness :
  AGD_pdf 0 3 2 5 <= AGD_pdf 1 3 2 5.
Proof. refine (proj1 (AGD_pdf_unimodal 0 1 3 2 5 _ _ _) _); lra. Defined.

(** ** The density with feature selection *)

Lemma ofor_fails {S : Type} (body : nat -> S -> option S) (n k : nat) (s : S) :
  (k < n)%nat -> (forall st, body k st = None) -> ofor n body s = None.
Proof.
  intros Hk Hfail. induction n as [| n IH]; [lia |].
  rewrite ofor_snoc.
  destruct (Nat.eq_dec k n) as [-> | Hne].
  - destruct (ofor n body s); [apply Hfail | reflexivity].
  - rewrite IH by lia. reflexivity.
Qed.

Lemma mixture_density_pos (x rho mu s_l s_r mu_irr s_l_irr s_r_irr : R) :
  0 <= rho <= 1 ->
  0 < mixture_density x rho mu s_l s_r mu_irr s_l_irr s_r_irr.
Proof.
  intros [H0 H1]. unfold mixture_density.
  pose proof (AGD_pdf_pos x mu s_l s_r) as Hp.
  pose proof (AGD_pdf_pos x mu_irr s_l_irr s_r_irr) as Hq.
  destruct (Req_dec rho 0) as [-> | Hne]; [lra |].
  assert (0 < rho * AGD_pdf x mu s_l s_r)
    by (apply Rmult_lt_0_compat; lra).
  assert (0 <= (1 - rho) * AGD_pdf x mu_irr s_l_irr s_r_irr)
    by (apply Rmult_le_pos; lra).
  lra.
Qed.

Lemma prod_upto_pos (n : nat) (f : nat -> R) :
  (forall k, (k < n)%nat -> 0 < f k) -> 0 < prod_upto n f.
Proof.
  induction n as [| n IH]; intros H; simpl; [lra |].
  apply Rmult_lt_0_compat; [apply IH; intros k Hk; apply H; lia |].
  apply H. lia.
Qed.

Lemma mixture_density_nonneg (x rho mu s_l s_r mu_irr s_l_irr s_r_irr : R) :
  0 <= rho <= 1 ->
  0 <= mixture_density x rho mu s_l s_r mu_irr s_l_irr s_r_irr.
Proof. intros H. left. apply mixture_density_pos, H. Qed.

Lemma prod_upto_nonneg (n : nat) (f : nat -> R) :
  (forall k, (k < n)%nat -> 0 <= f k) -> 0 <= prod_upto n f.
Proof.
  induction n as [| n IH]; intros H; simpl; [lra |].
  apply Rmult_le_pos; [apply IH; intros k Hk; apply H; lia |].
  apply H. lia.
Qed.

(** The same evaluation as [AGD_pdf_feature_selction_eval], for an
    observation given as a vector. *)
Lemma AGD_pdf_feature_selction_value (x : vector) (j D : nat)
    (rho mu s_l s_r mu_irr s_l_irr s_r_irr : mat) :
  (D <= vlen x)%nat ->
  (j < mrows rho)%nat -> (D <= mcols rho)%nat ->
  (j < mrows mu)%nat -> (D <= mcols mu)%nat ->
  (j < mrows s_l)%nat -> (D <= mcols s_l)%nat ->
  (j < mrows s_r)%nat -> (D <= mcols s_r)%nat ->
  (j < mrows mu_irr)%nat -> (D <= mcols mu_irr)%nat ->
  (j < mrows s_l_irr)%nat -> (D <= mcols s_l_irr)%nat ->
  (j < mrows s_r_irr)%nat -> (D <= mcols s_r_irr)%nat ->
  AGD_pdf_feature_selction x j D rho mu s_l s_r mu_irr s_l_irr s_r_irr
  = Some (prod_upto D (fun k =>
            mixture_density (vdat x k) (mdat rho j k) (mdat mu j k)
              (mdat s_l j k) (mdat s_r j k) (mdat mu_irr j k)
              (mdat s_l_irr j k) (mdat s_r_irr j k))).
Proof.
  intros. destruct x as [n f].
  exact (AGD_pdf_feature_selction_eval (mkmat 1 n (fun _ => f)) 0 j D
           rho mu s_l s_r mu_irr s_l_irr s_r_irr
           ltac:(assumption) ltac:(assumption) ltac:(assumption)
           ltac:(assumption) ltac:(assumption) ltac:(assumption)
           ltac:(assumption) ltac:(assumption) ltac:(assumption)
           ltac:(assumption) ltac:(assumption) ltac:(assumption)
           ltac:(assumption) ltac:(assumption) ltac:(assumption)).
Qed.

(** X5.  Inside the shapes, [AGD_pdf_feature_selction] is the product over
    the [D] features of the two-branch mixture; it is the plain product of
    the relevant densities when every [rho[j, k]] is 1, and of the
    irrelevant densities when every [rho[j, k]] is 0. *)
Theorem AGD_pdf_feature_selction_product (x : vector) (j D : nat)
    (rho mu s_l s_r mu_irr s_l_irr s_r_irr : mat) :
  (D <= vlen x)%nat ->
  params_in_shape (S j) D rho -> params_in_shape (S j) D mu ->
  params_in_shape (S j) D s_l -> params_in_shape (S j) D s_r ->
  params_in_shape (S j) D mu_irr -> params_in_shape (S j) D s_l_irr ->
  params_in_shape (S j) D s_r_irr ->
  AGD_pdf_feature_selction x j D rho mu s_l s_r mu_irr s_l_irr s_r_irr
  = Some (prod_upto D (fun k =>
            mdat rho j k
            * AGD_pdf (vdat x k) (mdat mu j k) (mdat s_l j k) (mdat s_r j k)
            + (1 - mdat rho j k)
              * AGD_pdf (vdat x k) (mdat mu_irr j k) (mdat s_l_irr j k)
                  (mdat s_r_irr j k)))
  /\ ((forall k, (k < D)%nat -> mdat rho j k = 1) ->
      AGD_pdf_feature_selction x j D rho mu s_l s_r mu_irr s_l_irr s_r_irr
      = Some (prod_upto D (fun k =>
                AGD_pdf (vdat x k) (mdat mu j k) (mdat s_l j k)
                  (mdat s_r j k))))
  /\ ((forall k, (k < D)%nat -> mdat rho j k = 0) ->
      AGD_pdf_feature_selction x j D rho mu s_l s_r mu_irr s_l_irr s_r_irr
      = Some (prod_upto D (fun k =>
                AGD_pdf (vdat x k) (mdat mu_irr j k) (mdat s_l_irr j k)
                  (mdat s_r_irr j k)))).
Proof.
  intros Hx [Hr1 Hr2] [Hm1 Hm2] [Hl1 Hl2] [Hs1 Hs2] [Hmi1 Hmi2]
    [Hli1 Hli2] [Hsi1 Hsi2].
  assert (Hv := AGD_pdf_feature_selction_value x j D rho mu s_l s_r
                  mu_irr s_l_irr s_r_irr Hx
                  ltac:(lia) Hr2 ltac:(lia) Hm2 ltac:(lia) Hl2 ltac:(lia) Hs2
                  ltac:(lia) Hmi2 ltac:(lia) Hli2 ltac:(lia) Hsi2).
  split; [exact Hv |]. split; intros Hrho; rewrite Hv; f_equal;
    apply prod_upto_ext; intros k Hk; unfold mixture_density;
    rewrite Hrho by exact Hk; ring.
Qed.

Lemma AGD_pdf_feature_selction_product_witness :
  AGD_pdf_feature_selction (ex_vec 0) 0 1 (ex_const2 1) (ex_const2 0)
    (ex_const2 1) (ex_const2 1) (ex_const2 0) (ex_const2 1) (ex_const2 1)
  = Some (prod_upto 1 (fun k => AGD_pdf (vdat (ex_vec 0) k) 0 1 1)).
Proof.
  refine (proj1 (proj2
    (AGD_pdf_feature_selction_product (ex_vec 0) 0 1 (ex_const2 1)
       (ex_const2 0) (ex_const2 1) (ex_const2 1) (ex_const2 0)
       (ex_const2 1) (ex_const2 1) _ _ _ _ _ _ _ _)) _);
    unfold params_in_shape; simpl; try lia.
  intros k Hk. reflexivity.
Defined.

(** X6.  With every [rho[j, k]] in [0, 1], the density with feature
    selection is never negative. *)
Theorem AGD_pdf_feature_selction_nonnegative (x : vector) (j D : nat)
    (rho mu s_l s_r mu_irr s_l_irr s_r_irr : mat) :
  (D <= vlen x)%nat ->
  params_in_shape (S j) D rho -> params_in_shape (S j) D mu ->
  params_in_shape (S j) D s_l -> params_in_shape (S j) D s_r ->
  params_in_shape (S j) D mu_irr -> params_in_shape (S j) D s_l_irr ->
  params_in_shape (S j) D s_r_irr ->
  (forall k, (k < D)%nat -> 0 <= mdat rho j k <= 1) ->
  exists y,
    AGD_pdf_feature_selction x j D rho mu s_l s_r mu_irr s_l_irr s_r_irr
    = Some y /\ 0 <= y.
Proof.
  intros Hx [Hr1 Hr2] [Hm1 Hm2] [Hl1 Hl2] [Hs1 Hs2] [Hmi1 Hmi2]
    [Hli1 Hli2] [Hsi1 Hsi2] Hrho.
  eexists. split.
  - apply AGD_pdf_feature_selction_value; (assumption || lia).
  - apply prod_upto_nonneg. intros k Hk.
    apply mixture_density_nonneg, Hrho, Hk.
Qed.

Lemma AGD_pdf_feature_selction_nonnegative_witness :
  exists y,
    AGD_pdf_feature_selction (ex_vec 0) 0 1 (ex_const2 (/ 2)) (ex_const2 0)
      (ex_const2 1) (ex_const2 1) (ex_const2 0) (ex_const2 1) (ex_const2 1)
    = Some y /\ 0 <= y.
Proof.
  apply (AGD_pdf_feature_selction_nonnegative (ex_vec 0) 0 1 (ex_const2 (/ 2))
           (ex_const2 0) (ex_const2 1) (ex_const2 1) (ex_const2 0)
           (ex_const2 1) (ex_const2 1));
    unfold params_in_shape; simpl; try lia.
  intros k Hk. lra.
Defined.

(** X7.  An observation with fewer than [D] features makes
    [AGD_pdf_feature_selction] raise, whatever the parameters. *)
Theorem AGD_pdf_feature_selction_short_observation (x : vector) (j D : nat)
    (rho mu s_l s_r mu_irr s_l_irr s_r_irr : mat) :
  (vlen x < D)%nat ->
  AGD_pdf_feature_selction x j D rho mu s_l s_r mu_irr s_l_irr s_r_irr = None.
Proof.
  intros Hx. unfold AGD_pdf_feature_selction.
  apply (ofor_fails _ D (vlen x) 1 Hx).
  intros y. destruct (mget rho j (vlen x)); [| reflexivity]. simpl.
  unfold vget. rewrite Nat.ltb_irrefl. reflexivity.
Qed.

Lemma AGD_pdf_feature_selction_short_observation_witness :
  AGD_pdf_feature_selction (ex_vec 0) 0 2 ex_rho ex_rho ex_rho ex_rho
    ex_rho ex_rho ex_rho = None.
Proof.
  apply (AGD_pdf_feature_selction_short_observation (ex_vec 0) 0 2).
  simpl. lia.
Defined.

(** X8.  The batch evaluator never raises; it returns one entry per
    observation, and each entry is the mixture
    [rho * AGD_pdf(x; relevant) + (1 - rho) * AGD_pdf(x; irrelevant)] of the
    scalar density. *)
Theorem Asymmetric_Gassian_Distribution_pdf_pointwise (x_k : vector)
    (mu_jk s_ljk s_rjk mu_jk_irr s_ljk_irr s_rjk_irr rho : R) :
  exists y_k,
    Asymmetric_Gassian_Distribution_pdf x_k mu_jk s_ljk s_rjk
      mu_jk_irr s_ljk_irr s_rjk_irr rho = Some y_k
    /\ vlen y_k = vlen x_k
    /\ forall i, (i < vlen x_k)%nat ->
         vget y_k i
         = Some (rho * AGD_pdf (vdat x_k i) mu_jk s_ljk s_rjk
                 + (1 - rho)
                   * AGD_pdf (vdat x_k i) mu_jk_irr s_ljk_irr s_rjk_irr).
Proof.
  destruct (Asymmetric_Gassian_Distribution_pdf_eval x_k mu_jk s_ljk s_rjk
              mu_jk_irr s_ljk_irr s_rjk_irr rho) as (y & Hy & Hlen & Hval).
  exists y. split; [exact Hy |]. split; [exact Hlen |].
  intros i Hi. rewrite vget_in by lia. now rewrite Hval.
Qed.

(** ** More on the comparison functions *)

(** X11.  A feature index outside the hyperparameter vectors makes the
    comparison functions raise: [compare_mu_jk] when [lam] has no entry
    [k], [compare_s_ljk] and [compare_s_rjk] when [beta] has none, and the
    two [delta] comparisons when [rho] lacks column [k] and there is at
    least one component. *)
Theorem compare_feature_out_of_range (gammaln : R -> R)
    (candidate previous : R) (mu_jk s_ljk s_rjk delta_a delta_b : R)
    (r lam beta w : vector) (z : ten) (j k : nat) (X : mat)
    (rho : mat) (M : nat) (src : source) (n : nat) :
  ((vlen lam <= k)%nat ->
   compare_mu_jk candidate previous s_ljk s_rjk r lam z j k X src n = None)
  /\ ((vlen beta <= k)%nat ->
      compare_s_ljk candidate previous mu_jk s_rjk beta w z j k X src n = None
      /\ compare_s_rjk candidate previous mu_jk s_ljk beta w z j k X src n
         = None)
  /\ ((0 < M)%nat -> (mcols rho <= k)%nat ->
      compare_delta_a gammaln candidate previous delta_b rho k M src n = None
      /\ compare_delta_b gammaln candidate previous delta_a rho k M src n
         = None).
Proof.
  assert (Hv : forall v : vector, (vlen v <= k)%nat -> vget v k = None).
  { intros v H. unfold vget.
    destruct (Nat.ltb_spec k (vlen v)); [lia | reflexivity]. }
  assert (Hm : forall i, mget rho i k = None \/ (k < mcols rho)%nat).
  { intros i. unfold mget.
    destruct (Nat.ltb_spec k (mcols rho)); [now right | left].
    now rewrite andb_false_r. }
  split; [| split].
  - intros H. unfold compare_mu_jk, bind.
    destruct (lift _ src n) as [[c n1] |]; [| reflexivity].
    unfold lift. now rewrite (Hv lam H).
  - intros H. split.
    + unfold compare_s_ljk, bind.
      destruct (lift _ src n) as [[c n1] |]; [| reflexivity].
      unfold lift. now rewrite (Hv beta H).
    + unfold compare_s_rjk, bind.
      destruct (lift _ src n) as [[c n1] |]; [| reflexivity].
      unfold lift. now rewrite (Hv beta H).
  - intros HM Hk. split.
    + unfold compare_delta_a, bind.
      rewrite (ofor_fails _ M 0%nat) ; [reflexivity | exact HM |].
      intros acc. destruct (Hm 0%nat) as [-> | ?]; [reflexivity | lia].
    + unfold compare_delta_b, bind.
      rewrite (ofor_fails _ M 0%nat) ; [reflexivity | exact HM |].
      intros acc. destruct (Hm 0%nat) as [-> | ?]; [reflexivity | lia].
Qed.

Lemma compare_feature_out_of_range_witness :
  compare_mu_jk 1 0 1 1 (ex_vec 1) (ex_vec 0) ex_z 0 1 ex_X src_ones 0%nat
  = None.
Proof.
  refine (proj1 (compare_feature_out_of_range (fun _ => 0) 1 0 0 1 1 1 1
                   (ex_vec 1) (ex_vec 0) (ex_vec 2) (ex_vec 1) ex_z 0 1 ex_X
                   ex_rho 1 src_ones 0%nat) _).
  simpl. lia.
Defined.

(** ** More on the samplers *)

Lemma mh_iter_calls (pol : policy) (cmp : R -> R -> Rand R) (src : source)
    (x : R) (n : nat) (o : option R) (n' : nat) :
  cmp_two_calls cmp src ->
  mh_iter pol cmp src x n o n' ->
  (pol = SkipNonPositive /\ o = None /\ n' = S n) \/ n' = (n + 4)%nat.
Proof.
  intros Hc Hi. inversion Hi as [He | c ratio n1 He Hcmp Hu | c ratio n1 He Hcmp Hu];
    subst.
  - left. destruct pol; try discriminate. repeat split.
  - right. apply Hc in Hcmp. lia.
  - right. apply Hc in Hcmp. lia.
Qed.

Lemma mh_run_calls (pol : policy) (cmp : R -> R -> Rand R) (src : source)
    (t : nat) (x : R) (n : nat) (acc : list R) (x' : R) (n' : nat) :
  cmp_two_calls cmp src ->
  mh_run pol cmp src t x n acc x' n' ->
  (n + t <= n' <= n + 4 * t)%nat
  /\ (pol <> SkipNonPositive -> n' = (n + 4 * t)%nat)
  /\ (length acc <= t)%nat.
Proof.
  intros Hc Hrun.
  induction Hrun as [x n | t x n n1 acc x' n' Hi Hr IH
                     | t x n c n1 acc x' n' Hi Hr IH].
  - repeat split; simpl; lia.
  - destruct IH as (Hb & He & Hl).
    destruct (mh_iter_calls _ _ _ _ _ _ _ Hc Hi) as [(Hp & _ & ->) | ->].
    + repeat split; try lia. intros Hne. contradiction.
    + repeat split; try lia. intros Hne. specialize (He Hne). lia.
  - destruct IH as (Hb & He & Hl).
    destruct (mh_iter_calls _ _ _ _ _ _ _ Hc Hi) as [(_ & Ho & _) | ->];
      [discriminate |].
    repeat split; simpl; try lia. intros Hne. specialize (He Hne). lia.
Qed.

Lemma compare_mu_jk_two_calls (s_ljk s_rjk : R) (r lam : vector) (z : ten)
    (j k : nat) (X : mat) (src : source) :
  data_in_shape z j k X -> (k < vlen lam)%nat -> (k < vlen r)%nat ->
  cmp_two_calls (fun c x => compare_mu_jk c x s_ljk s_rjk r lam z j k X) src.
Proof.
  intros HX Hlam Hr c x n ratio n' H.
  rewrite compare_mu_jk_eval in H by assumption. now inversion H.
Qed.

Lemma compare_s_ljk_two_calls (mu_jk s_rjk : R) (beta w : vector) (z : ten)
    (j k : nat) (X : mat) (src : source) :
  data_in_shape z j k X -> (k < vlen beta)%nat -> (k < vlen w)%nat ->
  cmp_two_calls (fun c x => compare_s_ljk c x mu_jk s_rjk beta w z j k X) src.
Proof.
  intros HX Hb Hw c x n ratio n' H.
  rewrite compare_s_ljk_eval in H by assumption. now inversion H.
Qed.

Lemma compare_s_rjk_two_calls (mu_jk s_ljk : R) (beta w : vector) (z : ten)
    (j k : nat) (X : mat) (src : source) :
  data_in_shape z j k X -> (k < vlen beta)%nat -> (k < vlen w)%nat ->
  cmp_two_calls (fun c x => compare_s_rjk c x mu_jk s_ljk beta w z j k X) src.
Proof.
  intros HX Hb Hw c x n ratio n' H.
  rewrite compare_s_rjk_eval in H by assumption. now inversion H.
Qed.

Lemma compare_delta_a_two_calls (gammaln : R -> R) (delta_b : R) (rho : mat)
    (k M : nat) (src : source) :
  rho_in_shape rho k M ->
  cmp_two_calls (fun c x => compare_delta_a gammaln c x delta_b rho k M) src.
Proof.
  intros Hrho c x n ratio n' H.
  rewrite compare_delta_a_eval in H by assumption. now inversion H.
Qed.

Lemma compare_delta_b_two_calls (gammaln : R -> R) (delta_a : R) (rho : mat)
    (k M : nat) (src : source) :
  rho_in_shape rho k M ->
  cmp_two_calls (fun c x => compare_delta_b gammaln c x delta_a rho k M) src.
Proof.
  intros Hrho c x n ratio n' H.
  rewrite compare_delta_b_eval in H by assumption. now inversion H.
Qed.

(** The number of calls a sampler makes, from the run it refines. *)
Lemma mh_sampler_calls (pol : policy) (cmp : R -> R -> Rand R)
    (body : R * list R -> Rand (R * list R)) (sampler : Rand R)
    (x0 : R) (src : source) (n : nat) :
  mh_sampler_spec pol cmp body sampler x0 src n ->
  cmp_two_calls cmp src ->
  exists v n',
    sampler src n = Some (v, n')
    /\ (n + 750 <= n' <= n + 3000)%nat
    /\ (pol <> SkipNonPositive -> n' = (n + 3000)%nat).
Proof.
  intros (acc & v & n' & Hrun & _ & Hs & _ & _) Hc.
  destruct (mh_run_calls _ _ _ _ _ _ _ _ _ Hc Hrun) as (Hb & He & _).
  exists v, n'. split; [exact Hs |]. split; [lia |].
  intros Hne. specialize (He Hne). lia.
Qed.

(** X12.  [MH_Sampling_posterior_mu_jk] and [MH_Sampling_posterior_sljk]
    make exactly four calls to the random source per iteration, 3000 in
    all; the three samplers that skip non-positive candidates make between
    750 and 3000 calls. *)
Theorem MH_samplers_number_of_draws (gammaln : R -> R)
    (mu_jk s_ljk s_rjk delta_a delta_b : R)
    (r lam beta w : vector) (z : ten) (j k : nat) (X : mat)
    (rho : mat) (M : nat) (src : source) (n : nat) :
  data_in_shape z j k X ->
  (k < vlen lam)%nat -> (k < vlen r)%nat ->
  (k < vlen beta)%nat -> (k < vlen w)%nat ->
  rho_in_shape rho k M ->
  (exists v,
     MH_Sampling_posterior_mu_jk mu_jk s_ljk s_rjk r lam z j k X src n
     = Some (v, (n + 3000)%nat))
  /\ (exists v,
        MH_Sampling_posterior_sljk mu_jk s_ljk s_rjk beta w z j k X src n
        = Some (v, (n + 3000)%nat))
  /\ (exists v n',
        MH_Sampling_posterior_srjk mu_jk s_ljk s_rjk beta w z j k X src n
        = Some (v, n') /\ (n + 750 <= n' <= n + 3000)%nat)
  /\ (exists v n',
        MH_Sampling_posterior_delta_a gammaln delta_a delta_b rho k M src n
        = Some (v, n') /\ (n + 750 <= n' <= n + 3000)%nat)
  /\ (exists v n',
        MH_Sampling_posterior_delta_b gammaln delta_a delta_b rho k M src n
        = Some (v, n') /\ (n + 750 <= n' <= n + 3000)%nat).
Proof.
  intros HX Hlam Hr Hb Hw Hrho.
  split; [| split; [| split; [| split]]].
  - destruct (mh_sampler_calls _ _ _ _ _ _ _
                (MH_mu_jk_spec mu_jk s_ljk s_rjk r lam z j k X src n HX Hlam Hr)
                (compare_mu_jk_two_calls s_ljk s_rjk r lam z j k X src HX Hlam Hr))
      as (v & n' & Hs & _ & He).
    exists v. rewrite Hs, He by discriminate. reflexivity.
  - destruct (mh_sampler_calls _ _ _ _ _ _ _
                (MH_sljk_spec mu_jk s_ljk s_rjk beta w z j k X src n HX Hb Hw)
                (compare_s_ljk_two_calls mu_jk s_rjk beta w z j k X src HX Hb Hw))
      as (v & n' & Hs & _ & He).
    exists v. rewrite Hs, He by discriminate. reflexivity.
  - destruct (mh_sampler_calls _ _ _ _ _ _ _
                (MH_srjk_spec mu_jk s_ljk s_rjk beta w z j k X src n HX Hb Hw)
                (compare_s_rjk_two_calls mu_jk s_ljk beta w z j k X src HX Hb Hw))
      as (v & n' & Hs & Hbd & _).
    exists v, n'. split; assumption.
  - destruct (mh_sampler_calls _ _ _ _ _ _ _
                (MH_delta_a_spec gammaln delta_a delta_b rho k M src n Hrho)
                (compare_delta_a_two_calls gammaln delta_b rho k M src Hrho))
      as (v & n' & Hs & Hbd & _).
    exists v, n'. split; assumption.
  - destruct (mh_sampler_calls _ _ _ _ _ _ _
                (MH_delta_b_spec gammaln delta_a delta_b rho k M src n Hrho)
                (compare_delta_b_two_calls gammaln delta_a rho k M src Hrho))
      as (v & n' & Hs & Hbd & _).
    exists v, n'. split; assumption.
Qed.

Lemma MH_samplers_number_of_draws_witness :
  exists v,
    MH_Sampling_posterior_mu_jk 0 1 1 (ex_vec 1) (ex_vec 0) ex_z 0 0 ex_X
      src_ones 0%nat = Some (v, (0 + 3000)%nat).
Proof.
  refine (proj1
    (MH_samplers_number_of_draws (fun _ => 0) 0 1 1 1 1
       (ex_vec 1) (ex_vec 0) (ex_vec 2) (ex_vec 1) ex_z 0 0 ex_X
       ex_rho 1 src_ones 0%nat _ _ _ _ _ _));
    unfold data_in_shape, rho_in_shape; simpl; lia.
Defined.

Lemma mh_body_skipped (pol : policy) (cmp : R -> R -> Rand R) (src : source)
    (x : R) (vec : list R) (m : nat) :
  effective_candidate pol (src m (Normal x 0.75) 0%nat) = None ->
  mh_body pol cmp (x, vec) src m = Some ((x, vec), S m).
Proof. intros H. unfold mh_body. now rewrite H. Qed.

Lemma skip_nonpositive (c : R) :
  c <= 0 -> effective_candidate SkipNonPositive c = None.
Proof.
  intros H. unfold effective_candidate. destruct (Rle_dec c 0); [reflexivity | lra].
Qed.

(** A sampler all of whose iterations are skipped keeps its start value
    and makes one call per iteration. *)
Lemma mh_sampler_all_skipped (cmp : R -> R -> Rand R)
    (body : R * list R -> Rand (R * list R)) (sampler : Rand R)
    (x0 : R) (src : source) (n : nat) :
  (forall st m, body st src m = mh_body SkipNonPositive cmp st src m) ->
  sampler src n
  = (st <- rfor 750 (fun _ => body) (x0, [] ++ [x0]) ;;
     lift (py_last (snd st))) src n ->
  (forall m y, src m (Normal y 0.75) 0%nat <= 0) ->
  sampler src n = Some (x0, (n + 750)%nat).
Proof.
  intros Hbody Hs Hprop. rewrite Hs.
  destruct (rfor_invariant
              (fun i st m => st = (x0, [x0]) /\ m = (n + i)%nat)
              (fun _ => body) 750 (x0, [x0]) src n)
    as (st & n' & Hloop & -> & ->).
  - split; [reflexivity | lia].
  - intros i st m _ [-> ->]. eexists. eexists. split.
    + rewrite Hbody. apply mh_body_skipped, skip_nonpositive, Hprop.
    + split; [reflexivity | lia].
  - unfold bind. change ([] ++ [x0]) with [x0]. rewrite Hloop. reflexivity.
Qed.

(** X13.  When every proposal is non-positive, the samplers for [s_rjk],
    [delta_a] and [delta_b] skip all 750 iterations: they return the start
    value, make exactly 750 calls to the source and never look at the data
    or the hyperparameters. *)
Theorem MH_skip_samplers_all_proposals_nonpositive (gammaln : R -> R)
    (mu_jk s_ljk s_rjk delta_a delta_b : R)
    (beta w : vector) (z : ten) (j k : nat) (X : mat)
    (rho : mat) (M : nat) (src : source) (n : nat) :
  (forall m y, src m (Normal y 0.75) 0%nat <= 0) ->
  MH_Sampling_posterior_srjk mu_jk s_ljk s_rjk beta w z j k X src n
  = Some (s_rjk, (n + 750)%nat)
  /\ MH_Sampling_posterior_delta_a gammaln delta_a delta_b rho k M src n
     = Some (delta_a, (n + 750)%nat)
  /\ MH_Sampling_posterior_delta_b gammaln delta_a delta_b rho k M src n
     = Some (delta_b, (n + 750)%nat).
Proof.
  intros Hprop. split; [| split].
  - apply (mh_sampler_all_skipped
             (fun c x => compare_s_rjk c x mu_jk s_ljk beta w z j k X)
             (MH_body_srjk mu_jk s_ljk beta w z j k X));
      [intros st m; apply MH_body_srjk_generic | reflexivity | exact Hprop].
  - apply (mh_sampler_all_skipped
             (fun c x => compare_delta_a gammaln c x delta_b rho k M)
             (MH_body_delta_a gammaln delta_b rho k M));
      [intros st m; apply MH_body_delta_a_generic | reflexivity | exact Hprop].
  - apply (mh_sampler_all_skipped
             (fun c x => compare_delta_b gammaln c x delta_a rho k M)
             (MH_body_delta_b gammaln delta_a rho k M));
      [intros st m; apply MH_body_delta_b_generic | reflexivity | exact Hprop].
Qed.

Lemma MH_skip_samplers_all_proposals_nonpositive_witness :
  MH_Sampling_posterior_srjk 0 1 2 (ex_vec 2) (ex_vec 1) ex_z 0 0 ex_X
    src_negative 0%nat = Some (2, (0 + 750)%nat).
Proof.
  refine (proj1
    (MH_skip_samplers_all_proposals_nonpositive (fun _ => 0) 0 1 2 1 1
       (ex_vec 2) (ex_vec 1) ex_z 0 0 ex_X ex_rho 1 src_negative 0%nat _)).
  intros m y. unfold src_negative. lra.
Defined.

Lemma rfor_first_fails {S : Type} (body : nat -> S -> Rand S) (t : nat)
    (s : S) (src : source) (n : nat) :
  body 0%nat s src n = None -> rfor (Datatypes.S t) body s src n = None.
Proof. intros H. unfold rfor. now rewrite rfor_from_S, H. Qed.

Lemma mh_body_cmp_fails (pol : policy) (cmp : R -> R -> Rand R) (src : source)
    (x : R) (vec : list R) (m : nat) (c : R) :
  effective_candidate pol (src m (Normal x 0.75) 0%nat) = Some c ->
  cmp c x src (S m) = None ->
  mh_body pol cmp (x, vec) src m = None.
Proof. intros He Hc. unfold mh_body. now rewrite He, Hc. Qed.

Lemma vget_out (v : vector) (k : nat) : (vlen v <= k)%nat -> vget v k = None.
Proof.
  intros H. unfold vget. destruct (Nat.ltb_spec k (vlen v)); [lia | reflexivity].
Qed.

Lemma compare_mu_jk_no_lam (candidate previous s_ljk s_rjk : R)
    (r lam : vector) (z : ten) (j k : nat) (X : mat) (src : source) (n : nat) :
  (vlen lam <= k)%nat ->
  compare_mu_jk candidate previous s_ljk s_rjk r lam z j k X src n = None.
Proof.
  intros H. unfold compare_mu_jk, bind.
  destruct (lift _ src n) as [[c n1] |]; [| reflexivity].
  unfold lift. now rewrite (vget_out lam k H).
Qed.

Lemma compare_s_ljk_no_beta (candidate previous mu_jk s_rjk : R)
    (beta w : vector) (z : ten) (j k : nat) (X : mat) (src : source) (n : nat) :
  (vlen beta <= k)%nat ->
  compare_s_ljk candidate previous mu_jk s_rjk beta w z j k X src n = None.
Proof.
  intros H. unfold compare_s_ljk, bind.
  destruct (lift _ src n) as [[c n1] |]; [| reflexivity].
  unfold lift. now rewrite (vget_out beta k H).
Qed.

Lemma compare_s_rjk_no_beta (candidate previous mu_jk s_ljk : R)
    (beta w : vector) (z : ten) (j k : nat) (X : mat) (src : source) (n : nat) :
  (vlen beta <= k)%nat ->
  compare_s_rjk candidate previous mu_jk s_ljk beta w z j k X src n = None.
Proof.
  intros H. unfold compare_s_rjk, bind.
  destruct (lift _ src n) as [[c n1] |]; [| reflexivity].
  unfold lift. now rewrite (vget_out beta k H).
Qed.

(** X15.  A feature index outside the prior hyperparameters makes the
    samplers raise in their first iteration: always for [mu_jk] and
    [s_ljk], and for [s_rjk] as soon as the first proposal is positive (a
    non-positive one is skipped before the hyperparameters are read). *)
Theorem MH_samplers_feature_out_of_range (mu_jk s_ljk s_rjk : R)
    (r lam beta w : vector) (z : ten) (j k : nat) (X : mat)
    (src : source) (n : nat) :
  ((vlen lam <= k)%nat ->
   MH_Sampling_posterior_mu_jk mu_jk s_ljk s_rjk r lam z j k X src n = None)
  /\ ((vlen beta <= k)%nat ->
      MH_Sampling_posterior_sljk mu_jk s_ljk s_rjk beta w z j k X src n = None)
  /\ ((vlen beta <= k)%nat -> 0 < src n (Normal s_rjk 0.75) 0%nat ->
      MH_Sampling_posterior_srjk mu_jk s_ljk s_rjk beta w z j k X src n = None).
Proof.
  split; [| split].
  - intros H. unfold MH_Sampling_posterior_mu_jk, bind.
    rewrite rfor_first_fails; [reflexivity |].
    rewrite MH_body_mu_jk_generic.
    eapply mh_body_cmp_fails; [reflexivity |].
    apply compare_mu_jk_no_lam, H.
  - intros H. unfold MH_Sampling_posterior_sljk, bind.
    rewrite rfor_first_fails; [reflexivity |].
    rewrite MH_body_sljk_generic.
    eapply mh_body_cmp_fails; [reflexivity |].
    apply compare_s_ljk_no_beta, H.
  - intros H Hpos. unfold MH_Sampling_posterior_srjk, bind.
    rewrite rfor_first_fails; [reflexivity |].
    rewrite MH_body_srjk_generic.
    apply (mh_body_cmp_fails _ _ _ _ _ _ (src n (Normal s_rjk 0.75) 0%nat)).
    + unfold effective_candidate.
      destruct (Rle_dec (src n (Normal s_rjk 0.75) 0%nat) 0); [lra | reflexivity].
    + apply compare_s_rjk_no_beta, H.
Qed.

Lemma MH_samplers_feature_out_of_range_witness :
  MH_Sampling_posterior_mu_jk 0 1 1 (ex_vec 1) (ex_vec 0) ex_z 0 1 ex_X
    src_ones 0%nat = None.
Proof.
  refine (proj1 (MH_samplers_feature_out_of_range 0 1 1 (ex_vec 1) (ex_vec 0)
                   (ex_vec 2) (ex_vec 1) ex_z 0 1 ex_X src_ones 0%nat) _).
  simpl. lia.
Defined.

(** ** More on the categorical draw *)

Lemma draw_indicator_unfold (pvec : mat) :
  draw_indicator pvec
  = rfor (mcols pvec) (draw_indicator_body pvec) (vzeros (mcols pvec)).
Proof. reflexivity. Qed.

(** One column, with the number of calls it makes. *)
Lemma draw_indicator_body_cases (pvec : mat) (src : source) (j m : nat)
    (res : vector) :
  (0 < mrows pvec)%nat -> (j < mcols pvec)%nat -> vlen res = mcols pvec ->
  let c := column_cumsum pvec j in
  let R0 := src m (Uniform 0 (c (mrows pvec - 1)%nat)) 0%nat in
  (exists i, (i < mrows pvec)%nat /\ c i - R0 > 0
             /\ (forall i', (i' < i)%nat -> ~ c i' - R0 > 0)
             /\ draw_indicator_body pvec j res src m
                = Some (mkvec (vlen res)
                          (fun i' => if (i' =? j)%nat then INR i
                                     else vdat res i'), S m))
  \/ ((forall i, (i < mrows pvec)%nat -> ~ c i - R0 > 0)
      /\ draw_indicator_body pvec j res src m
         = Some (mkvec (vlen res)
                   (fun i' => if (i' =? j)%nat
                              then src (S m) (RandInt 0 (mrows pvec)) 0%nat
                              else vdat res i'), S (S m))).
Proof.
  intros HM Hj Hres c R0. subst c R0. unfold column_cumsum.
  unfold draw_indicator_body, bind, lift, uniform_arr, rvs, vlast, cumsum.
  rewrite mcol_in by exact Hj. simpl.
  destruct (Nat.eqb_spec (mrows pvec) 0) as [E | _]; [lia |].
  set (c := cumsum_at (fun i => mdat pvec i j)).
  set (R0 := src m (Uniform 0 (c (mrows pvec - 1)%nat)) 0%nat).
  set (r := fun i => if Rgt_dec (c i - R0) 0 then true else false).
  pose proof (first_true_from_spec r (mrows pvec) 0) as Hspec.
  destruct (first_true_from r 0 (mrows pvec)) as [i |].
  - destruct Hspec as (Hi & Hri & Hbefore).
    left. exists i. split; [lia |]. split; [| split].
    + unfold r in Hri.
      destruct (Rgt_dec (c i - R0) 0); [assumption | discriminate].
    + intros i' Hi'. specialize (Hbefore i' (conj (Nat.le_0_l i') Hi')).
      unfold r in Hbefore.
      destruct (Rgt_dec (c i' - R0) 0); [discriminate | assumption].
    + rewrite vset_in by lia. reflexivity.
  - right. split.
    + intros i Hi. specialize (Hspec i (conj (Nat.le_0_l i) Hi)).
      unfold r in Hspec.
      destruct (Rgt_dec (c i - R0) 0); [discriminate | assumption].
    + unfold randint. apply Nat.ltb_lt in HM. rewrite HM.
      unfold rvs_scalar. rewrite vset_in by lia. reflexivity.
Qed.

(** X16.  When every column has a positive total and the uniform draws
    lie in their interval, [draw_indicator] never falls back: it makes
    exactly one call per column and every entry is a row index whose
    weight in that column is positive. *)
Theorem draw_indicator_positive_columns (pvec : mat) (src : source)
    (n : nat) :
  (0 < mrows pvec)%nat ->
  uniform_support src ->
  (forall j, (j < mcols pvec)%nat ->
     0 < column_cumsum pvec j (mrows pvec - 1)%nat) ->
  exists res,
    draw_indicator pvec src n = Some (res, (n + mcols pvec)%nat)
    /\ vlen res = mcols pvec
    /\ forall j, (j < mcols pvec)%nat ->
         exists i, (i < mrows pvec)%nat /\ vdat res j = INR i
                   /\ 0 < mdat pvec i j.
Proof.
  intros HM Hu Hpos. rewrite draw_indicator_unfold.
  destruct (rfor_invariant
              (fun t res m =>
                 vlen res = mcols pvec /\ m = (n + t)%nat
                 /\ forall j, (j < t)%nat ->
                      exists i, (i < mrows pvec)%nat /\ vdat res j = INR i
                                /\ 0 < mdat pvec i j)
              (draw_indicator_body pvec) (mcols pvec) (vzeros (mcols pvec))
              src n)
    as (res & n' & Hrun & Hlen & -> & Hall).
  - split; [reflexivity |]. split; [lia |]. intros j Hj. lia.
  - intros t res m Ht (Hlen & -> & Hold).
    destruct (Hu (n + t)%nat 0 (column_cumsum pvec t (mrows pvec - 1)%nat))
      as (HR0 & HR1 & _).
    specialize (HR1 (Hpos t Ht)).
    pose proof (draw_indicator_body_cases pvec src t (n + t) res HM Ht Hlen)
      as Hcases. cbv zeta in Hcases.
    destruct Hcases as [(i & Hi & Hci & Hbefore & Hb) | (Hnone & _)].
    + eexists. eexists. split; [exact Hb |]. cbn [vlen vdat].
      split; [exact Hlen |]. split; [lia |].
      intros j Hj. destruct (Nat.eqb_spec j t) as [-> | Hne].
      * exists i. split; [exact Hi |]. split; [reflexivity |].
        destruct i as [| i'].
        -- unfold column_cumsum in Hci, HR0. simpl in Hci. lra.
        -- specialize (Hbefore i' (Nat.lt_succ_diag_r i')).
           unfold column_cumsum in Hci, Hbefore. simpl in Hci. lra.
      * apply Hold. lia.
    + exfalso. apply (Hnone (mrows pvec - 1)%nat); [lia |]. lra.
  - exists res. split; [exact Hrun |]. split; [exact Hlen | exact Hall].
Qed.

Lemma draw_indicator_positive_columns_witness :
  exists res,
    draw_indicator (mkmat 1 1 (fun _ _ => 1)) src_half 0%nat
    = Some (res, (0 + 1)%nat)
    /\ vlen res = 1%nat
    /\ forall j, (j < 1)%nat ->
         exists i, (i < 1)%nat /\ vdat res j = INR i
                   /\ 0 < mdat (mkmat 1 1 (fun _ _ => 1)) i j.
Proof.
  apply (draw_indicator_positive_columns (mkmat 1 1 (fun _ _ => 1))
           src_half 0%nat).
  - simpl. lia.
  - intros m low high. unfold src_half. repeat split; lra.
  - intros j Hj. unfold column_cumsum. simpl. lra.
Defined.

(** X17.  A weight matrix with columns but no rows makes [draw_indicator]
    raise (the last cumulative sum of an empty column does not exist). *)
Theorem draw_indicator_no_rows (pvec : mat) (src : source) (n : nat) :
  mrows pvec = 0%nat -> (0 < mcols pvec)%nat ->
  draw_indicator pvec src n = None.
Proof.
  intros HM HN. rewrite draw_indicator_unfold.
  destruct (mcols pvec) as [| t] eqn:E; [lia |].
  apply rfor_first_fails.
  unfold draw_indicator_body, bind, lift.
  rewrite mcol_in by lia.
  unfold vlast, cumsum. simpl vlen. now rewrite HM.
Qed.

Lemma draw_indicator_no_rows_witness :
  draw_indicator (mkmat 0 2 (fun _ _ => 1)) src_ones 0%nat = None.
Proof.
  apply (draw_indicator_no_rows (mkmat 0 2 (fun _ _ => 1)) src_ones 0%nat).
  - reflexivity.
  - simpl. lia.
Defined.

Lemma cumsum_at_zero (f : nat -> R) (i : nat) :
  (forall i', (i' <= i)%nat -> f i' = 0) -> cumsum_at f i = 0.
Proof.
  induction i as [| i IH]; intros H; simpl.
  - apply H. lia.
  - rewrite IH by (intros i' Hi'; apply H; lia). rewrite H by lia. ring.
Qed.

(** X18.  On a weight matrix that is zero everywhere, with uniform draws
    in their (empty) interval, every column falls back: [draw_indicator]
    makes two calls per column, and entry [j] is the integer drawn by the
    second of them. *)
Theorem draw_indicator_all_zero (pvec : mat) (src : source) (n : nat) :
  (0 < mrows pvec)%nat ->
  uniform_support src ->
  (forall i j, (i < mrows pvec)%nat -> (j < mcols pvec)%nat ->
     mdat pvec i j = 0) ->
  exists res,
    draw_indicator pvec src n = Some (res, (n + 2 * mcols pvec)%nat)
    /\ vlen res = mcols pvec
    /\ forall j, (j < mcols pvec)%nat ->
         vdat res j = src (n + 2 * j + 1)%nat (RandInt 0 (mrows pvec)) 0%nat.
Proof.
  intros HM Hu Hzero. rewrite draw_indicator_unfold.
  assert (Hc : forall j i, (j < mcols pvec)%nat -> (i < mrows pvec)%nat ->
                 column_cumsum pvec j i = 0).
  { intros j i Hj Hi. apply cumsum_at_zero. intros i' Hi'.
    apply Hzero; [lia | exact Hj]. }
  destruct (rfor_invariant
              (fun t res m =>
                 vlen res = mcols pvec /\ m = (n + 2 * t)%nat
                 /\ forall j, (j < t)%nat ->
                      vdat res j
                      = src (n + 2 * j + 1)%nat (RandInt 0 (mrows pvec)) 0%nat)
              (draw_indicator_body pvec) (mcols pvec) (vzeros (mcols pvec))
              src n)
    as (res & n' & Hrun & Hlen & -> & Hall).
  - split; [reflexivity |]. split; [lia |]. intros j Hj. lia.
  - intros t res m Ht (Hlen & -> & Hold).
    destruct (Hu (n + 2 * t)%nat 0 (column_cumsum pvec t (mrows pvec - 1)%nat))
      as (_ & _ & HR).
    rewrite Hc in HR by lia. specialize (HR eq_refl).
    pose proof (draw_indicator_body_cases pvec src t (n + 2 * t) res HM Ht Hlen)
      as Hcases. cbv zeta in Hcases.
    destruct Hcases as [(i & Hi & Hci & _) | (_ & Hb)].
    + exfalso. rewrite !Hc in Hci by lia. rewrite HR in Hci. lra.
    + eexists. eexists. split; [exact Hb |]. cbn [vlen vdat].
      split; [exact Hlen |]. split; [lia |].
      intros j Hj. destruct (Nat.eqb_spec j t) as [-> | Hne].
      * f_equal. lia.
      * apply Hold. lia.
  - exists res. split; [exact Hrun |]. split; [exact Hlen | exact Hall].
Qed.

Lemma draw_indicator_all_zero_witness :
  exists res,
    draw_indicator ex_X src_half 0%nat = Some (res, (0 + 2 * 1)%nat)
    /\ vlen res = 1%nat
    /\ forall j, (j < 1)%nat ->
         vdat res j = src_half (0 + 2 * j + 1)%nat (RandInt 0 1) 0%nat.
Proof.
  apply (draw_indicator_all_zero ex_X src_half 0%nat).
  - simpl. lia.
  - intros m low high. unfold src_half. repeat split; lra.
  - intros i j Hi Hj. reflexivity.
Defined.

(** ** More on the posterior responsibility tensor *)

Lemma cluster_weight_nonneg (X : mat) (pi : vector)
    (rho mu s_l s_r mu_irr s_l_irr s_r_irr : mat) (D i j : nat) :
  0 <= vdat pi j ->
  (forall k, (k < D)%nat -> 0 <= mdat rho j k <= 1) ->
  0 <= cluster_weight X pi rho mu s_l s_r mu_irr s_l_irr s_r_irr D i j.
Proof.
  intros Hpi Hrho. unfold cluster_weight, feature_selection_density.
  apply Rmult_le_pos; [exact Hpi |].
  apply Rlt_le, prod_upto_pos. intros k Hk.
  apply mixture_density_pos, Hrho, Hk.
Qed.

(** X19.  For non-negative mixing weights and relevance weights in
    [0, 1], [draw_posterior_z] returns a tensor of shape [(N, M, D)] whose
    entries are all non-negative, and exactly zero wherever [rho[j, k]] is
    zero. *)
Theorem draw_posterior_z_nonnegative (X : mat) (pi : vector)
    (rho mu s_l s_r mu_irr s_l_irr s_r_irr : mat) (N M D : nat) :
  (N <= mrows X)%nat -> (D <= mcols X)%nat -> (M <= vlen pi)%nat ->
  params_in_shape M D rho -> params_in_shape M D mu ->
  params_in_shape M D s_l -> params_in_shape M D s_r ->
  params_in_shape M D mu_irr -> params_in_shape M D s_l_irr ->
  params_in_shape M D s_r_irr ->
  (forall j, (j < M)%nat -> 0 <= vdat pi j) ->
  (forall j k, (j < M)%nat -> (k < D)%nat -> 0 <= mdat rho j k <= 1) ->
  exists T,
    draw_posterior_z X pi rho mu s_l s_r mu_irr s_l_irr s_r_irr N M D = Some T
    /\ td0 T = N /\ td1 T = M /\ td2 T = D
    /\ forall i j k, (i < N)%nat -> (j < M)%nat -> (k < D)%nat ->
         exists v, tget T i j k = Some v /\ 0 <= v
                   /\ (mdat rho j k = 0 -> v = 0).
Proof.
  intros HN HD Hpi Hrho Hmu Hsl Hsr Hmi Hsli Hsri Hpi0 Hrho01.
  destruct (draw_posterior_z_entries X pi rho mu s_l s_r mu_irr s_l_irr
              s_r_irr N M D HN HD Hpi Hrho Hmu Hsl Hsr Hmi Hsli Hsri)
    as (T & HT & H0 & H1 & H2 & Hval).
  exists T. split; [exact HT |]. repeat split; try assumption.
  intros i j k Hi Hj Hk. eexists. split; [apply Hval; assumption |].
  assert (Hw : 0 <= cluster_weight X pi rho mu s_l s_r mu_irr s_l_irr
                      s_r_irr D i (M - 1)).
  { apply cluster_weight_nonneg.
    - apply Hpi0. lia.
    - intros k' Hk'. apply Hrho01; [lia | exact Hk']. }
  split.
  - apply Rmult_le_pos; [| exact Hw].
    apply Rmult_le_pos; [apply Hrho01; assumption |].
    apply Rlt_le, AGD_pdf_pos.
  - intros ->. ring.
Qed.

Lemma draw_posterior_z_nonnegative_witness :
  exists T,
    draw_posterior_z ex_X ex_pi2 (ex_const2 1) (ex_const2 0) (ex_const2 1)
      (ex_const2 1) (ex_const2 0) (ex_const2 1) (ex_const2 1) 1 2 1 = Some T
    /\ td0 T = 1%nat /\ td1 T = 2%nat /\ td2 T = 1%nat
    /\ forall i j k, (i < 1)%nat -> (j < 2)%nat -> (k < 1)%nat ->
         exists v, tget T i j k = Some v /\ 0 <= v
                   /\ (mdat (ex_const2 1) j k = 0 -> v = 0).
Proof.
  apply (draw_posterior_z_nonnegative ex_X ex_pi2 (ex_const2 1) (ex_const2 0)
           (ex_const2 1) (ex_const2 1) (ex_const2 0) (ex_const2 1)
           (ex_const2 1) 1 2 1);
    try (unfold params_in_shape; simpl; lia).
  - intros j Hj. unfold ex_pi2. simpl. destruct j; lra.
  - intros j k Hj Hk. simpl. lra.
Defined.

(** X20.  For the last component, [j = M - 1], every entry is the
    relevant branch times that component's own cluster weight; so a call
    with a single component returns what the specification describes. *)
Theorem draw_posterior_z_last_component (X : mat) (pi : vector)
    (rho mu s_l s_r mu_irr s_l_irr s_r_irr : mat) (N M D : nat) :
  (0 < M)%nat ->
  (N <= mrows X)%nat -> (D <= mcols X)%nat -> (M <= vlen pi)%nat ->
  params_in_shape M D rho -> params_in_shape M D mu ->
  params_in_shape M D s_l -> params_in_shape M D s_r ->
  params_in_shape M D mu_irr -> params_in_shape M D s_l_irr ->
  params_in_shape M D s_r_irr ->
  exists T,
    draw_posterior_z X pi rho mu s_l s_r mu_irr s_l_irr s_r_irr N M D = Some T
    /\ forall i k, (i < N)%nat -> (k < D)%nat ->
         let j := (M - 1)%nat in
         tget T i j k
         = Some (mdat rho j k
                 * AGD_pdf (mdat X i k) (mdat mu j k) (mdat s_l j k)
                     (mdat s_r j k)
                 * (vdat pi j
                    * prod_upto D (fun k' =>
                        mdat rho j k'
                        * AGD_pdf (mdat X i k') (mdat mu j k') (mdat s_l j k')
                            (mdat s_r j k')
                        + (1 - mdat rho j k')
                          * AGD_pdf (mdat X i k') (mdat mu_irr j k')
                              (mdat s_l_irr j k') (mdat s_r_irr j k')))).
Proof.
  intros HM HN HD Hpi Hrho Hmu Hsl Hsr Hmi Hsli Hsri.
  destruct (draw_posterior_z_entries X pi rho mu s_l s_r mu_irr s_l_irr
              s_r_irr N M D HN HD Hpi Hrho Hmu Hsl Hsr Hmi Hsli Hsri)
    as (T & HT & _ & _ & _ & Hval).
  exists T. split; [exact HT |].
  intros i k Hi Hk j. subst j. rewrite Hval by (assumption || lia).
  reflexivity.
Qed.

Lemma draw_posterior_z_last_component_witness :
  exists T,
    draw_posterior_z ex_X (ex_vec 3) ex_rho ex_rho ex_rho ex_rho ex_rho
      ex_rho ex_rho 1 1 1 = Some T
    /\ forall i k, (i < 1)%nat -> (k < 1)%nat ->
         let j := (1 - 1)%nat in
         tget T i j k
         = Some (mdat ex_rho j k
                 * AGD_pdf (mdat ex_X i k) (mdat ex_rho j k) (mdat ex_rho j k)
                     (mdat ex_rho j k)
                 * (vdat (ex_vec 3) j
                    * prod_upto 1 (fun k' =>
                        mdat ex_rho j k'
                        * AGD_pdf (mdat ex_X i k') (mdat ex_rho j k')
                            (mdat ex_rho j k') (mdat ex_rho j k')
                        + (1 - mdat ex_rho j k')
                          * AGD_pdf (mdat ex_X i k') (mdat ex_rho j k')
                              (mdat ex_rho j k') (mdat ex_rho j k')))).
Proof.
  apply (draw_posterior_z_last_component ex_X (ex_vec 3) ex_rho ex_rho ex_rho
           ex_rho ex_rho ex_rho ex_rho 1 1 1);
    unfold params_in_shape; simpl; lia.
Defined.

(** X21.  With at least one observation, a vector of mixing weights
    shorter than the number of components makes [draw_posterior_z]
    raise. *)
Theorem draw_posterior_z_short_pi (X : mat) (pi : vector)
    (rho mu s_l s_r mu_irr s_l_irr s_r_irr : mat) (N M D : nat) :
  (0 < N)%nat -> (vlen pi < M)%nat ->
  draw_posterior_z X pi rho mu s_l s_r mu_irr s_l_irr s_r_irr N M D = None.
Proof.
  intros HN Hpi. unfold draw_posterior_z.
  rewrite (ofor_fails _ N 0%nat (mzeros N M) HN); [reflexivity |].
  intros Z. apply (ofor_fails _ M (vlen pi) Z Hpi).
  intros Z'. now rewrite vget_out.
Qed.

Lemma draw_posterior_z_short_pi_witness :
  draw_posterior_z ex_X (ex_vec 3) ex_rho ex_rho ex_rho ex_rho ex_rho
    ex_rho ex_rho 1 2 1 = None.
Proof.
  apply (draw_posterior_z_short_pi ex_X (ex_vec 3) ex_rho ex_rho ex_rho
           ex_rho ex_rho ex_rho ex_rho 1 2 1); simpl; lia.
Defined.

(** ** More on the Monte Carlo integral *)

Lemma sum_upto_nonneg (n : nat) (f : nat -> R) :
  (forall t, (t < n)%nat -> 0 <= f t) -> 0 <= sum_upto n f.
Proof.
  intros Hf. induction n as [| n IH]; [simpl; lra |].
  simpl. assert (0 <= f n) by (apply Hf; lia).
  assert (0 <= sum_upto n f) by (apply IH; intros t Ht; apply Hf; lia).
  lra.
Qed.

Lemma mc_sample_nonneg (X : mat)
    (lam r beta_l beta_r w_l w_r delta_a delta_b : vector)
    (src : source) (m i : nat) :
  beta_support src ->
  0 <= mc_sample X lam r beta_l beta_r w_l w_r delta_a delta_b src m i.
Proof.
  intros Hb. unfold mc_sample. apply prod_upto_nonneg. intros k Hk.
  apply mixture_density_nonneg, Hb.
Qed.

(** X22.  For a prior mean of at least two entries, with Gamma variates
    positive, Beta variates in [0, 1] and [size >= 1], no entry of the
    estimate returned by [integral_approx] is negative. *)
Theorem integral_approx_nonnegative (X : mat)
    (lam r beta_l beta_r w_l w_r delta_a delta_b : vector) (size : nat)
    (src : source) (n : nat) :
  priors_in_shape X lam beta_l beta_r w_l w_r delta_a ->
  (1 <= size)%nat ->
  gamma_support src ->
  beta_support src ->
  exists res,
    integral_approx X lam r beta_l beta_r w_l w_r delta_a delta_b size src n
    = Some (res, (n + size * calls_per_sample X)%nat)
    /\ vlen res = mrows X
    /\ forall i, (i < mrows X)%nat -> 0 <= vdat res i.
Proof.
  intros Hshape Hsize _ Hb.
  destruct (integral_approx_eval X lam r beta_l beta_r w_l w_r delta_a
              delta_b size src n Hshape) as (res & Hres & Hlen & Hval).
  exists res. split; [exact Hres |]. split; [exact Hlen |].
  intros i Hi. rewrite Hval by exact Hi.
  apply Rmult_le_pos.
  - apply sum_upto_nonneg. intros t Ht. apply mc_sample_nonneg, Hb.
  - left. apply Rinv_0_lt_compat, lt_0_INR. lia.
Qed.

Lemma integral_approx_nonnegative_witness :
  exists res,
    integral_approx ex_X2 (ex_vec2 0) (ex_vec2 1) (ex_vec2 2) (ex_vec2 2)
      (ex_vec2 1) (ex_vec2 1) (ex_vec2 1) (ex_vec2 1) 2 src_half 0%nat
    = Some (res, (0 + 2 * calls_per_sample ex_X2)%nat)
    /\ vlen res = mrows ex_X2
    /\ forall i, (i < mrows ex_X2)%nat -> 0 <= vdat res i.
Proof.
  apply (integral_approx_nonnegative ex_X2 (ex_vec2 0) (ex_vec2 1)
           (ex_vec2 2) (ex_vec2 2) (ex_vec2 1) (ex_vec2 1) (ex_vec2 1)
           (ex_vec2 1) 2 src_half 0%nat).
  - unfold priors_in_shape. simpl. lia.
  - lia.
  - intros m a b c. unfold src_half. lra.
  - intros m a b c. unfold src_half. lra.
Defined.

(** X23.  A vector of prior means [lam] shorter than the number of
    features of the dataset makes [integral_approx] raise as soon as one
    sample is asked for. *)
Theorem integral_approx_short_lam (X : mat)
    (lam r beta_l beta_r w_l w_r delta_a delta_b : vector) (size : nat)
    (src : source) (n : nat) :
  (vlen lam < mcols X)%nat -> (1 <= size)%nat ->
  integral_approx X lam r beta_l beta_r w_l w_r delta_a delta_b size src n
  = None.
Proof.
  intros Hlam Hsize. unfold integral_approx, bind at 1.
  destruct size as [| t]; [lia |].
  rewrite rfor_first_fails; [reflexivity |].
  unfold integral_approx_body.
  erewrite bind_some by reflexivity.
  unfold bind at 1.
  destruct (rcomp _ _ src (S n)) as [[s_l m1] |]; [| reflexivity].
  unfold bind at 1.
  destruct (rcomp _ _ src m1) as [[s_r m2] |]; [| reflexivity].
  erewrite bind_some by reflexivity.
  unfold bind at 1.
  destruct (rcomp _ _ src (S m2)) as [[s_l_irr m3] |]; [| reflexivity].
  unfold bind at 1.
  destruct (rcomp _ _ src m3) as [[s_r_irr m4] |]; [| reflexivity].
  erewrite bind_some by reflexivity.
  unfold bind at 1.
  rewrite (ofor_fails _ (mcols X) (vlen lam) (vones (mrows X)) Hlam);
    [reflexivity |].
  intros ini. rewrite mcol_in by exact Hlam. cbn [obind].
  destruct (vlen lam =? 1)%nat; cbn [nd_index]; [reflexivity |].
  rewrite vget_out by (simpl; lia). reflexivity.
Qed.

Lemma integral_approx_short_lam_witness :
  integral_approx (mkmat 1 2 (fun _ _ => 0)) (ex_vec 0) (ex_vec 1) (ex_vec 2)
    (ex_vec 2) (ex_vec 1) (ex_vec 1) (ex_vec 1) (ex_vec 1) 1 src_ones 0%nat
  = None.
Proof.
  apply (integral_approx_short_lam (mkmat 1 2 (fun _ _ => 0)) (ex_vec 0)
           (ex_vec 1) (ex_vec 2) (ex_vec 2) (ex_vec 1) (ex_vec 1) (ex_vec 1)
           (ex_vec 1) 1 src_ones 0%nat); simpl; lia.
Defined.

(** X27.  A prior mean [lam] with a single entry makes [integral_approx]
    raise on every dataset with at least one feature as soon as one sample
    is asked for: the draw of [mu] is a scalar, which [mu[0]] cannot
    index. *)
Theorem integral_approx_scalar_mean_raises (X : mat)
    (lam r beta_l beta_r w_l w_r delta_a delta_b : vector) (size : nat)
    (src : source) (n : nat) :
  vlen lam = 1%nat -> (1 <= mcols X)%nat -> (1 <= size)%nat ->
  integral_approx X lam r beta_l beta_r w_l w_r delta_a delta_b size src n
  = None.
Proof.
  intros Hlam HD Hsize. unfold integral_approx, bind at 1.
  destruct size as [| t]; [lia |].
  rewrite rfor_first_fails; [reflexivity |].
  unfold integral_approx_body.
  erewrite bind_some by reflexivity.
  unfold bind at 1.
  destruct (rcomp _ _ src (S n)) as [[s_l m1] |]; [| reflexivity].
  unfold bind at 1.
  destruct (rcomp _ _ src m1) as [[s_r m2] |]; [| reflexivity].
  erewrite bind_some by reflexivity.
  unfold bind at 1.
  destruct (rcomp _ _ src (S m2)) as [[s_l_irr m3] |]; [| reflexivity].
  unfold bind at 1.
  destruct (rcomp _ _ src m3) as [[s_r_irr m4] |]; [| reflexivity].
  erewrite bind_some by reflexivity.
  unfold bind at 1.
  rewrite (ofor_fails _ (mcols X) 0 (vones (mrows X)) HD);
    [reflexivity |].
  intros ini. rewrite mcol_in by exact HD. cbn [obind].
  rewrite Hlam. reflexivity.
Qed.

Lemma integral_approx_scalar_mean_raises_witness :
  integral_approx ex_X (ex_vec 3) (ex_vec 1) (ex_vec 2) (ex_vec 2)
    (ex_vec 1) (ex_vec 1) (ex_vec 1) (ex_vec 1) 2 src_half 0%nat
  = None.
Proof.
  apply (integral_approx_scalar_mean_raises ex_X (ex_vec 3) (ex_vec 1)
           (ex_vec 2) (ex_vec 2) (ex_vec 1) (ex_vec 1) (ex_vec 1) (ex_vec 1)
           2 src_half 0%nat); simpl; lia.
Defined.

(** X28.  For a prior mean of at least two entries and hyperparameters
    covering the [D] features, with [size >= 1], [integral_approx] returns
    one entry per observation: the arithmetic mean, over the [size] prior
    draws, of the product over the features of the two-branch mixture
    density.  With [size = 1] the entry is the single Monte Carlo sample
    itself. *)
Theorem integral_approx_mean_of_samples (X : mat)
    (lam r beta_l beta_r w_l w_r delta_a delta_b : vector) (size : nat)
    (src : source) (n : nat) :
  priors_in_shape X lam beta_l beta_r w_l w_r delta_a ->
  (1 <= size)%nat ->
  exists res,
    integral_approx X lam r beta_l beta_r w_l w_r delta_a delta_b size src n
    = Some (res, (n + size * calls_per_sample X)%nat)
    /\ vlen res = mrows X
    /\ forall i, (i < mrows X)%nat ->
         vdat res i
         = sum_upto size (fun t =>
             mc_sample X lam r beta_l beta_r w_l w_r delta_a delta_b src
               (n + t * calls_per_sample X)%nat i)
           / INR size
         /\ vdat res i * INR size
            = sum_upto size (fun t =>
                mc_sample X lam r beta_l beta_r w_l w_r delta_a delta_b src
                  (n + t * calls_per_sample X)%nat i)
         /\ (size = 1%nat ->
             vdat res i
             = mc_sample X lam r beta_l beta_r w_l w_r delta_a delta_b src n i).
Proof.
  intros Hshape Hsize.
  destruct (integral_approx_eval X lam r beta_l beta_r w_l w_r delta_a
              delta_b size src n Hshape) as (res & Hres & Hlen & Hval).
  exists res. split; [exact Hres |]. split; [exact Hlen |].
  intros i Hi. specialize (Hval i Hi).
  assert (Hnz : INR size <> 0) by (apply not_0_INR; lia).
  split; [exact Hval |]. split.
  - rewrite Hval. field. exact Hnz.
  - intros ->. rewrite Hval. simpl. rewrite Nat.add_0_r. field.
Qed.

Lemma integral_approx_mean_of_samples_witness :
  exists res,
    integral_approx ex_X2 (ex_vec2 0) (ex_vec2 1) (ex_vec2 2) (ex_vec2 2)
      (ex_vec2 1) (ex_vec2 1) (ex_vec2 1) (ex_vec2 1) 1 src_ones 0%nat
    = Some (res, (0 + 1 * calls_per_sample ex_X2)%nat)
    /\ vlen res = mrows ex_X2
    /\ forall i, (i < mrows ex_X2)%nat ->
         vdat res i
         = sum_upto 1 (fun t =>
             mc_sample ex_X2 (ex_vec2 0) (ex_vec2 1) (ex_vec2 2) (ex_vec2 2)
               (ex_vec2 1) (ex_vec2 1) (ex_vec2 1) (ex_vec2 1) src_ones
               (0 + t * calls_per_sample ex_X2)%nat i)
           / INR 1
         /\ vdat res i * INR 1
            = sum_upto 1 (fun t =>
                mc_sample ex_X2 (ex_vec2 0) (ex_vec2 1) (ex_vec2 2) (ex_vec2 2)
                  (ex_vec2 1) (ex_vec2 1) (ex_vec2 1) (ex_vec2 1) src_ones
                  (0 + t * calls_per_sample ex_X2)%nat i)
         /\ (1%nat = 1%nat ->
             vdat res i
             = mc_sample ex_X2 (ex_vec2 0) (ex_vec2 1) (ex_vec2 2)
                 (ex_vec2 2) (ex_vec2 1) (ex_vec2 1) (ex_vec2 1) (ex_vec2 1)
                 src_ones 0 i).
Proof.
  apply (integral_approx_mean_of_samples ex_X2 (ex_vec2 0) (ex_vec2 1)
           (ex_vec2 2) (ex_vec2 2) (ex_vec2 1) (ex_vec2 1) (ex_vec2 1)
           (ex_vec2 1) 1 src_ones 0%nat).
  - unfold priors_in_shape. simpl. lia.
  - lia.
Defined.

(** ** The log-densities and their derivatives *)

Lemma dlim_value (f : R -> R) (x l l' : R) :
  derivable_pt_lim f x l -> l = l' -> derivable_pt_lim f x l'.
Proof. intros H <-. exact H. Qed.

Lemma dlim_const_div (c x : R) :
  x <> 0 -> derivable_pt_lim (fun a => c / a) x (- c / (x * x)).
Proof.
  intros Hx.
  apply (dlim_value _ _ ((0 * id x - 1 * fct_cte c x) / (id x)²)).
  - exact (derivable_pt_lim_div (fct_cte c) id x 0 1
             (derivable_pt_lim_const c x) (derivable_pt_lim_id x) Hx).
  - unfold Rsqr, id, fct_cte. field. exact Hx.
Qed.

Lemma dlim_affine (g : R -> R) (s u x l : R) :
  derivable_pt_lim g (s + u * x) l ->
  derivable_pt_lim (fun a => g (s + u * a)) x (l * u).
Proof.
  intros H.
  assert (Haff : derivable_pt_lim (fun a => s + u * a) x u).
  { apply (dlim_value _ _ (0 + u * 1)); [| ring].
    exact (derivable_pt_lim_plus (fct_cte s) (mult_real_fct u id) x 0 (u * 1)
             (derivable_pt_lim_const s x)
             (derivable_pt_lim_scal id u x 1 (derivable_pt_lim_id x))). }
  exact (derivable_pt_lim_comp (fun a => s + u * a) g x u l Haff H).
Qed.

Lemma dlim_scal_ln (c x : R) :
  0 < x -> derivable_pt_lim (fun a => c * ln a) x (c / x).
Proof.
  intros Hx. apply (dlim_value _ _ (c * / x)); [| reflexivity].
  exact (derivable_pt_lim_scal ln c x (/ x) (derivable_pt_lim_ln x Hx)).
Qed.

(** X24.  Where [psi] is the derivative of [gammaln], [log_p_alpha_prime]
    is the derivative of [log_p_alpha] with respect to [alpha], at every
    [alpha > 0] and [N >= 0]. *)
Theorem log_p_alpha_prime_is_derivative (gammaln psi : R -> R)
    (alpha k N : R) :
  (forall x, 0 < x -> derivable_pt_lim gammaln x (psi x)) ->
  0 < alpha -> 0 <= N ->
  derivable_pt_lim (fun a => log_p_alpha gammaln a k N) alpha
    (log_p_alpha_prime psi alpha k N).
Proof.
  intros Hpsi Ha HN. unfold log_p_alpha, log_p_alpha_prime.
  assert (H1 := dlim_scal_ln (k - 1.5) alpha Ha).
  assert (H2 := dlim_const_div 0.5 alpha ltac:(lra)).
  assert (H3 := Hpsi alpha Ha).
  assert (H4 : derivable_pt_lim (fun a => gammaln (N + a)) alpha
                 (psi (alpha + N))).
  { apply (derivable_pt_lim_ext (fun a => gammaln (N + 1 * a))).
    - intros a. now rewrite Rmult_1_l.
    - apply (dlim_value _ _ (psi (N + 1 * alpha) * 1)).
      + apply dlim_affine, Hpsi. lra.
      + rewrite Rmult_1_l, Rmult_1_r. f_equal. ring. }
  eapply dlim_value.
  - exact (derivable_pt_lim_minus _ _ _ _ _
             (derivable_pt_lim_plus _ _ _ _ _
                (derivable_pt_lim_minus _ _ _ _ _ H1 H2) H3) H4).
  - unfold Rdiv. ring.
Qed.

Lemma log_p_alpha_prime_is_derivative_witness :
  derivable_pt_lim (fun a => log_p_alpha (fun _ => 0) a 3 10) 2
    (log_p_alpha_prime (fun _ => 0) 2 3 10).
Proof.
  apply (log_p_alpha_prime_is_derivative (fun _ => 0) (fun _ => 0) 2 3 10).
  - intros x Hx. exact (derivable_pt_lim_const 0 x).
  - lra.
  - lra.
Defined.

(** The derivative of [log_p_beta] with respect to [beta]. *)
Lemma log_p_beta_derivative (gammaln psi : R -> R) (beta M c : R) :
  (forall x, 0 < x -> derivable_pt_lim gammaln x (psi x)) ->
  0 < beta ->
  derivable_pt_lim (fun b => log_p_beta gammaln b M c) beta
    (- M * psi (beta / 2) + 0.5 / (beta * beta) + M * ln (beta / 2)
     + (beta * M - 1.5) / beta + 0.5 * c).
Proof.
  intros Hpsi Hb. unfold log_p_beta.
  assert (Hhalf : forall g l,
            derivable_pt_lim g (beta / 2) l ->
            derivable_pt_lim (fun b => g (b / 2)) beta (l * / 2)).
  { intros g l Hg.
    apply (derivable_pt_lim_ext (fun b => g (0 + / 2 * b))).
    - intros b. f_equal. lra.
    - apply dlim_affine. replace (0 + / 2 * beta) with (beta / 2) by lra.
      exact Hg. }
  assert (H1 : derivable_pt_lim (fun b => -2 * M * gammaln (b / 2)) beta
                 (-2 * M * (psi (beta / 2) * / 2))).
  { exact (derivable_pt_lim_scal (fun b => gammaln (b / 2)) (-2 * M) beta _
             (Hhalf gammaln _ (Hpsi (beta / 2) ltac:(lra)))). }
  assert (H2 := dlim_const_div 0.5 beta ltac:(lra)).
  assert (Hlin : derivable_pt_lim (fun b => b * M - 1.5) beta M).
  { apply (derivable_pt_lim_ext (fun b => - 1.5 + M * b)).
    - intros b. lra.
    - apply (dlim_value _ _ (1 * M)); [| ring].
      exact (dlim_affine id (- 1.5) M beta 1 (derivable_pt_lim_id _)). }
  assert (Hln : derivable_pt_lim (fun b => ln (b / 2)) beta (/ (beta / 2) * / 2)).
  { exact (Hhalf ln _ (derivable_pt_lim_ln (beta / 2) ltac:(lra))). }
  assert (H3 := derivable_pt_lim_mult _ _ _ _ _ Hlin Hln).
  assert (H4 : derivable_pt_lim (fun b => 0.5 * b * c) beta (0.5 * c)).
  { apply (derivable_pt_lim_ext (fun b => 0 + (0.5 * c) * b)).
    - intros b. lra.
    - apply (dlim_value _ _ (1 * (0.5 * c))); [| ring].
      exact (dlim_affine id 0 (0.5 * c) beta 1 (derivable_pt_lim_id _)). }
  eapply dlim_value.
  - exact (derivable_pt_lim_plus _ _ _ _ _
             (derivable_pt_lim_plus _ _ _ _ _
                (derivable_pt_lim_minus _ _ _ _ _ H1 H2) H3) H4).
  - cbv beta.
    generalize 0.5 1.5 (psi (beta / 2)) (ln (beta / 2)). intros h q P L.
    field. lra.
Qed.

(** X25.  [log_p_beta_prime] differs from the derivative of [log_p_beta]
    by [- M * psi(beta / 2) + (M * beta - 1.5) / beta]: it is that
    derivative exactly when [M * psi(beta / 2) = (M * beta - 1.5) / beta]. *)
Theorem log_p_beta_prime_versus_derivative (gammaln psi : R -> R)
    (beta M c : R) :
  (forall x, 0 < x -> derivable_pt_lim gammaln x (psi x)) ->
  0 < beta ->
  derivable_pt_lim (fun b => log_p_beta gammaln b M c) beta
    (log_p_beta_prime psi beta M c
     + M * psi (beta / 2) - (M * beta - 1.5) / beta)
  /\ (derivable_pt_lim (fun b => log_p_beta gammaln b M c) beta
        (log_p_beta_prime psi beta M c)
      <-> M * psi (beta / 2) = (M * beta - 1.5) / beta).
Proof.
  intros Hpsi Hb.
  pose proof (log_p_beta_derivative gammaln psi beta M c Hpsi Hb) as Hd.
  assert (Hval : log_p_beta_prime psi beta M c
                 + M * psi (beta / 2) - (M * beta - 1.5) / beta
                 = - M * psi (beta / 2) + 0.5 / (beta * beta)
                   + M * ln (beta / 2) + (beta * M - 1.5) / beta + 0.5 * c).
  { unfold log_p_beta_prime.
    replace (0.5 * beta) with (beta / 2) by lra.
    simpl pow.
    replace 1.5 with (3 / 2) by lra.
    generalize 0.5 (psi (beta / 2)) (ln (beta / 2)). intros h P L.
    field. lra. }
  split.
  - rewrite Hval. exact Hd.
  - split.
    + intros Hcode.
      pose proof (uniqueness_limite _ _ _ _ Hcode Hd) as Heq. lra.
    + intros Heq. apply (dlim_value _ _ _ _ Hd). lra.
Qed.

Lemma log_p_beta_prime_versus_derivative_witness :
  derivable_pt_lim (fun b => log_p_beta (fun _ => 0) b 2 1) 4
    (log_p_beta_prime (fun _ => 0) 4 2 1
     + 2 * 0 - (2 * 4 - 1.5) / 4).
Proof.
  apply (log_p_beta_prime_versus_derivative (fun _ => 0) (fun _ => 0) 4 2 1).
  - intros x Hx. exact (derivable_pt_lim_const 0 x).
  - lra.
Defined.
